(** * ShareGPT translation pipeline (sharegpt_translation/translate.py)

    A shallow embedding of [translate_conversation] and [process_file]
    over an explicit Python object store, and the properties of the
    pipeline proved about it.

    Python values are kept as the interpreter has them: immutable scalars
    ([None], booleans, integers, floats, strings) are values, while lists
    and dictionaries are objects in a store and are handled through
    references, so that [dict.copy()], item assignment and [list.append]
    have their real sharing behaviour. *)

From Stdlib Require Import ZArith NArith Strings.String Strings.Ascii.
From Stdlib Require Import Floats.SpecFloat.
From stdpp Require Import base tactics option list numbers.

Set Default Proof Using "Type".

(** ** Python strings

    A [str] is a sequence of Unicode code points. *)

Abbreviation char := N (only parsing).
Abbreviation str := (list N) (only parsing).

(** Transcription of an ASCII literal of the source. *)
Definition py (s : string) : str :=
  map N_of_ascii (list_ascii_of_string s).

Definition LF : char := 10%N.

(** [str.isspace] for one code point: CPython's [_PyUnicode_IsWhitespace]. *)
Definition isspace (c : char) : bool :=
  ((9 <=? c) && (c <=? 13) || (28 <=? c) && (c <=? 32)
   || (c =? 133) || (c =? 160) || (c =? 5760)
   || (8192 <=? c) && (c <=? 8202)
   || (c =? 8232) || (c =? 8233) || (c =? 8239) || (c =? 8287)
   || (c =? 12288))%N.

Fixpoint lstrip (s : str) : str :=
  match s with
  | [] => []
  | c :: s' => if isspace c then lstrip s' else s
  end.

Definition rstrip (s : str) : str := rev (lstrip (rev s)).

(** [s.strip()] *)
Definition strip (s : str) : str := rstrip (lstrip s).

(** [s.split(sep)] for a one-character separator: always at least one
    field, and an empty field between adjacent separators. *)
Fixpoint split (sep : char) (s : str) : list str :=
  match s with
  | [] => [[]]
  | c :: s' =>
      if (c =? sep)%N then [] :: split sep s'
      else match split sep s' with
           | [] => [[c]]
           | l :: ls => (c :: l) :: ls
           end
  end.

(** [sep.join(xs)] *)
Fixpoint join (sep : str) (xs : list str) : str :=
  match xs with
  | [] => []
  | [x] => x
  | x :: xs' => x ++ sep ++ join sep xs'
  end.

(** Truth value of a string: non-empty. *)
Definition str_truthy (s : str) : bool :=
  match s with [] => false | _ => true end.

Fixpoint is_prefix (p s : str) : bool :=
  match p, s with
  | [], _ => true
  | _ :: _, [] => false
  | a :: p', b :: s' => (a =? b)%N && is_prefix p' s'
  end.

(** [p in s] on strings: substring test. *)
Fixpoint is_infix (p s : str) : bool :=
  is_prefix p s || match s with [] => false | _ :: s' => is_infix p s' end.

(** ** Values, objects and the store *)

Abbreviation loc := nat (only parsing).

Inductive val :=
| VNone
| VBool (b : bool)
| VInt (z : Z)
| VFloat (f : spec_float)
| VStr (s : str)
| VRef (l : loc).

(** A [dict] keeps insertion order; keys are strings (the data comes from
    JSON). *)
Abbreviation dict := (list (list N * val)) (only parsing).

Inductive obj :=
| ODict (d : dict)
| OList (xs : list val).

(** [d.get(k)] on the entries. *)
Fixpoint dict_get (d : dict) (k : str) : option val :=
  match d with
  | [] => None
  | (k', v) :: d' => if decide (k' = k) then Some v else dict_get d' k
  end.

(** [d[k] = v] on the entries: an existing key keeps its position, a new
    key goes last. *)
Fixpoint dict_set (d : dict) (k : str) (v : val) : dict :=
  match d with
  | [] => [(k, v)]
  | (k', v') :: d' =>
      if decide (k' = k) then (k', v) :: d' else (k', v') :: dict_set d' k v
  end.

Definition dict_has (d : dict) (k : str) : bool :=
  match dict_get d k with Some _ => true | None => false end.

Local Set Warnings "-register-all".

(** The JSON document a value stands for, as [json.load] reads it and
    [json.dump] writes it. *)
Inductive json :=
| JNull
| JBool (b : bool)
| JInt (z : Z)
| JFloat (f : spec_float)
| JStr (s : str)
| JArr (xs : list json)
| JObj (d : list (str * json)).

Inductive exn :=
| AttributeError
| TypeError
| KeyError
| ValueError
| BackendError      (* whatever [model.batch_translate] raises *)
| InvalidRef.       (* a reference outside the store: no Python value *)

(** One call of [model.batch_translate] and how it ended ([None]: it
    raised). *)
Record call := Call {
  c_sentences : list str;
  c_src : str;
  c_tgt : str;
  c_result : option (list str)
}.

(** What the program prints (the formatted text is not modelled, the
    values interpolated are kept). *)
Inductive line :=
| ProcessingConversations (n : nat)
| WarningNoConversations (id : val)
| ProcessingSingle (id : val)
| SavedTo (path : str)
| UnsupportedFormat.

(** The [tqdm] progress bar: its [total] and its counter [n]. *)
Record tqdm := Tqdm { tq_total : nat; tq_n : nat }.

Record world := World {
  heap : list obj;
  pbar : tqdm;
  calls : list call;          (* backend calls so far, oldest first *)
  stdout : list line;         (* oldest first *)
  files : list (str * option json)
    (* files opened for writing, oldest first; [None]: opened and
       truncated, nothing complete written *)
}.

Definition set_heap (h : list obj) (w : world) : world :=
  World h (pbar w) (calls w) (stdout w) (files w).
Definition set_pbar (p : tqdm) (w : world) : world :=
  World (heap w) p (calls w) (stdout w) (files w).
Definition add_call (c : call) (w : world) : world :=
  World (heap w) (pbar w) (calls w ++ [c]) (stdout w) (files w).
Definition add_line (x : line) (w : world) : world :=
  World (heap w) (pbar w) (calls w) (stdout w ++ [x]) (files w).
Definition add_file (p : str) (c : option json) (w : world) : world :=
  World (heap w) (pbar w) (calls w) (stdout w) (files w ++ [(p, c)]).

(** ** Computations: state and exceptions *)

Inductive result (A : Type) :=
| Ok (a : A)
| Raise (e : exn).
Arguments Ok {A} a.
Arguments Raise {A} e.

(** The exception a computation ended with, if any. *)
Definition exn_of {A} (r : result A) : option exn :=
  match r with Ok _ => None | Raise e => Some e end.

Definition M (A : Type) : Type := world → result A * world.

Global Instance M_ret : MRet M := λ A a w, (Ok a, w).
Global Instance M_bind : MBind M := λ A B f m w,
  match m w with
  | (Ok a, w') => f a w'
  | (Raise e, w') => (Raise e, w')
  end.

Definition raise {A} (e : exn) : M A := λ w, (Raise e, w).
Definition get_world : M world := λ w, (Ok w, w).
Definition modify (f : world → world) : M unit := λ w, (Ok tt, f w).

(** [for x in xs: body x] over the elements read from the iterable. *)
Fixpoint for_each {A} (xs : list A) (body : A → M unit) : M unit :=
  match xs with
  | [] => mret tt
  | x :: xs' => body x ;; for_each xs' body
  end.

(** ** The store *)

Definition deref (l : loc) : M obj := λ w,
  match heap w !! l with
  | Some o => (Ok o, w)
  | None => (Raise InvalidRef, w)
  end.

(** A new object gets the next free location. *)
Definition alloc (o : obj) : M val := λ w,
  (Ok (VRef (length (heap w))), set_heap (heap w ++ [o]) w).

Definition store (l : loc) (o : obj) : M unit :=
  modify (λ w, set_heap (<[l := o]> (heap w)) w).

(** ** Python operations the pipeline uses *)

(** [bool(v)] *)
Definition truthy (v : val) : M bool :=
  match v with
  | VNone => mret false
  | VBool b => mret b
  | VInt z => mret (negb (z =? 0)%Z)
  | VFloat f => mret (match f with S754_zero _ => false | _ => true end)
  | VStr s => mret (str_truthy s)
  | VRef l =>
      o ← deref l;
      match o with
      | ODict d => mret (match d with [] => false | _ => true end)
      | OList xs => mret (match xs with [] => false | _ => true end)
      end
  end.

(** [isinstance(v, list)] and [isinstance(v, dict)] *)
Definition isinstance_list (v : val) : M bool :=
  match v with
  | VRef l =>
      o ← deref l; mret (match o with OList _ => true | ODict _ => false end)
  | _ => mret false
  end.

Definition isinstance_dict (v : val) : M bool :=
  match v with
  | VRef l =>
      o ← deref l; mret (match o with ODict _ => true | OList _ => false end)
  | _ => mret false
  end.

(** [v.copy()]: dictionaries and lists have it (a shallow copy), nothing
    else does. *)
Definition copy_method (v : val) : M val :=
  match v with
  | VRef l => o ← deref l; alloc o
  | _ => raise AttributeError
  end.

(** [v.get(k, default)]: only dictionaries have it. *)
Definition get_method (v : val) (k : str) (default : val) : M val :=
  match v with
  | VRef l =>
      o ← deref l;
      match o with
      | ODict d => mret (match dict_get d k with Some x => x | None => default end)
      | OList _ => raise AttributeError
      end
  | _ => raise AttributeError
  end.

(** [v[k]] for a string [k]. *)
Definition getitem (v : val) (k : str) : M val :=
  match v with
  | VRef l =>
      o ← deref l;
      match o with
      | ODict d =>
          match dict_get d k with Some x => mret x | None => raise KeyError end
      | OList _ => raise TypeError
      end
  | _ => raise TypeError
  end.

(** [v[k] = x] for a string [k]. *)
Definition setitem (v : val) (k : str) (x : val) : M unit :=
  match v with
  | VRef l =>
      o ← deref l;
      match o with
      | ODict d => store l (ODict (dict_set d k x))
      | OList _ => raise TypeError
      end
  | _ => raise TypeError
  end.

(** [v.append(x)] *)
Definition append (v : val) (x : val) : M unit :=
  match v with
  | VRef l =>
      o ← deref l;
      match o with
      | OList xs => store l (OList (xs ++ [x]))
      | ODict _ => raise AttributeError
      end
  | _ => raise AttributeError
  end.

(** [v.split(sep)]: only strings have it. *)
Definition split_method (v : val) (sep : char) : M (list str) :=
  match v with
  | VStr s => mret (split sep s)
  | _ => raise AttributeError
  end.

(** [len(v)] *)
Definition len (v : val) : M nat :=
  match v with
  | VStr s => mret (length s)
  | VRef l =>
      o ← deref l;
      match o with
      | ODict d => mret (length d)
      | OList xs => mret (length xs)
      end
  | _ => raise TypeError
  end.

(** The elements a [for] loop over [v] visits: the items of a list, the
    keys of a dictionary, the characters of a string. *)
Definition iter (v : val) : M (list val) :=
  match v with
  | VStr s => mret (map (λ c, VStr [c]) s)
  | VRef l =>
      o ← deref l;
      match o with
      | ODict d => mret (map (λ kv, VStr kv.1) d)
      | OList xs => mret xs
      end
  | _ => raise TypeError
  end.

(** [k in v] for a string [k]: key of a dictionary, element of a list,
    substring of a string. *)
Definition contains (k : str) (v : val) : M bool :=
  match v with
  | VStr s => mret (is_infix k s)
  | VRef l =>
      o ← deref l;
      match o with
      | ODict d => mret (dict_has d k)
      | OList xs =>
          mret (existsb (λ x, match x with
                              | VStr s => bool_decide (s = k)
                              | _ => false
                              end) xs)
      end
  | _ => raise TypeError
  end.

Definition print (x : line) : M unit := modify (add_line x).

(** [tqdm(total=t)]: a bar at zero; [pbar.update(k)]. *)
Definition tqdm_new (t : nat) : M unit := modify (set_pbar (Tqdm t 0)).
Definition pbar_update (k : nat) : M unit :=
  modify (λ w, set_pbar (Tqdm (tq_total (pbar w)) (tq_n (pbar w) + k)) w).

(** The document under a value, followed through at most [fuel]
    references; [None] when a reference is not in the store or the fuel
    runs out (a cycle). *)
Fixpoint read (fuel : nat) (h : list obj) (v : val) : option json :=
  match v with
  | VNone => Some JNull
  | VBool b => Some (JBool b)
  | VInt z => Some (JInt z)
  | VFloat f => Some (JFloat f)
  | VStr s => Some (JStr s)
  | VRef l =>
      match fuel with
      | 0 => None
      | S fuel' =>
          match h !! l with
          | None => None
          | Some (OList xs) => JArr <$> mapM (read fuel' h) xs
          | Some (ODict d) =>
              JObj <$> mapM (λ kv, pair kv.1 <$> read fuel' h kv.2) d
          end
      end
  end.

(** [with open(path, 'w') as f: json.dump(v, f, ...)]: the file is
    opened (and truncated) first; [json.dump] raises [ValueError] on a
    circular structure. A store with [k] objects has no acyclic chain of
    more than [k] references. *)
Definition json_dump (v : val) (path : str) : M unit := λ w,
  match read (length (heap w)) (heap w) v with
  | Some j => (Ok tt, add_file path (Some j) w)
  | None => (Raise ValueError, add_file path None w)
  end.

(** [json.load]: builds the objects of a document in the store. A
    repeated key of an object keeps its first position and its last
    value. *)
Fixpoint json_load (j : json) : M val :=
  match j with
  | JNull => mret VNone
  | JBool b => mret (VBool b)
  | JInt z => mret (VInt z)
  | JFloat f => mret (VFloat f)
  | JStr s => mret (VStr s)
  | JArr xs =>
      vs ← (fix load_items (xs : list json) : M (list val) :=
              match xs with
              | [] => mret []
              | x :: xs' =>
                  v ← json_load x; vs ← load_items xs'; mret (v :: vs)
              end) xs;
      alloc (OList vs)
  | JObj d =>
      kvs ← (fix load_fields (d : list (str * json)) : M dict :=
               match d with
               | [] => mret []
               | (k, x) :: d' =>
                   v ← json_load x; kvs ← load_fields d'; mret ((k, v) :: kvs)
               end) d;
      alloc (ODict (foldl (λ acc kv, dict_set acc kv.1 kv.2) [] kvs))
  end.

(** ** The translation backend

    [inference.engine.Model] is outside the pipeline; the pipeline only
    calls [model.batch_translate(sentences, src_lang, tgt_lang)]. The
    answer may depend on everything the backend was asked before (it is
    an object with state); [None] stands for a raised exception. *)
Record Model := {
  batch_translate :
    list call → list str → str → str → option (list str)
}.

Definition call_batch_translate (model : Model)
    (sentences : list str) (src_lang tgt_lang : str) : M (list str) := λ w,
  let r := batch_translate model (calls w) sentences src_lang tgt_lang in
  (match r with Some out => Ok out | None => Raise BackendError end,
   add_call (Call sentences src_lang tgt_lang r) w).

(** ** translate.py *)

Definition key_value : str := py "value".
Definition key_translated_value : str := py "translated_value".
Definition key_conversations : str := py "conversations".
Definition key_id : str := py "id".

(** The sentences of a message text:
    [[line.strip() for line in value.split('\n') if line.strip()]] *)
Definition sentences_of (lines : list str) : list str :=
  map strip (List.filter (λ line, str_truthy (strip line)) lines).

(** The body of the loop of [translate_conversation] (lines 53-72), for
    one [msg]; [progress_bar] tells whether a bar was passed. *)
Definition translate_conversation_body (model : Model)
    (src_lang tgt_lang : str) (progress_bar : bool)
    (translated_conversation : val) (msg : val) : M unit :=
  translated_msg ← copy_method msg;
  value ← get_method msg key_value VNone;
  has_value ← truthy value;
  (if (has_value : bool) then
     text ← getitem msg key_value;
     lines ← split_method text LF;
     let sentences := sentences_of lines in
     if 0 <? length sentences then
       translations ← call_batch_translate model sentences src_lang tgt_lang;
       setitem translated_msg key_translated_value
         (VStr (join [LF] translations))
     else
       setitem translated_msg key_translated_value (VStr [])
   else mret tt);;
  append translated_conversation translated_msg;;
  if progress_bar then pbar_update 1 else mret tt.

Definition translate_conversation (model : Model) (conversation : val)
    (src_lang tgt_lang : str) (progress_bar : bool) : M val :=
  translated_conversation ← alloc (OList []);
  msgs ← iter conversation;
  for_each msgs
    (translate_conversation_body model src_lang tgt_lang progress_bar
       translated_conversation);;
  mret translated_conversation.

(** [sum(len(item.get('conversations', [])) for item in data)] (line 94);
    the default [[]] is a new list at every item. *)
Fixpoint total_messages_of (items : list val) : M nat :=
  match items with
  | [] => mret 0
  | item :: rest =>
      default ← alloc (OList []);
      conv ← get_method item key_conversations default;
      k ← len conv;
      s ← total_messages_of rest;
      mret (k + s)
  end.

(** [if output_file_path: json.dump(...); print(...)]; the path is [None]
    or a string, and the empty string is false as well. *)
Definition save (data : val) (output_file_path : option str) : M unit :=
  match output_file_path with
  | Some path =>
      if str_truthy path then json_dump data path;; print (SavedTo path)
      else mret tt
  | None => mret tt
  end.

(** The body of the loop over the items of a list corpus (lines 99-110). *)
Definition process_item (model : Model) (src_lang tgt_lang : str)
    (all_translated : val) (conv_item : val) : M unit :=
  has ← contains key_conversations conv_item;
  if (has : bool) then
    conversation ← getitem conv_item key_conversations;
    translated_conv ←
      translate_conversation model conversation src_lang tgt_lang true;
    new_item ← copy_method conv_item;
    setitem new_item key_conversations translated_conv;;
    append all_translated new_item
  else
    id ← get_method conv_item key_id (VStr (py "unknown"));
    print (WarningNoConversations id);;
    append all_translated conv_item.

(** The branch of [process_file] for a list of conversations
    (lines 89-118). *)
Definition process_list (data : val) (model : Model)
    (output_file_path : option str) (src_lang tgt_lang : str) : M val :=
  k ← len data;
  print (ProcessingConversations k);;
  all_translated ← alloc (OList []);
  items ← iter data;
  total_messages ← total_messages_of items;
  tqdm_new total_messages;;
  conv_items ← iter data;
  for_each conv_items (process_item model src_lang tgt_lang all_translated);;
  save all_translated output_file_path;;
  mret all_translated.

(** The branch for a single conversation (lines 121-141). *)
Definition process_single (data : val) (model : Model)
    (output_file_path : option str) (src_lang tgt_lang : str) : M val :=
  id ← get_method data key_id (VStr (py "unknown"));
  print (ProcessingSingle id);;
  conversation ← getitem data key_conversations;
  total_messages ← len conversation;
  tqdm_new total_messages;;
  conversation ← getitem data key_conversations;
  translated_conv ←
    translate_conversation model conversation src_lang tgt_lang true;
  new_data ← copy_method data;
  setitem new_data key_conversations translated_conv;;
  save new_data output_file_path;;
  mret new_data.

(** [process_file] from the point where [load_json_data] has returned
    [data] and [initialize_model] has returned [model] (both leave the
    program with [sys.exit(1)] otherwise). The result is the returned
    value. *)
Definition process_file (data : val) (model : Model)
    (output_file_path : option str) (src_lang tgt_lang : str) : M val :=
  is_list ← isinstance_list data;
  if (is_list : bool) then
    process_list data model output_file_path src_lang tgt_lang
  else
    is_dict ← isinstance_dict data;
    has ← (if (is_dict : bool) then contains key_conversations data
           else mret false);
    if (has : bool) then
      process_single data model output_file_path src_lang tgt_lang
    else
      print UnsupportedFormat;;
      mret VNone.

(** [main] after argument parsing: runs [process_file] on the loaded
    document and drops what it returns. *)
Definition main (input : json) (model : Model) (output : option str)
    (src_lang tgt_lang : str) : M unit :=
  data ← json_load input;
  process_file data model output src_lang tgt_lang;;
  mret tt.

(** Exit status of the interpreter: 0 when [main] returns, 1 when an
    exception reaches the top level. *)
Definition exit_status {A} (r : result A) : Z :=
  match r with Ok _ => 0 | Raise _ => 1 end.

Definition empty_world : world := World [] (Tqdm 0 0) [] [] [].

(** ** Sample data *)

(** A backend that knows two words and gives every other sentence back. *)
Definition dictionary_model : Model :=
  {| batch_translate := λ _ sentences _ _,
       Some (map (λ s, if decide (s = py "Hello") then py "Namaste"
                       else if decide (s = py "World") then py "Duniya"
                       else s) sentences) |}.

(** A backend that always fails. *)
Definition failing_model : Model :=
  {| batch_translate := λ _ _ _ _, None |}.

Definition eng : str := py "eng_Latn".
Definition hin : str := py "hin_Deva".

(** [[{"id":"1","conversations":[{"from":"human","value":"Hello\nWorld"}]}]] *)
Definition example1 : json :=
  JArr [JObj [(py "id", JStr (py "1"));
              (py "conversations",
               JArr [JObj [(py "from", JStr (py "human"));
                           (py "value", JStr (py "Hello" ++ [LF] ++ py "World"))]])]].

(** A store with one message (at 0) and an empty output list (at 1). *)
Definition message_world (value : val) : world :=
  World [ODict [(py "from", VStr (py "human")); (py "value", value)];
         OList []]
        (Tqdm 1 0) [] [] [].

(** Text with blank lines only: a space, a line break, a tab. *)
Definition blank_text : list N := [32; 10; 9]%N.

(** ["  Hello \n\n\tWorld"]: two lines with surrounding white space and
    an empty line between them. *)
Definition padded_text : list N :=
  ([32; 32] ++ py "Hello" ++ [32; 10; 10; 9] ++ py "World")%N.

(** [[{"id":"x"}]]: a list corpus whose only item has no conversations. *)
Definition example3 : json := JArr [JObj [(py "id", JStr (py "x"))]].

(** A list corpus with an item without conversations, and an item with
    two messages, one with an empty text and one with a blank text. *)
Definition example_mixed : json :=
  JArr [JObj [(py "id", JStr (py "x"))];
        JObj [(py "conversations",
               JArr [JObj [(py "value", JStr [])];
                     JObj [(py "value", JStr blank_text)]])]].

(** [{"id":"1","conversations":[{"from":"human","value":"Hello\nWorld"}]}]:
    the conversation of [example1] on its own. *)
Definition example_single : json :=
  JObj [(py "id", JStr (py "1"));
        (py "conversations",
         JArr [JObj [(py "from", JStr (py "human"));
                     (py "value", JStr (py "Hello" ++ [LF] ++ py "World"))]])].

(** The world after [json.load] of a document, and the loaded value. *)
Definition loaded (j : json) : result val * world := json_load j empty_world.

Definition run_main j m o := main j m o eng hin empty_world.
Definition run_file j m o :=
  (data ← json_load j; process_file data m o eng hin) empty_world.


(** ** Notions used in the statements *)

(** [msg.get('value')] on the entries of a message. *)
Definition msg_value (d : dict) : val := default VNone (dict_get d key_value).

(** What the loop body of [translate_conversation] makes of the entries
    [d] of a message in the world [w]: the entries of the copy, and the
    backend calls made for it. *)
Inductive translated_as (model : Model) (src_lang tgt_lang : str)
    (w : world) (d : dict) : dict → list call → Prop :=
| tr_no_value :
    truthy (msg_value d) w = (Ok false, w) →
    translated_as model src_lang tgt_lang w d d []
| tr_blank s :
    dict_get d key_value = Some (VStr s) → s ≠ [] →
    sentences_of (split LF s) = [] →
    translated_as model src_lang tgt_lang w d
      (dict_set d key_translated_value (VStr [])) []
| tr_backend s out :
    dict_get d key_value = Some (VStr s) →
    sentences_of (split LF s) ≠ [] →
    batch_translate model (calls w) (sentences_of (split LF s))
      src_lang tgt_lang = Some out →
    translated_as model src_lang tgt_lang w d
      (dict_set d key_translated_value (VStr (join [LF] out)))
      [Call (sentences_of (split LF s)) src_lang tgt_lang (Some out)].

(** The world after the loop body has made the copy [d'] of a message
    and the backend calls [cs]. *)
Definition body_world (pb : bool) (lout : nat) (outs : list val)
    (d' : list (list N * val)) (cs : list call) (w : world) : world :=
  World (<[lout := OList (outs ++ [VRef (length (heap w))])]>
           (heap w ++ [ODict d']))
        (if pb then Tqdm (tq_total (pbar w)) (tq_n (pbar w) + 1) else pbar w)
        (calls w ++ cs) (stdout w) (files w).

(** The outcome of one successful run of the loop body of
    [translate_conversation]: the copy of the message is the next object
    of the store and the last element of the output list. *)
Definition body_post (model : Model) (src_lang tgt_lang : str) (pb : bool)
    (tc msg : val) (w w' : world) : Prop :=
  ∃ li d lout outs d' cs,
    msg = VRef li ∧ heap w !! li = Some (ODict d)
    ∧ tc = VRef lout ∧ heap w !! lout = Some (OList outs)
    ∧ translated_as model src_lang tgt_lang w d d' cs
    ∧ w' = World
             (<[lout := OList (outs ++ [VRef (length (heap w))])]>
                (heap w ++ [ODict d']))
             (if pb then Tqdm (tq_total (pbar w)) (tq_n (pbar w) + 1)
              else pbar w)
             (calls w ++ cs) (stdout w) (files w).

(** The store [h'] has everything the store [h] has, unchanged, except
    possibly the object at [lx]. *)
Definition heap_frame (lx : loc) (h h' : list obj) : Prop :=
  length h ≤ length h'
  ∧ ∀ l, l < length h → l ≠ lx → h' !! l = h !! l.

(** Nothing of [h] has changed in [h']. *)
Definition heap_extends (h h' : list obj) : Prop :=
  length h ≤ length h' ∧ ∀ l, l < length h → h' !! l = h !! l.

(** The backend calls made between [w] and [w'] when the computation
    ended with [r]: all succeeded, unless the computation ended with the
    backend's exception, in which case the failed call is the last thing
    it did. *)
Definition succeeded (c : call) : Prop := c_result c ≠ None.

Definition backend_trace {A} (w : world) (r : result A) (w' : world) : Prop :=
  ∃ cs, calls w' = calls w ++ cs ∧
    match exn_of r with
    | Some BackendError =>
        ∃ cs0 c, cs = cs0 ++ [c] ∧ Forall succeeded cs0 ∧ c_result c = None
    | _ => Forall succeeded cs
    end.

(** A store is closed when the references its objects hold point into
    it: the only stores Python has. *)
Definition val_in (h : list obj) (v : val) : Prop :=
  match v with VRef l => l < length h | _ => True end.

Definition obj_in (h : list obj) (o : obj) : Prop :=
  match o with
  | ODict d => Forall (λ kv, val_in h kv.2) d
  | OList xs => Forall (val_in h) xs
  end.

Definition closed (h : list obj) : Prop := Forall (obj_in h) h.

(** An input message [m] of the store [hb] the run started in, and the
    output message [o] made from it, in the store [h]: [o] is an object
    of its own, allocated after location [b], whose entries are those
    the loop body computes from the entries of [m] in the world [wi] in
    which the message was reached. *)
Definition msg_rel (model : Model) (src_lang tgt_lang : str)
    (hb : list obj) (b : nat) (h : list obj) (m o : val) : Prop :=
  ∃ li lo d d' wi cs,
    m = VRef li ∧ o = VRef lo
    ∧ hb !! li = Some (ODict d)
    ∧ b < lo ∧ h !! lo = Some (ODict d')
    ∧ heap_extends hb (heap wi)
    ∧ translated_as model src_lang tgt_lang wi d d' cs.

(** The outcome of a successful [translate_conversation] started in [w],
    in a run that began in [wb]: the returned list is the object
    allocated first, and holds one output message per element of the
    conversation, in the same order. *)
Definition conversation_post (model : Model) (src_lang tgt_lang : str)
    (pb : bool) (wb : world) (conv : val) (w : world) (v : val) (w' : world)
    : Prop :=
  ∃ msgs outs,
    iter conv wb = (Ok msgs, wb)
    ∧ v = VRef (length (heap w))
    ∧ heap w' !! length (heap w) = Some (OList outs)
    ∧ Forall2 (msg_rel model src_lang tgt_lang (heap wb) (length (heap w))
                 (heap w')) msgs outs
    ∧ pbar w' = (if pb then Tqdm (tq_total (pbar w))
                              (tq_n (pbar w) + length msgs)
                 else pbar w).

(** The number of messages line 94 counts for one item of a list
    corpus, in the world [wb] the run started in: the length of its
    conversations field, zero when it has none. *)
Definition item_count (wb : world) (item : val) (k : nat) : Prop :=
  ∃ li d,
    item = VRef li ∧ heap wb !! li = Some (ODict d)
    ∧ match dict_get d key_conversations with
      | None => k = 0
      | Some conv => len conv wb = (Ok k, wb)
      end.

(** An item of the corpus in [wb] and what the loop of [process_file]
    puts in the output for it, in the store [h] and with [lines]
    printed: an item without conversations is the very same value, and a
    warning with its id was printed; an item with conversations is a new
    object, allocated after location [b], with the entries of the item
    except that the conversations field is a new list of output
    messages. *)
Definition item_rel (model : Model) (src_lang tgt_lang : str)
    (wb : world) (b : nat) (h : list obj) (lines : list line)
    (item out : val) : Prop :=
  ∃ li d,
    item = VRef li ∧ heap wb !! li = Some (ODict d)
    ∧ match dict_get d key_conversations with
      | None =>
          out = item
          ∧ WarningNoConversations
              (default (VStr (py "unknown")) (dict_get d key_id)) ∈ lines
      | Some conv =>
          ∃ msgs lo lt outs,
            iter conv wb = (Ok msgs, wb)
            ∧ out = VRef lo ∧ b < lo ∧ b < lt
            ∧ h !! lo = Some (ODict (dict_set d key_conversations (VRef lt)))
            ∧ h !! lt = Some (OList outs)
            ∧ Forall2 (msg_rel model src_lang tgt_lang (heap wb) b h)
                msgs outs
      end.

(** What every part of the pipeline before the final [save] keeps to,
    whatever its outcome [r]: it writes to no object of the store it was
    started in except the one at [lx], only adds to what was printed,
    opens no file, and its backend calls are a [backend_trace]. *)
Definition step_rel {A} (lx : loc) (w : world) (r : result A) (w' : world)
    : Prop :=
  heap_frame lx (heap w) (heap w')
  ∧ stdout w `prefix_of` stdout w'
  ∧ files w' = files w
  ∧ backend_trace w r w'.

(** What a whole run of [process_file] keeps to, whatever its outcome:
    as [step_rel], except that files may have been opened, but not when
    the run ended with the backend's exception. *)
Definition run_rel {A} (lx : loc) (w : world) (r : result A) (w' : world)
    : Prop :=
  heap_frame lx (heap w) (heap w')
  ∧ stdout w `prefix_of` stdout w'
  ∧ files w `prefix_of` files w'
  ∧ (exn_of r = Some BackendError → files w' = files w)
  ∧ backend_trace w r w'.

(** The outcome of a successful [process_file] on a list corpus, started
    in [wb]: the returned list is the object allocated first and holds,
    in the order of the corpus, what [item_rel] says for each item; the
    progress bar stands at its total, the sum of the [item_count]s. *)
Definition list_post (model : Model) (src_lang tgt_lang : str)
    (wb : world) (data v : val) (w' : world) : Prop :=
  ∃ ld items outs ks,
    data = VRef ld ∧ heap wb !! ld = Some (OList items)
    ∧ v = VRef (length (heap wb))
    ∧ heap w' !! length (heap wb) = Some (OList outs)
    ∧ Forall2 (item_rel model src_lang tgt_lang wb (length (heap wb))
                 (heap w') (stdout w')) items outs
    ∧ Forall2 (item_count wb) items ks
    ∧ pbar w' = Tqdm (sum_list ks) (sum_list ks).

(** The same for a single conversation: the returned record is a new
    object with the entries of [data], except that the conversations
    field is a new list of output messages. *)
Definition single_post (model : Model) (src_lang tgt_lang : str)
    (wb : world) (data v : val) (w' : world) : Prop :=
  ∃ ld d conv msgs lo lt outs,
    data = VRef ld ∧ heap wb !! ld = Some (ODict d)
    ∧ dict_get d key_conversations = Some conv
    ∧ iter conv wb = (Ok msgs, wb)
    ∧ v = VRef lo ∧ length (heap wb) ≤ lt ∧ length (heap wb) ≤ lo
    ∧ heap w' !! lo = Some (ODict (dict_set d key_conversations (VRef lt)))
    ∧ heap w' !! lt = Some (OList outs)
    ∧ Forall2 (msg_rel model src_lang tgt_lang (heap wb) (length (heap wb))
                 (heap w')) msgs outs
    ∧ pbar w' = Tqdm (length msgs) (length msgs).

(** The shape of a loaded corpus in the words of the specification
    (section 4.1): an ordered sequence is a list of conversations, a
    mapping that has the conversations field is a single conversation,
    anything else is unsupported. [spec_classify] follows those words; it
    is compared with the tests [process_file] makes. *)
Inductive shape := ListShape | SingleShape | Unsupported.

Definition spec_classify (h : list obj) (data : val) : shape :=
  match data with
  | VRef l =>
      match h !! l with
      | Some (OList _) => ListShape
      | Some (ODict d) =>
          if dict_has d key_conversations then SingleShape else Unsupported
      | None => Unsupported
      end
  | _ => Unsupported
  end.

(** The entries [d'] agree with the entries [d] on every field but [k]. *)
Definition same_fields_except (k : list N) (d d' : list (list N * val))
    : Prop :=
  ∀ k', k' ≠ k → dict_get d' k' = dict_get d k'.

(** An input message of the store [hb] and an output message of the
    store [h] with the same fields, [translated_value] apart. *)
Definition msg_fields_kept (hb h : list obj) (m o : val) : Prop :=
  ∃ li lo d d',
    m = VRef li ∧ o = VRef lo
    ∧ hb !! li = Some (ODict d) ∧ h !! lo = Some (ODict d')
    ∧ same_fields_except key_translated_value d d'.

(** An input record of the world [wb] and an output record of the store
    [h] with the same fields, the conversations field apart, which in
    the output, if the input has it, is a list of messages that have
    kept their fields. *)
Definition item_fields_kept (wb : world) (h : list obj) (item out : val)
    : Prop :=
  ∃ li lo d d',
    item = VRef li ∧ out = VRef lo
    ∧ heap wb !! li = Some (ODict d) ∧ h !! lo = Some (ODict d')
    ∧ same_fields_except key_conversations d d'
    ∧ match dict_get d key_conversations with
      | None => dict_get d' key_conversations = None
      | Some conv =>
          ∃ msgs lt outs,
            iter conv wb = (Ok msgs, wb)
            ∧ dict_get d' key_conversations = Some (VRef lt)
            ∧ h !! lt = Some (OList outs)
            ∧ Forall2 (msg_fields_kept (heap wb) h) msgs outs
      end.

(** Where the output for an item of a list corpus lives, with respect
    to the store of [wb] the run started in: the output for an item
    without conversations is the item itself, an object of that store;
    the output for an item with conversations, its list of messages and
    every message in it are objects allocated during the run. *)
Definition item_fresh (wb : world) (h : list obj) (item out : val) : Prop :=
  ∃ li d,
    item = VRef li ∧ heap wb !! li = Some (ODict d)
    ∧ match dict_get d key_conversations with
      | None => out = item
      | Some _ =>
          ∃ lo lt outs,
            out = VRef lo ∧ length (heap wb) ≤ lo ∧ length (heap wb) ≤ lt
            ∧ h !! lo = Some (ODict (dict_set d key_conversations (VRef lt)))
            ∧ h !! lt = Some (OList outs)
            ∧ Forall (λ o, ∃ l, o = VRef l ∧ length (heap wb) ≤ l) outs
      end.

(** Well-formed input: a message is a dictionary whose text is a string,
    [None] or missing; an item is a dictionary whose conversations field,
    if it has one, is a list of messages. *)
Definition msg_ok (h : list obj) (m : val) : Prop :=
  ∃ li d,
    m = VRef li ∧ h !! li = Some (ODict d)
    ∧ match dict_get d key_value with
      | None | Some VNone | Some (VStr _) => True
      | _ => False
      end.

Definition item_ok (h : list obj) (item : val) : Prop :=
  ∃ li d,
    item = VRef li ∧ h !! li = Some (ODict d)
    ∧ match dict_get d key_conversations with
      | None => True
      | Some (VRef lc) =>
          ∃ msgs, h !! lc = Some (OList msgs) ∧ Forall (msg_ok h) msgs
      | Some _ => False
      end.

(** A backend that never raises. *)
Definition backend_total (model : Model) : Prop :=
  ∀ hist ss a b, batch_translate model hist ss a b ≠ None.

(** What the loops of [process_list] keep: the store the run started
    with, and a list at [la]. *)
Definition list_inv (hb : list obj) (la : nat) (w : world) : Prop :=
  heap_extends hb (heap w) ∧ ∃ outs, heap w !! la = Some (OList outs).

(** A value that [json.dump] can write: the document under it can be
    read with [n] steps through references. *)
Definition readable (n : nat) (h : list obj) (v : val) : Prop :=
  is_Some (read n h v).

(** An operation that only looks at the world, and that does not raise
    the backend's exception. *)
Definition reads {A} (m : M A) : Prop :=
  ∀ w r w', m w = (r, w') → w' = w ∧ exn_of r ≠ Some BackendError.

(** The part of [process_list] before the [save] step (lines 90-110),
    and the part of [process_single] before it (lines 122-133): what
    they return is what is saved and returned. *)
Definition translate_list (data : val) (model : Model)
    (src_lang tgt_lang : list N) : M val :=
  k ← len data;
  print (ProcessingConversations k);;
  all_translated ← alloc (OList []);
  items ← iter data;
  total_messages ← total_messages_of items;
  tqdm_new total_messages;;
  conv_items ← iter data;
  for_each conv_items (process_item model src_lang tgt_lang all_translated);;
  mret all_translated.

Definition translate_single (data : val) (model : Model)
    (src_lang tgt_lang : list N) : M val :=
  id ← get_method data key_id (VStr (py "unknown"));
  print (ProcessingSingle id);;
  conversation ← getitem data key_conversations;
  total_messages ← len conversation;
  tqdm_new total_messages;;
  conversation ← getitem data key_conversations;
  translated_conv ←
    translate_conversation model conversation src_lang tgt_lang true;
  new_data ← copy_method data;
  setitem new_data key_conversations translated_conv;;
  mret new_data.

(** A computation that does not raise [ValueError]. *)
Definition no_value_error {A} (m : M A) : Prop :=
  ∀ w r w', m w = (r, w') → exn_of r ≠ Some ValueError.

(** The sentences of a message: those of its text when it is a string,
    none otherwise. *)
Definition msg_sentences (d : list (list N * val)) : list (list N) :=
  match dict_get d key_value with
  | Some (VStr s) => sentences_of (split LF s)
  | _ => []
  end.

(** The backend calls made for one message [m] of the store [h]: none
    when it has no sentences, otherwise one successful call with its
    sentences and the language codes. *)
Definition msg_calls (src_lang tgt_lang : list N) (h : list obj)
    (m : val) (cs : list call) : Prop :=
  ∃ li d,
    m = VRef li ∧ h !! li = Some (ODict d)
    ∧ match msg_sentences d with
      | [] => cs = []
      | ss => ∃ out, cs = [Call ss src_lang tgt_lang (Some out)]
      end.

(** A value that is a dictionary of the store. *)
Definition is_dict (h : list obj) (v : val) : Prop :=
  ∃ l d, v = VRef l ∧ h !! l = Some (ODict d).

(** An input message of the store [hb] and an output message of the
    store [h] with the same field names in the same order, except that
    [translated_value] may have been added, last, when the input message
    does not have it. *)
Definition msg_order_kept (hb h : list obj) (m o : val) : Prop :=
  ∃ li lo d d',
    m = VRef li ∧ o = VRef lo
    ∧ hb !! li = Some (ODict d) ∧ h !! lo = Some (ODict d')
    ∧ (d'.*1 = d.*1
       ∨ dict_has d key_translated_value = false
         ∧ d'.*1 = d.*1 ++ [key_translated_value]).

(** An input record of the world [wb] and an output record of the store
    [h] with the same field names in the same order, whose messages, if
    it has the conversations field, have kept the order of theirs. *)
Definition item_order_kept (wb : world) (h : list obj) (item out : val)
    : Prop :=
  ∃ li lo d d',
    item = VRef li ∧ out = VRef lo
    ∧ heap wb !! li = Some (ODict d) ∧ h !! lo = Some (ODict d')
    ∧ d'.*1 = d.*1
    ∧ match dict_get d key_conversations with
      | None => True
      | Some conv =>
          ∃ msgs lt outs,
            iter conv wb = (Ok msgs, wb)
            ∧ dict_get d' key_conversations = Some (VRef lt)
            ∧ h !! lt = Some (OList outs)
            ∧ Forall2 (msg_order_kept (heap wb) h) msgs outs
      end.

(** What [json.load] leaves: a closed store that extends the one it
    started in, and a value in it that [json.dump] can write; nothing
    else of the world is touched. *)
Definition load_post (w : world) (v : val) (w' : world) : Prop :=
  heap_extends (heap w) (heap w') ∧ closed (heap w')
  ∧ readable (length (heap w')) (heap w') v
  ∧ w' = set_heap (heap w') w.

(** ** The translation of a document

    What the pipeline does, told on documents: the document under the
    value [process_file] returns, as a function of the document under
    the value it was given. [None] stands for a run that does not
    return a translated corpus. The functions follow the code line by
    line; the backend is asked as if it had not been called before (see
    [stateless]). *)

(** Field lookup and assignment on the fields of a JSON object, as
    [dict_get] and [dict_set] on the entries of a dictionary. *)
Fixpoint jobj_get (d : list (list N * json)) (k : list N) : option json :=
  match d with
  | [] => None
  | (k', v) :: d' => if decide (k' = k) then Some v else jobj_get d' k
  end.

Fixpoint jobj_set (d : list (list N * json)) (k : list N) (v : json)
    : list (list N * json) :=
  match d with
  | [] => [(k, v)]
  | (k', v') :: d' =>
      if decide (k' = k) then (k', v) :: d' else (k', v') :: jobj_set d' k v
  end.

(** [bool(v)] of the value loaded from a document. *)
Definition json_truthy (j : json) : bool :=
  match j with
  | JNull => false
  | JBool b => b
  | JInt z => negb (z =? 0)%Z
  | JFloat f => match f with S754_zero _ => false | _ => true end
  | JStr s => str_truthy s
  | JArr xs => match xs with [] => false | _ => true end
  | JObj d => match d with [] => false | _ => true end
  end.

(** Lines 53-68 on one message. *)
Definition doc_message (model : Model) (src_lang tgt_lang : list N)
    (m : json) : option json :=
  match m with
  | JObj d =>
      match jobj_get d key_value with
      | None => Some m
      | Some x =>
          if json_truthy x then
            match x with
            | JStr s =>
                match sentences_of (split LF s) with
                | [] => Some (JObj (jobj_set d key_translated_value (JStr [])))
                | ss =>
                    out ← batch_translate model [] ss src_lang tgt_lang;
                    Some (JObj (jobj_set d key_translated_value
                                  (JStr (join [LF] out))))
                end
            | _ => None
            end
          else Some m
      end
  | _ => None
  end.

(** [translate_conversation]: a list of messages; an empty string or an
    empty object has nothing to loop over and gives the empty list. *)
Definition doc_conversation (model : Model) (src_lang tgt_lang : list N)
    (c : json) : option json :=
  match c with
  | JArr ms => JArr <$> mapM (doc_message model src_lang tgt_lang) ms
  | JStr [] | JObj [] => Some (JArr [])
  | _ => None
  end.

(** Lines 99-110 on one item of a list corpus. *)
Definition doc_item (model : Model) (src_lang tgt_lang : list N)
    (item : json) : option json :=
  match item with
  | JObj d =>
      match jobj_get d key_conversations with
      | None => Some item
      | Some c =>
          c' ← doc_conversation model src_lang tgt_lang c;
          Some (JObj (jobj_set d key_conversations c'))
      end
  | _ => None
  end.

(** [process_file] on a corpus of one of the two supported shapes. *)
Definition doc_translate (model : Model) (src_lang tgt_lang : list N)
    (j : json) : option json :=
  match j with
  | JArr items => JArr <$> mapM (doc_item model src_lang tgt_lang) items
  | JObj d =>
      match jobj_get d key_conversations with
      | None => None
      | Some _ => doc_item model src_lang tgt_lang j
      end
  | _ => None
  end.

(** A backend whose answer does not depend on what it was asked
    before. *)
Definition stateless (model : Model) : Prop :=
  ∀ hist hist' ss a b,
    batch_translate model hist ss a b = batch_translate model hist' ss a b.

(** The entries [d] of a dictionary of the store [h] read, with [n]
    steps through references, as the fields [jd]. *)
Definition fields_read (n : nat) (h : list obj) (d : list (list N * val))
    (jd : list (list N * json)) : Prop :=
  Forall2 (λ kv kj, kj.1 = kv.1 ∧ read n h kv.2 = Some kj.2) d jd.

(** The document as [json.load] holds it: an object with a repeated key
    keeps the first position and the last value of the key. *)
Fixpoint json_norm (j : json) : json :=
  match j with
  | JArr xs => JArr (map json_norm xs)
  | JObj d =>
      JObj (foldl (λ acc kv, jobj_set acc kv.1 kv.2) []
              (map (λ kv, (kv.1, json_norm kv.2)) d))
  | _ => j
  end.

(** A well-formed corpus document: a list of records whose conversations
    field, if they have one, is a list of messages, or one such record
    that has the field; a message is an object whose text, if it has
    one, is a string or null. *)
Definition doc_msg_ok (m : json) : Prop :=
  match m with
  | JObj d =>
      match jobj_get d key_value with
      | None | Some JNull | Some (JStr _) => True
      | _ => False
      end
  | _ => False
  end.

Definition doc_item_ok (item : json) : Prop :=
  match item with
  | JObj d =>
      match jobj_get d key_conversations with
      | None => True
      | Some (JArr ms) => Forall doc_msg_ok ms
      | _ => False
      end
  | _ => False
  end.

Definition doc_corpus_ok (j : json) : Prop :=
  match j with
  | JArr items => Forall doc_item_ok items
  | JObj d => is_Some (jobj_get d key_conversations) ∧ doc_item_ok j
  | _ => False
  end.

(** * Properties *)

(** ** Strings *)

Lemma lstrip_head s c s' : lstrip s = c :: s' → isspace c = false.
Proof.
  induction s as [|a s IH]; simpl; [done|].
  destruct (isspace a) eqn:Ha; [done|]. intros [= -> ->]. done.
Qed.

Lemma lstrip_suffix s : ∃ p, s = p ++ lstrip s ∧ forallb isspace p = true.
Proof.
  induction s as [|a s [p [Hp Hs]]]; simpl.
  - by exists [].
  - destruct (isspace a) eqn:Ha.
    + exists (a :: p). simpl. rewrite Ha, Hs. split; [by f_equal|done].
    + by exists [].
Qed.

Lemma lstrip_fixed s :
  (∀ c s', s = c :: s' → isspace c = false) → lstrip s = s.
Proof.
  destruct s as [|c s]; [done|]. intros H. simpl.
  by rewrite (H c s eq_refl).
Qed.

(** The first character of a stripped string is not white space. *)
Lemma strip_head s c s' : strip s = c :: s' → isspace c = false.
Proof.
  unfold strip, rstrip. intros H.
  destruct (lstrip_suffix (rev (lstrip s))) as (p & Hp & _).
  apply (f_equal (@rev _)) in Hp. rewrite rev_involutive, rev_app_distr in Hp.
  rewrite H in Hp. apply (lstrip_head s c (s' ++ rev p)).
  by rewrite Hp.
Qed.

(** Neither is the last one. *)
Lemma strip_last s s' c : strip s = s' ++ [c] → isspace c = false.
Proof.
  unfold strip, rstrip. intros H.
  apply (f_equal (@rev _)) in H. rewrite rev_involutive, rev_app_distr in H.
  simpl in H. by eapply lstrip_head.
Qed.

Lemma strip_nonempty_ends s :
  strip s ≠ [] →
  ∃ a b t u, strip s = a :: t ∧ strip s = u ++ [b]
             ∧ isspace a = false ∧ isspace b = false.
Proof.
  intros H. destruct (strip s) as [|a t] eqn:E; [done|].
  destruct (exists_last (l := a :: t)) as (u & b & Hu); [done|].
  exists a, b, t, u. repeat split; [done| |].
  - by eapply strip_head.
  - eapply strip_last. by rewrite E, Hu.
Qed.

(** Stripping twice changes nothing more. *)
Lemma strip_idemp s : strip (strip s) = strip s.
Proof.
  destruct (strip s) as [|a t] eqn:E; [done|].
  assert (Hne : strip s ≠ []) by (by rewrite E).
  destruct (strip_nonempty_ends s Hne) as (a' & b & t' & u & H1 & H2 & Ha & Hb).
  rewrite E in H1, H2. injection H1 as <- <-.
  unfold strip at 1. rewrite (lstrip_fixed (a :: t)) by (by intros ?? [= <- <-]).
  unfold rstrip. rewrite H2, rev_app_distr. simpl. rewrite Hb. simpl.
  by rewrite rev_involutive.
Qed.

Lemma split_nonempty sep s : split sep s ≠ [].
Proof.
  destruct s as [|c s]; simpl; [done|].
  destruct (c =? sep)%N; [done|]. by destruct (split sep s).
Qed.

(** No field of a split contains the separator. *)
Lemma split_no_sep sep s : Forall (λ x, sep ∉ x) (split sep s).
Proof.
  induction s as [|c s IH]; simpl.
  - repeat constructor. by intros ?%elem_of_nil.
  - destruct (N.eqb_spec c sep) as [->|Hne].
    + constructor; [by intros ?%elem_of_nil | done].
    + destruct (split sep s) as [|l ls] eqn:E; [by apply split_nonempty in E|].
      inversion IH as [|?? Hl Hls]; subst. constructor; [|done].
      intros [->|?]%elem_of_cons; done.
Qed.

(** Joining fields and splitting again gives the fields back, when none
    of them contains the separator. *)
Lemma split_join sep xs :
  xs ≠ [] → Forall (λ x, sep ∉ x) xs → split sep (join [sep] xs) = xs.
Proof.
  assert (Hone : ∀ x, sep ∉ x → split sep x = [x]).
  { induction x as [|c x IH]; simpl; [done|]. intros Hc.
    destruct (N.eqb_spec c sep) as [->|Hne]; [by destruct Hc; left|].
    rewrite IH; [done|]. intros ?. apply Hc. by right. }
  assert (Happ : ∀ x r, sep ∉ x → split sep (x ++ sep :: r) = x :: split sep r).
  { induction x as [|c x IH]; simpl; intros r Hc.
    - by rewrite N.eqb_refl.
    - destruct (N.eqb_spec c sep) as [->|Hne]; [by destruct Hc; left|].
      rewrite IH; [done|]. intros ?. apply Hc. by right. }
  induction xs as [|x xs IH]; [done|]. intros _ Hall.
  inversion Hall as [|?? Hx Hxs]; subst.
  destruct xs as [|y ys]; simpl.
  - by apply Hone.
  - simpl in IH. rewrite Happ by done. f_equal. by apply IH.
Qed.

Lemma sentences_of_spec lines x :
  x ∈ sentences_of lines ↔ ∃ line, line ∈ lines ∧ strip line ≠ [] ∧ x = strip line.
Proof.
  unfold sentences_of. rewrite list_elem_of_In, in_map_iff. split.
  - intros (line & <- & [Hin Ht]%filter_In). exists line.
    rewrite list_elem_of_In. repeat split; [done|]. by destruct (strip line).
  - intros (line & Hin%list_elem_of_In & Hne & ->). exists line. split; [done|].
    apply filter_In. split; [done|]. by destruct (strip line).
Qed.

(** Every sentence handed on is non-empty, free of surrounding white
    space and of line separators. *)
Lemma sentences_of_trimmed s :
  Forall (λ x, x ≠ [] ∧ strip x = x ∧ (LF ∉ x)
               ∧ (∀ c t, x = c :: t → isspace c = false)
               ∧ (∀ c t, x = t ++ [c] → isspace c = false))
         (sentences_of (split LF s)).
Proof.
  apply list.Forall_forall. intros x (line & Hin & Hne & ->)%sentences_of_spec.
  repeat split; [done|apply strip_idemp| | |].
  - intros Hx.
    destruct (strip_nonempty_ends line Hne) as (a & b & t & u & H1 & _ & Ha & _).
    unfold strip, rstrip in Hx.
    apply list_elem_of_In, in_rev, list_elem_of_In in Hx.
    destruct (lstrip_suffix (rev (lstrip line))) as (p & Hp & _).
    destruct (lstrip_suffix line) as (q & Hq & _).
    pose proof (split_no_sep LF s) as Hall.
    rewrite list.Forall_forall in Hall. apply (Hall line Hin).
    rewrite Hq. apply elem_of_app. right.
    apply list_elem_of_In, in_rev, list_elem_of_In. rewrite Hp.
    apply elem_of_app. by right.
  - intros c t. apply strip_head.
  - intros c t. apply strip_last.
Qed.

(** ** Running computations *)

Lemma bind_inv {A B} (m : M A) (k : A → M B) w r w' :
  (m ≫= k) w = (r, w') →
  (∃ a w1, m w = (Ok a, w1) ∧ k a w1 = (r, w'))
  ∨ (∃ e, m w = (Raise e, w') ∧ r = Raise e).
Proof.
  unfold mbind, M_bind. destruct (m w) as [[a|e] w1]; [eauto|].
  intros [= <- <-]. eauto.
Qed.

Lemma bind_ok {A B} (m : M A) (k : A → M B) w a w1 :
  m w = (Ok a, w1) → (m ≫= k) w = k a w1.
Proof. unfold mbind, M_bind. by intros ->. Qed.

Lemma bind_raise {A B} (m : M A) (k : A → M B) w e w1 :
  m w = (Raise e, w1) → (m ≫= k) w = (Raise e, w1).
Proof. unfold mbind, M_bind. by intros ->. Qed.

Ltac mbind_inv H :=
  let a := fresh "a" in
  let w1 := fresh "w" in
  let e := fresh "e" in
  let E := fresh "E" in
  apply bind_inv in H as [(a & w1 & E & H)|(e & E & ->)].

Tactic Notation "mbind_inv_as" hyp(H) ident(a) ident(w1) ident(E) :=
  let e := fresh "e" in
  apply bind_inv in H as [(a & w1 & E & H)|(e & E & ->)].

Lemma reads_ret {A} (a : A) : reads (mret a).
Proof. by intros w r w' [= <- <-]. Qed.
Lemma reads_raise {A} e : e ≠ BackendError → reads (@raise A e).
Proof. intros He w r w' [= <- <-]. split; [done|]. by intros [= ?]. Qed.
Lemma reads_bind {A B} (m : M A) (k : A → M B) :
  reads m → (∀ a, reads (k a)) → reads (m ≫= k).
Proof.
  intros Hm Hk w r w' H. mbind_inv H.
  - apply Hm in E as [-> _]. by apply Hk in H.
  - by apply Hm in E as [-> ?].
Qed.
Lemma deref_reads l : reads (deref l).
Proof.
  intros w r w'. unfold deref. by destruct (heap w !! l); intros [= <- <-].
Qed.

Lemma reads_world {A} (m : M A) w r w' : reads m → m w = (r, w') → w' = w.
Proof. intros Hm H. by apply Hm in H as [-> _]. Qed.

Ltac reads_tac :=
  repeat first
    [ apply reads_ret | apply reads_raise; done | apply deref_reads
    | apply reads_bind; [|intros ?]
    | match goal with |- reads (match ?x with _ => _ end) => destruct x end ].

Lemma truthy_reads v : reads (truthy v).
Proof. destruct v; reads_tac. Qed.
Lemma isinstance_list_reads v : reads (isinstance_list v).
Proof. destruct v; reads_tac. Qed.
Lemma isinstance_dict_reads v : reads (isinstance_dict v).
Proof. destruct v; reads_tac. Qed.
Lemma get_method_reads v k x : reads (get_method v k x).
Proof. destruct v; reads_tac. Qed.
Lemma getitem_reads v k : reads (getitem v k).
Proof. destruct v; reads_tac. Qed.
Lemma split_method_reads v c : reads (split_method v c).
Proof. destruct v; reads_tac. Qed.
Lemma len_reads v : reads (len v).
Proof. destruct v; reads_tac. Qed.
Lemma iter_reads v : reads (iter v).
Proof. destruct v; reads_tac. Qed.
Lemma contains_reads k v : reads (contains k v).
Proof. destruct v; reads_tac. Qed.

(** What the operations on dictionaries need to succeed. *)
Lemma get_method_ok v k x w r w' :
  get_method v k x w = (Ok r, w') →
  ∃ l d, v = VRef l ∧ heap w !! l = Some (ODict d)
         ∧ r = default x (dict_get d k).
Proof.
  destruct v; try done. unfold get_method, deref, mbind, M_bind. simpl.
  destruct (heap w !! l) as [[d|xs]|] eqn:E; try done.
  intros [= <- <-]. eauto.
Qed.

Lemma getitem_ok v k w r w' :
  getitem v k w = (Ok r, w') →
  ∃ l d, v = VRef l ∧ heap w !! l = Some (ODict d) ∧ dict_get d k = Some r.
Proof.
  destruct v; try done. unfold getitem, deref, mbind, M_bind. simpl.
  destruct (heap w !! l) as [[d|xs]|] eqn:E; try done.
  destruct (dict_get d k) eqn:Ed; try done. intros [= <- <-]. eauto.
Qed.

Lemma contains_dict l d k w :
  heap w !! l = Some (ODict d) →
  contains k (VRef l) w = (Ok (dict_has d k), w).
Proof. intros H. unfold contains, deref, mbind, M_bind. simpl. by rewrite H. Qed.

Lemma copy_method_inv v w r w' :
  copy_method v w = (r, w') →
  (∃ l o, v = VRef l ∧ heap w !! l = Some o
          ∧ r = Ok (VRef (length (heap w)))
          ∧ w' = set_heap (heap w ++ [o]) w)
  ∨ (∃ e, r = Raise e ∧ e ≠ BackendError ∧ w' = w).
Proof.
  destruct v; try (unfold raise; simpl; intros [= <- <-]; right; by eauto 10).
  unfold copy_method, deref, alloc, mbind, M_bind. simpl.
  destruct (heap w !! l) as [o|] eqn:E; intros [= <- <-]; [left|right]; eauto 10.
Qed.

Lemma setitem_inv v k x w r w' :
  setitem v k x w = (r, w') →
  (∃ l d, v = VRef l ∧ heap w !! l = Some (ODict d) ∧ r = Ok tt
          ∧ w' = set_heap (<[l := ODict (dict_set d k x)]> (heap w)) w)
  ∨ (∃ e, r = Raise e ∧ e ≠ BackendError ∧ w' = w).
Proof.
  destruct v; try (unfold raise; simpl; intros [= <- <-]; right; by eauto 10).
  unfold setitem, deref, store, modify, mbind, M_bind. simpl.
  destruct (heap w !! l) as [[d|xs]|] eqn:E; intros [= <- <-];
    [left|right|right]; eauto 10.
Qed.

Lemma append_inv v x w r w' :
  append v x w = (r, w') →
  (∃ l xs, v = VRef l ∧ heap w !! l = Some (OList xs) ∧ r = Ok tt
           ∧ w' = set_heap (<[l := OList (xs ++ [x])]> (heap w)) w)
  ∨ (∃ e, r = Raise e ∧ e ≠ BackendError ∧ w' = w).
Proof.
  destruct v; try (unfold raise; simpl; intros [= <- <-]; right; by eauto 10).
  unfold append, deref, store, modify, mbind, M_bind. simpl.
  destruct (heap w !! l) as [[d|xs]|] eqn:E; intros [= <- <-];
    [right|left|right]; eauto 10.
Qed.

Lemma insert_snoc {A} (h : list A) (x y : A) :
  <[length h := y]> (h ++ [x]) = h ++ [y].
Proof.
  rewrite insert_app_r_alt by lia. by rewrite Nat.sub_diag.
Qed.

Lemma bind_ok_inv {A B} (m : M A) (k : A → M B) w b w' :
  (m ≫= k) w = (Ok b, w') →
  ∃ a w1, m w = (Ok a, w1) ∧ k a w1 = (Ok b, w').
Proof. intros [H|(e & _ & [=])]%bind_inv. done. Qed.

(** ** The store *)

Lemma heap_frame_refl lx h : heap_frame lx h h.
Proof. by split. Qed.

Lemma heap_frame_trans lx h1 h2 h3 :
  heap_frame lx h1 h2 → heap_frame lx h2 h3 → heap_frame lx h1 h3.
Proof.
  intros [L1 F1] [L2 F2]. split; [lia|]. intros l Hl Hne.
  rewrite F2 by (done || lia). by apply F1.
Qed.

Lemma heap_frame_alloc lx h h' o :
  heap_frame lx h h' → heap_frame lx h (h' ++ [o]).
Proof.
  intros [L F]. split; [rewrite length_app; lia|]. intros l Hl Hne.
  rewrite lookup_app_l by lia. by apply F.
Qed.

Lemma heap_frame_store lx h h' o :
  heap_frame lx h h' → heap_frame lx h (<[lx := o]> h').
Proof.
  intros [L F]. split; [by rewrite length_insert|]. intros l Hl Hne.
  rewrite list_lookup_insert_ne by done. by apply F.
Qed.

Lemma heap_frame_store_new lx h h' l o :
  length h ≤ l → heap_frame lx h h' → heap_frame lx h (<[l := o]> h').
Proof.
  intros Hl [L F]. split; [by rewrite length_insert|]. intros l' Hl' Hne.
  rewrite list_lookup_insert_ne by lia. by apply F.
Qed.

Lemma heap_extends_frame lx h h' : heap_extends h h' → heap_frame lx h h'.
Proof. intros [L F]. split; [done|]. intros. by apply F. Qed.

Lemma heap_frame_extends lx h h' :
  length h ≤ lx → heap_frame lx h h' → heap_extends h h'.
Proof. intros Hl [L F]. split; [done|]. intros. apply F; lia. Qed.

Lemma heap_extends_refl h : heap_extends h h.
Proof. by split. Qed.

Lemma heap_extends_trans h1 h2 h3 :
  heap_extends h1 h2 → heap_extends h2 h3 → heap_extends h1 h3.
Proof.
  intros [L1 F1] [L2 F2]. split; [lia|]. intros l Hl.
  rewrite F2 by lia. by apply F1.
Qed.

Lemma heap_extends_alloc h o : heap_extends h (h ++ [o]).
Proof.
  split; [rewrite length_app; lia|]. intros. by rewrite lookup_app_l.
Qed.

(** ** Backend calls *)

Lemma backend_trace_quiet {A} w (r : result A) :
  exn_of r ≠ Some BackendError → backend_trace w r w.
Proof.
  intros Hr. exists []. rewrite app_nil_r. split; [done|].
  destruct (exn_of r) as [[]|]; done || constructor.
Qed.

Lemma backend_trace_no_call {A} w (r : result A) w' :
  calls w' = calls w → exn_of r ≠ Some BackendError → backend_trace w r w'.
Proof.
  intros Hc Hr. exists []. rewrite app_nil_r. split; [done|].
  destruct (exn_of r) as [[]|]; done || constructor.
Qed.

Lemma backend_trace_bind {A B} w (a : A) w1 (r : result B) w' :
  backend_trace w (Ok a) w1 → backend_trace w1 r w' → backend_trace w r w'.
Proof.
  intros (cs1 & E1 & H1) (cs2 & E2 & H2). exists (cs1 ++ cs2).
  rewrite E2, E1, app_assoc. split; [done|]. simpl in H1.
  destruct (exn_of r) as [[]|]; try (by apply Forall_app).
  destruct H2 as (cs0 & c & -> & Hcs & Hc). exists (cs1 ++ cs0), c.
  rewrite app_assoc. split_and!; [done| |done]. by apply Forall_app.
Qed.

Lemma backend_trace_same_calls {A B} w (r : result A) w1 w' (r' : result B) :
  backend_trace w r w1 → calls w' = calls w1 →
  (exn_of r' = Some BackendError ↔ exn_of r = Some BackendError) →
  backend_trace w r' w'.
Proof.
  intros (cs & E & H) Hc [H1 H2]. exists cs. rewrite Hc. split; [done|].
  destruct (exn_of r') as [[]|], (exn_of r) as [[]|]; try done;
    try (by specialize (H1 eq_refl)); by specialize (H2 eq_refl).
Qed.

Lemma call_batch_translate_inv model ss src tgt w r w' :
  call_batch_translate model ss src tgt w = (r, w') →
  w' = add_call (Call ss src tgt (batch_translate model (calls w) ss src tgt)) w
  ∧ (r = match batch_translate model (calls w) ss src tgt with
         | Some out => Ok out
         | None => Raise BackendError
         end).
Proof. unfold call_batch_translate. by intros [= <- <-]. Qed.

Lemma call_batch_translate_trace model ss src tgt w r w' :
  call_batch_translate model ss src tgt w = (r, w') → backend_trace w r w'.
Proof.
  intros [-> ->]%call_batch_translate_inv.
  destruct (batch_translate model (calls w) ss src tgt) as [out|] eqn:E.
  - exists [Call ss src tgt (Some out)]. split; [done|].
    repeat constructor. done.
  - exists [Call ss src tgt None]. split; [done|].
    exists [], (Call ss src tgt None). by repeat split.
Qed.

(** ** The loop body of [translate_conversation] *)

Lemma truthy_str s w b w' :
  truthy (VStr s) w = (Ok b, w') → b = true → s ≠ [].
Proof. intros [= <- <-] Hs ->. done. Qed.

(** A false value stays false when looked at before the copy of the
    message was made. *)
Lemma truthy_false_before v w o w' :
  (∀ l, v = VRef l → o ≠ ODict [] ∧ o ≠ OList []) →
  truthy v (set_heap (heap w ++ [o]) w) = (Ok false, w') →
  truthy v w = (Ok false, w).
Proof.
  intros Ho. destruct v as [| | | | |l]; simpl; unfold mret, M_ret;
    try (intros H; injection H as ?; congruence).
  destruct (Ho l eq_refl) as [Ho1 Ho2].
  unfold deref, mbind, M_bind. simpl.
  destruct (decide (l < length (heap w))) as [Hl|Hl].
  - rewrite lookup_app_l by done.
    destruct (heap w !! l) as [[[|]|[|]]|]; simpl; intros H; by simplify_eq.
  - destruct (decide (l = length (heap w))) as [->|Hne].
    + rewrite list_lookup_middle by done.
      destruct o as [[|]|[|]]; simpl; intros H; by simplify_eq.
    + rewrite lookup_ge_None_2; [done|]. rewrite length_app. simpl. lia.
Qed.

Lemma body_ok model src tgt pb tc msg w w' :
  translate_conversation_body model src tgt pb tc msg w = (Ok tt, w') →
  body_post model src tgt pb tc msg w w'.
Proof.
  unfold translate_conversation_body. intros H.
  apply bind_ok_inv in H as (tm & w0 & Hcopy & H).
  apply copy_method_inv in Hcopy
    as [(li & o & -> & Hli & [= ->] & ->)|(? & [=] & _)].
  apply bind_ok_inv in H as (value & w1 & Hget & H).
  pose proof (get_method_reads _ _ _ _ _ _ Hget) as [-> _].
  apply get_method_ok in Hget as (li' & d & [= <-] & Hd & ->).
  simpl in Hd. rewrite lookup_app_l in Hd by (by eapply lookup_lt_Some).
  assert (o = ODict d) as -> by congruence.
  apply bind_ok_inv in H as (hv & w1 & Htruthy & H).
  pose proof (truthy_reads _ _ _ _ Htruthy) as [-> _].
  apply bind_ok_inv in H as ([] & w2 & Hif & H).
  apply bind_ok_inv in H as ([] & w3 & Happ & H).
  assert (∃ d' cs, translated_as model src tgt w d d' cs
            ∧ w2 = World (heap w ++ [ODict d']) (pbar w) (calls w ++ cs)
                     (stdout w) (files w)) as (d' & cs & Htr & ->).
  { destruct hv.
    - apply bind_ok_inv in Hif as (text & w4 & Hitem & Hif).
      pose proof (getitem_reads _ _ _ _ _ Hitem) as [-> _].
      apply getitem_ok in Hitem as (? & d0 & [= <-] & Hd0 & Htext).
      simpl in Hd0. rewrite lookup_app_l in Hd0 by (by eapply lookup_lt_Some).
      assert (d0 = d) as -> by congruence.
      apply bind_ok_inv in Hif as (lines & w4 & Hsplit & Hif).
      pose proof (split_method_reads _ _ _ _ _ Hsplit) as [-> _].
      destruct text as [| | | |s|]; try done. injection Hsplit as <-.
      unfold msg_value in Htruthy. rewrite Htext in Htruthy. simpl in Htruthy.
      assert (s ≠ []) by (by eapply truthy_str).
      destruct (0 <? length (sentences_of (split LF s))) eqn:Hlen.
      + apply bind_ok_inv in Hif as (out & w4 & Hcall & Hset).
        apply call_batch_translate_inv in Hcall as [-> Hout]. simpl in Hout.
        destruct (batch_translate _ _ _ _ _) as [out'|] eqn:Hbt; [|done].
        injection Hout as <-.
        apply setitem_inv in Hset
          as [(? & d1 & [= <-] & Hd1 & _ & ->)|(? & [=] & _)].
        simpl in Hd1. rewrite list_lookup_middle in Hd1 by done.
        injection Hd1 as <-. simpl. rewrite insert_snoc.
        eexists _, _. split; [|done]. eapply tr_backend; [done| |done].
        intros E. by rewrite E in Hlen.
      + apply setitem_inv in Hif
          as [(? & d1 & [= <-] & Hd1 & _ & ->)|(? & [=] & _)].
        simpl in Hd1. rewrite list_lookup_middle in Hd1 by done.
        injection Hd1 as <-. simpl. rewrite insert_snoc.
        eexists _, []. rewrite app_nil_r. split; [|done].
        eapply tr_blank; [done|done|].
        by destruct (sentences_of (split LF s)).
    - injection Hif as <-. exists d, []. rewrite app_nil_r.
      split; [|by destruct w]. apply tr_no_value.
      eapply (truthy_false_before _ _ (ODict d)); [|done].
      intros l Hl. split; [|done]. intros [= ->]. done. }
  apply append_inv in Happ
    as [(lout & outs & -> & Hout & _ & ->)|(? & [=] & _)].
  simpl in Hout.
  assert (lout < length (heap w)) as Hlt.
  { apply lookup_lt_Some in Hout as Hl. rewrite length_app in Hl. simpl in Hl.
    destruct (decide (lout = length (heap w))) as [->|]; [|lia].
    by rewrite list_lookup_middle in Hout. }
  rewrite lookup_app_l in Hout by done.
  exists li, d, lout, outs, d', cs. split_and!; try done.
  destruct pb; simpl in H; by injection H as <-.
Qed.

Lemma translate_block_inv model src tgt (hv : bool) li n w r w' :
  (if hv then
     text ← getitem (VRef li) key_value;
     lines ← split_method text LF;
     let sentences := sentences_of lines in
     if 0 <? length sentences then
       translations ← call_batch_translate model sentences src tgt;
       setitem (VRef n) key_translated_value (VStr (join [LF] translations))
     else
       setitem (VRef n) key_translated_value (VStr [])
   else mret tt) w = (r, w') →
  (heap w' = heap w ∨ ∃ o, heap w' = <[n := o]> (heap w))
  ∧ pbar w' = pbar w ∧ stdout w' = stdout w ∧ files w' = files w
  ∧ backend_trace w r w'.
Proof.
  destruct hv; [|intros [= <- <-]; split_and!; try done; [by left|];
                 by apply backend_trace_quiet].
  intros H. mbind_inv H;
    [|apply getitem_reads in E as [-> ?]; split_and!; try done; [by left|];
      by apply backend_trace_quiet].
  apply getitem_reads in E as [-> _]. mbind_inv H;
    [|apply split_method_reads in E as [-> ?]; split_and!; try done;
      [by left|]; by apply backend_trace_quiet].
  apply split_method_reads in E as [-> _]. cbv zeta in H.
  destruct (0 <? length (sentences_of a0)).
  - mbind_inv H.
    + pose proof (call_batch_translate_trace _ _ _ _ _ _ _ E) as Htr.
      apply call_batch_translate_inv in E as [-> _].
      apply setitem_inv in H as [(? & d & [= <-] & Hd & -> & ->)|(e & -> & ? & ->)];
        simpl; split_and!; try done; eauto.
      all: eapply backend_trace_same_calls; [exact Htr|done|naive_solver].
    + pose proof (call_batch_translate_trace _ _ _ _ _ _ _ E) as Htr.
      apply call_batch_translate_inv in E as [-> _].
      split_and!; try done. by left.
  - apply setitem_inv in H as [(? & d & [= <-] & Hd & -> & ->)|(e & -> & ? & ->)];
      simpl; split_and!; try done; eauto;
      apply backend_trace_no_call; simpl; congruence.
Qed.


(** Whatever the outcome of the loop body, it writes to nothing in the
    store but the output list and its own copy of the message, prints
    nothing and opens no file. *)
Lemma body_any model src tgt pb lout msg w r w' :
  translate_conversation_body model src tgt pb (VRef lout) msg w = (r, w') →
  heap_frame lout (heap w) (heap w')
  ∧ stdout w' = stdout w ∧ files w' = files w
  ∧ tq_total (pbar w') = tq_total (pbar w)
  ∧ backend_trace w r w'.
Proof.
  unfold translate_conversation_body. intros H.
  mbind_inv H.
  2:{ apply copy_method_inv in E as [(?&?&_&_&[=]&_)|(? & [= <-] & ? & ->)].
      split_and!; try done; try apply heap_frame_refl.
      apply backend_trace_no_call; simpl; congruence. }
  apply copy_method_inv in E as [(li & o & -> & Hli & [= ->] & ->)|(?&[=]&_)].
  assert (F0 : heap_frame lout (heap w) (heap w ++ [o]))
    by apply heap_frame_alloc, heap_frame_refl.
  mbind_inv H.
  2:{ apply get_method_reads in E as [-> ?]. split_and!; try done.
      by apply backend_trace_no_call. }
  apply get_method_reads in E as [-> _]. mbind_inv H.
  2:{ apply truthy_reads in E as [-> ?]. split_and!; try done.
      by apply backend_trace_no_call. }
  apply truthy_reads in E as [-> _]. mbind_inv_as H u w1 E1.
  2:{ apply translate_block_inv in E1 as (Hh & Hp & Hs & Hf & Htr).
      simpl in Hp, Hs, Hf.
      split_and!; try done; [|by rewrite Hp].
      destruct Hh as [->|[o' ->]]; [done|].
      by apply heap_frame_store_new. }
  apply translate_block_inv in E1 as (Hh & Hp & Hs & Hf & Htr).
  change (backend_trace w (Ok u) w1) in Htr.
  assert (F1 : heap_frame lout (heap w) (heap w1)).
  { destruct Hh as [->|[o' ->]]; [done|]. by apply heap_frame_store_new. }
  simpl in Hp, Hs, Hf. mbind_inv_as H u2 w2 E2.
  2:{ apply append_inv in E2 as [(?&?&_&_&[=]&_)|(? & [= <-] & ? & ->)].
      split_and!; try done; [by rewrite Hp|].
      eapply backend_trace_bind; [exact Htr|].
      apply backend_trace_no_call; simpl; congruence. }
  apply append_inv in E2 as [(? & outs & [= <-] & Hout & _ & ->)|(?&[=]&_)].
  assert (r = Ok tt ∧ stdout w' = stdout w1 ∧ files w' = files w1
          ∧ tq_total (pbar w') = tq_total (pbar w1)
          ∧ calls w' = calls w1
          ∧ heap w' = <[lout:=OList (outs ++ [VRef (length (heap w))])]> (heap w1))
    as (-> & Hs' & Hf' & Hp' & Hc' & Hh').
  { destruct pb; injection H as <- <-; done. }
  split_and!; try congruence.
  - rewrite Hh'. by apply heap_frame_store.
  - eapply backend_trace_same_calls; [exact Htr|done..].
Qed.

(** ** Loops *)

Lemma for_each_inv {A} (body : A → M unit)
    (I : list A → world → Prop) (Err : exn → world → Prop) xs :
  (∀ seen x w r w', x ∈ xs → I seen w → body x w = (r, w') →
     match r with Ok _ => I (seen ++ [x]) w' | Raise e => Err e w' end) →
  ∀ seen w r w', I seen w → for_each xs body w = (r, w') →
     match r with Ok _ => I (seen ++ xs) w' | Raise e => Err e w' end.
Proof.
  induction xs as [|x xs IH]; intros Hbody seen w r w' HI H.
  - injection H as <- <-. by rewrite app_nil_r.
  - simpl in H. mbind_inv_as H u w1 E.
    + pose proof (Hbody _ _ _ _ _ (list_elem_of_here _ _) HI E) as H1.
      simpl in H1.
      assert (Hbody' : ∀ seen y w r w', y ∈ xs → I seen w → body y w = (r, w') →
        match r with Ok _ => I (seen ++ [y]) w' | Raise e => Err e w' end).
      { intros ????? Hy. apply Hbody. by right. }
      specialize (IH Hbody' _ _ _ _ H1 H).
      by rewrite <- app_assoc in IH.
    + by specialize (Hbody _ _ _ _ _ (list_elem_of_here _ _) HI E).
Qed.

Lemma for_each_rel {A} (body : A → M unit)
    (R : world → result unit → world → Prop) xs :
  (∀ w, R w (Ok tt) w) →
  (∀ w w1 r w', R w (Ok tt) w1 → R w1 r w' → R w r w') →
  (∀ x w r w', x ∈ xs → body x w = (r, w') → R w r w') →
  ∀ w r w', for_each xs body w = (r, w') → R w r w'.
Proof.
  intros Hrefl Htrans. induction xs as [|x xs IH]; intros Hbody w r w' H.
  - injection H as <- <-. apply Hrefl.
  - simpl in H. mbind_inv_as H u w1 E.
    + destruct u. eapply Htrans.
      * eapply Hbody; [by left|done].
      * eapply IH; [|done]. intros ??????. eapply Hbody; [by right|done].
    + eapply Hbody; [by left|done].
Qed.

Lemma step_rel_refl {A} lx w (r : result A) :
  exn_of r ≠ Some BackendError → step_rel lx w r w.
Proof.
  intros Hr. split_and!; try done; try apply heap_frame_refl.
  by apply backend_trace_quiet.
Qed.

Lemma step_rel_trans {A B} lx w (a : A) w1 (r : result B) w' :
  step_rel lx w (Ok a) w1 → step_rel lx w1 r w' → step_rel lx w r w'.
Proof.
  intros (F1 & S1 & Fi1 & B1) (F2 & S2 & Fi2 & B2).
  split_and!; try congruence.
  - by eapply heap_frame_trans.
  - by etrans.
  - by eapply backend_trace_bind.
Qed.

Lemma step_rel_result {A B} lx w (r : result A) (r' : result B) w' :
  exn_of r' = exn_of r → step_rel lx w r w' → step_rel lx w r' w'.
Proof.
  intros Hr (F1 & S1 & Fi1 & B1). split_and!; try done.
  eapply backend_trace_same_calls; [exact B1|done|by rewrite Hr].
Qed.

(** A step that writes to nothing old is a step for every [lx]. *)
Lemma step_rel_weaken {A} lx ly w (r : result A) w' :
  length (heap w) ≤ lx → step_rel lx w r w' → step_rel ly w r w'.
Proof.
  intros Hl (F1 & S1 & Fi1 & B1). split_and!; try done.
  by eapply heap_extends_frame, heap_frame_extends.
Qed.

Lemma step_rel_reads {A} lx (m : M A) w r w' :
  reads m → m w = (r, w') → step_rel lx w r w'.
Proof. intros Hm [-> ?]%Hm. by apply step_rel_refl. Qed.

Lemma step_rel_bind {A B} lx (m : M A) (k : A → M B) w r w' :
  (∀ r1 w1, m w = (r1, w1) → step_rel lx w r1 w1) →
  (∀ a w1, m w = (Ok a, w1) → k a w1 = (r, w') → step_rel lx w1 r w') →
  (m ≫= k) w = (r, w') → step_rel lx w r w'.
Proof.
  intros Hm Hk H. mbind_inv_as H a w1 E.
  - eapply step_rel_trans; [by apply Hm|by eapply Hk].
  - eapply step_rel_result; [|by apply Hm]. done.
Qed.

Lemma for_each_step_rel {A} lx (body : A → M unit) xs :
  (∀ x w r w', x ∈ xs → body x w = (r, w') → step_rel lx w r w') →
  ∀ w r w', for_each xs body w = (r, w') → step_rel lx w r w'.
Proof.
  apply (for_each_rel body (λ w r w', step_rel lx w r w')).
  - intros w. by apply step_rel_refl.
  - intros w w1 r w'. apply step_rel_trans.
Qed.

(** ** [translate_conversation] *)

Lemma alloc_step_rel lx o w r w' :
  alloc o w = (r, w') → step_rel lx w r w'.
Proof.
  intros [= <- <-]. split_and!; try done.
  - apply heap_frame_alloc, heap_frame_refl.
  - by apply backend_trace_no_call.
Qed.

Lemma body_step_rel model src tgt pb lout msg w r w' :
  translate_conversation_body model src tgt pb (VRef lout) msg w = (r, w') →
  step_rel lout w r w'.
Proof.
  intros (F & S & Fi & T & B)%body_any. split_and!; try done.
  by rewrite S.
Qed.

(** Whatever its outcome, [translate_conversation] writes to nothing that
    was in the store. *)
Lemma translate_conversation_any model conv src tgt pb w r w' :
  translate_conversation model conv src tgt pb w = (r, w') →
  step_rel (length (heap w)) w r w'.
Proof.
  unfold translate_conversation.
  apply step_rel_bind; [intros ??; apply alloc_step_rel|].
  intros tc w0 [= <- <-].
  apply step_rel_bind; [intros ??; apply step_rel_reads, iter_reads|].
  intros msgs w1 _.
  apply step_rel_bind.
  - intros ??. apply for_each_step_rel. intros ??????.
    by eapply body_step_rel.
  - intros [] w2 _ [= <- <-]. by apply step_rel_refl.
Qed.

(** Reading through a reference of the store the run started in gives
    the same in every store that extends it. *)
Lemma deref_base hb (w wb : world) l o w' :
  heap wb = hb → heap_extends hb (heap w) → l < length hb →
  deref l w = (Ok o, w') → deref l wb = (Ok o, wb).
Proof.
  intros <- [_ F] Hl. unfold deref. rewrite F by done.
  destruct (heap wb !! l); by intros [= <- <-].
Qed.

Lemma iter_base (w wb : world) conv msgs w' :
  heap_extends (heap wb) (heap w) → val_in (heap wb) conv →
  iter conv w = (Ok msgs, w') → iter conv wb = (Ok msgs, wb).
Proof.
  intros Hext Hin. destruct conv as [| | | |s|l]; try done.
  - by intros [= <- <-].
  - simpl in Hin. unfold iter. intros H.
    apply bind_ok_inv in H as (o & w1 & Hd & H).
    erewrite bind_ok by (by eapply deref_base).
    by destruct o; injection H as <- <-.
Qed.

Lemma closed_lookup h l o : closed h → h !! l = Some o → obj_in h o.
Proof.
  intros Hc Hl. unfold closed in Hc. rewrite list.Forall_forall in Hc.
  apply Hc. by eapply list_elem_of_lookup_2.
Qed.

Lemma iter_valid wb conv msgs w' :
  closed (heap wb) → iter conv wb = (Ok msgs, w') →
  Forall (val_in (heap wb)) msgs.
Proof.
  intros Hc. destruct conv as [| | | |s|l]; try done.
  - intros [= <- <-]. apply list.Forall_forall.
    by intros ? (c & -> & _)%list_elem_of_fmap.
  - unfold iter. intros H. apply bind_ok_inv in H as (o & w1 & Hd & H).
    unfold deref in Hd. destruct (heap wb !! l) as [o'|] eqn:E; [|done].
    injection Hd as <- <-. pose proof (closed_lookup _ _ _ Hc E) as Ho.
    destruct o' as [d|xs]; injection H as <- <-; [|done].
    apply list.Forall_forall. by intros ? (c & -> & _)%list_elem_of_fmap.
Qed.

Lemma msg_rel_frame model src tgt hb b lx h h' m o :
  lx ≤ b → heap_frame lx h h' →
  msg_rel model src tgt hb b h m o → msg_rel model src tgt hb b h' m o.
Proof.
  intros Hb [L F]
    (li & lo & d & d' & wi & cs & -> & -> & Hd & Hlo & Hd' & Hext & Htr).
  exists li, lo, d, d', wi, cs. split_and!; try done.
  rewrite F; [done|by eapply lookup_lt_Some|lia].
Qed.

Lemma msg_rel_bound model src tgt hb b b' h m o :
  b' ≤ b →
  msg_rel model src tgt hb b h m o → msg_rel model src tgt hb b' h m o.
Proof.
  intros Hb (li & lo & d & d' & wi & cs & -> & -> & Hd & Hlo & Hd' & Hext & Htr).
  exists li, lo, d, d', wi, cs. split_and!; try done. lia.
Qed.

(** A successful [translate_conversation], in a run that started in the
    closed store of [wb] and has written to nothing of it so far. *)
Lemma translate_conversation_ok model conv src tgt pb wb w v w' :
  closed (heap wb) → heap_extends (heap wb) (heap w) →
  val_in (heap wb) conv →
  translate_conversation model conv src tgt pb w = (Ok v, w') →
  conversation_post model src tgt pb wb conv w v w'.
Proof.
  intros Hc Hext Hconv H. unfold translate_conversation in H.
  apply bind_ok_inv in H as (tc & w0 & [= <- <-] & H).
  set (n0 := length (heap w)) in *.
  set (w0 := set_heap (heap w ++ [OList []]) w) in *.
  assert (Hext0 : heap_extends (heap wb) (heap w0)).
  { eapply heap_extends_trans; [done|]. apply heap_extends_alloc. }
  apply bind_ok_inv in H as (msgs & w1 & Hiter & H).
  pose proof (iter_reads _ _ _ _ Hiter) as [-> _].
  apply (iter_base _ wb) in Hiter; [|done..].
  pose proof (iter_valid _ _ _ _ Hc Hiter) as Hvalid.
  apply bind_ok_inv in H as ([] & w2 & Hloop & [= <- <-]).
  pose (I := λ (seen : list val) (wi : world),
    heap_frame n0 (heap w0) (heap wi)
    ∧ (∃ outs, heap wi !! n0 = Some (OList outs)
         ∧ Forall2 (msg_rel model src tgt (heap wb) n0 (heap wi)) seen outs)
    ∧ pbar wi = (if pb then Tqdm (tq_total (pbar w))
                              (tq_n (pbar w) + length seen)
                 else pbar w)).
  assert (HI : I (@nil val ++ msgs) w2).
  { eapply (for_each_inv _ I (λ _ _, True) msgs) with (r := Ok tt);
      [|..|exact Hloop].
    - intros seen x wi r wi' Hx (HF & (outs & Hout & Hall) & Hp) Hbody.
      destruct r as [[]|]; [|done].
      pose proof (body_any _ _ _ _ _ _ _ _ _ Hbody) as (HF' & _).
      apply body_ok in Hbody
        as (li & d & ? & outs' & d' & cs & -> & Hli & [= <-] & Hout'
            & Htr & ->).
      assert (outs' = outs) as -> by congruence.
      assert (Hexti : heap_extends (heap wb) (heap wi)).
      { eapply heap_extends_trans; [exact Hext|].
        eapply (heap_frame_extends n0); [done|].
        eapply heap_frame_trans; [|exact HF].
        apply heap_frame_alloc, heap_frame_refl. }
      assert (Hn0 : n0 < length (heap wi)) by (by eapply lookup_lt_Some).
      rewrite list.Forall_forall in Hvalid.
      pose proof (Hvalid _ Hx) as Hli'. simpl in Hli'.
      split_and!.
      + by eapply heap_frame_trans.
      + simpl. eexists. split.
        * apply list_lookup_insert_eq. rewrite length_app. lia.
        * apply Forall2_app.
          -- eapply list.Forall2_impl; [exact Hall|]. intros m o.
             apply (msg_rel_frame _ _ _ _ n0 n0); [done|exact HF'].
          -- constructor; [|constructor].
             exists li, (length (heap wi)), d, d', wi, cs.
             split_and!; try done.
             ++ destruct Hexti as [_ F]. by rewrite <- F.
             ++ rewrite list_lookup_insert_ne by lia.
                by rewrite list_lookup_middle.
      + simpl. rewrite Hp, length_app. simpl.
        destruct pb; simpl; [f_equal; lia|done].
    - split_and!; [apply heap_frame_refl| |].
      + exists []. split; [|constructor]. unfold w0, n0. simpl.
        by rewrite list_lookup_middle.
      + simpl. destruct pb; [|done]. rewrite Nat.add_0_r. by destruct (pbar w). }
  destruct HI as (HF & (outs & Hout & Hall) & Hp).
  exists msgs, outs. split_and!; done.
Qed.

(** ** [process_file]: the loop over the items *)

Lemma dict_has_get d k :
  dict_has d k = match dict_get d k with Some _ => true | None => false end.
Proof. done. Qed.

Lemma len_iter conv w msgs w' :
  iter conv w = (Ok msgs, w') → len conv w = (Ok (length msgs), w).
Proof.
  destruct conv as [| | | |s|l]; try done.
  - intros [= <- <-]. simpl. by rewrite length_map.
  - unfold iter, len. intros H. apply bind_ok_inv in H as (o & w1 & Hd & H).
    pose proof (deref_reads _ _ _ _ Hd) as [-> _].
    rewrite (bind_ok _ _ _ _ _ Hd).
    destruct o; injection H as <- <-; [by rewrite length_map|done].
Qed.

Lemma print_step_rel lx x w r w' : print x w = (r, w') → step_rel lx w r w'.
Proof.
  intros [= <- <-]. split_and!; try done; try apply heap_frame_refl.
  - by apply prefix_app_r.
  - by apply backend_trace_no_call.
Qed.

Lemma append_step_rel la x w r w' :
  append (VRef la) x w = (r, w') → step_rel la w r w'.
Proof.
  intros [(? & xs & [= <-] & Hl & -> & ->)|(e & -> & He & ->)]%append_inv.
  - split_and!; try done.
    + by apply heap_frame_store, heap_frame_refl.
    + by apply backend_trace_no_call.
  - apply step_rel_refl. simpl. congruence.
Qed.

Lemma step_rel_no_backend {A B} lx w (r : result A) (r' : result B) w' :
  exn_of r ≠ Some BackendError → exn_of r' ≠ Some BackendError →
  step_rel lx w r w' → step_rel lx w r' w'.
Proof.
  intros Hr Hr' (F1 & S1 & Fi1 & B1). split_and!; try done.
  eapply backend_trace_same_calls; [exact B1|done|]. by split.
Qed.

(** The end of the loop body for an item with conversations: copy the
    item, replace the field in the copy, append the copy. *)
Lemma new_item_step_rel la item k x w r w' :
  (new_item ← copy_method item;
   setitem new_item k x;; append (VRef la) new_item) w = (r, w') →
  step_rel la w r w'.
Proof.
  intros H. mbind_inv_as H new w1 E1.
  2:{ apply copy_method_inv in E1 as [(?&?&_&_&[=]&_)|(? & [= <-] & ? & ->)].
      apply step_rel_refl. simpl. congruence. }
  apply copy_method_inv in E1 as [(li & o & -> & Hli & [= ->] & ->)|(?&[=]&_)].
  assert (S1 : ∀ o', step_rel la w (Ok tt) (set_heap (heap w ++ [o']) w)).
  { intros o'. split_and!; try done.
    - apply heap_frame_alloc, heap_frame_refl.
    - by apply backend_trace_no_call. }
  mbind_inv_as H u w2 E2.
  2:{ apply setitem_inv in E2
        as [(?&?&_&_&[=]&_)|(? & [= <-] & ? & ->)].
      eapply step_rel_no_backend; [| |apply (S1 o)]; simpl; congruence. }
  apply setitem_inv in E2 as [(? & d & [= <-] & Hd & _ & ->)|(?&[=]&_)].
  simpl in H. rewrite insert_snoc in H.
  eapply step_rel_trans; [apply (S1 (ODict (dict_set d k x)))|].
  by apply append_step_rel in H.
Qed.

(** Whatever its outcome, the loop body for an item writes to nothing in
    the store but the output list (and what it has allocated itself). *)
Lemma process_item_any model src tgt la item w r w' :
  process_item model src tgt (VRef la) item w = (r, w') →
  step_rel la w r w'.
Proof.
  unfold process_item.
  apply step_rel_bind; [intros ??; apply step_rel_reads, contains_reads|].
  intros [] w1 _.
  - apply step_rel_bind; [intros ??; apply step_rel_reads, getitem_reads|].
    intros conv w2 _.
    apply step_rel_bind; [|intros ?? _; apply new_item_step_rel].
    intros r1 w3 H%translate_conversation_any.
    eapply step_rel_weaken; [|exact H]. done.
  - apply step_rel_bind; [intros ??; apply step_rel_reads, get_method_reads|].
    intros id w2 _.
    apply step_rel_bind; [intros ??; apply print_step_rel|].
    intros [] w3 _. apply append_step_rel.
Qed.

Lemma msg_rels_frame model src tgt hb b lx h h' msgs outs :
  lx ≤ b → heap_frame lx h h' →
  Forall2 (msg_rel model src tgt hb b h) msgs outs →
  Forall2 (msg_rel model src tgt hb b h') msgs outs.
Proof.
  intros Hb HF H. eapply list.Forall2_impl; [exact H|]. intros m o.
  by apply (msg_rel_frame _ _ _ _ b lx).
Qed.

Lemma msg_rels_bound model src tgt hb b b' h msgs outs :
  b' ≤ b →
  Forall2 (msg_rel model src tgt hb b h) msgs outs →
  Forall2 (msg_rel model src tgt hb b' h) msgs outs.
Proof.
  intros Hb H. eapply list.Forall2_impl; [exact H|]. intros m o.
  by apply msg_rel_bound.
Qed.

(** A successful run of the loop body for one item, in a run that
    started in the closed store of [wb]. *)
Lemma process_item_ok model src tgt wb la outs item w w' :
  closed (heap wb) → heap_extends (heap wb) (heap w) →
  val_in (heap wb) item →
  heap w !! la = Some (OList outs) →
  process_item model src tgt (VRef la) item w = (Ok tt, w') →
  ∃ out k,
    heap w' !! la = Some (OList (outs ++ [out]))
    ∧ item_rel model src tgt wb la (heap w') (stdout w') item out
    ∧ item_count wb item k
    ∧ (pbar w' = Tqdm (tq_total (pbar w)) (tq_n (pbar w) + k)).
Proof.
  intros Hc Hext Hitem Hla H. unfold process_item in H.
  apply bind_ok_inv in H as (has & w1 & Hhas & H).
  pose proof (contains_reads _ _ _ _ _ Hhas) as [-> _].
  destruct has.
  - apply bind_ok_inv in H as (conv & w1 & Hget & H).
    pose proof (getitem_reads _ _ _ _ _ Hget) as [-> _].
    apply getitem_ok in Hget as (li & d & -> & Hd & Hconv).
    simpl in Hitem. destruct Hext as [L F]. rewrite F in Hd by done.
    pose proof (closed_lookup _ _ _ Hc Hd) as Hobj. simpl in Hobj.
    assert (Hcv : val_in (heap wb) conv).
    { clear -Hobj Hconv. induction Hobj as [|[k v] d Hv Hd IH]; [done|].
      simpl in Hconv. destruct (decide (k = key_conversations)); [|by apply IH].
      by injection Hconv as <-. }
    apply bind_ok_inv in H as (tc & w1 & Htc & H).
    pose proof (translate_conversation_any _ _ _ _ _ _ _ _ Htc)
      as (F1 & S1 & Fi1 & B1).
    apply heap_frame_extends in F1 as [L1 F1]; [|done].
    apply (translate_conversation_ok _ _ _ _ _ wb) in Htc; [|done..].
    destruct Htc as (msgs & mouts & Hiter & -> & Hlt & Hall & Hp).
    apply bind_ok_inv in H as (new & w2 & Hcopy & H).
    apply copy_method_inv in Hcopy
      as [(? & o & [= <-] & Hli & [= ->] & ->)|(? & [=] & _)].
    rewrite F1, F in Hli by lia. assert (o = ODict d) as -> by congruence.
    apply bind_ok_inv in H as ([] & w3 & Hset & H).
    apply setitem_inv in Hset
      as [(? & d0 & [= <-] & Hd0 & _ & ->)|(? & [=] & _)].
    simpl in Hd0. rewrite list_lookup_middle in Hd0 by done.
    injection Hd0 as <-.
    apply append_inv in H
      as [(? & outs' & [= <-] & Hla' & _ & ->)|(? & [=] & _)].
    simpl in Hla'. rewrite insert_snoc in Hla'.
    pose proof (lookup_lt_Some _ _ _ Hla) as Hlt_la.
    rewrite lookup_app_l, F1 in Hla' by lia.
    assert (outs' = outs) as -> by congruence.
    exists (VRef (length (heap w1))), (length msgs). simpl.
    rewrite insert_snoc. split_and!.
    + apply list_lookup_insert_eq. rewrite length_app. lia.
    + exists li, d. split_and!; try done. rewrite Hconv.
      exists msgs, (length (heap w1)), (length (heap w)), mouts.
      split_and!; try done; try lia.
      * rewrite list_lookup_insert_ne by lia. by rewrite list_lookup_middle.
      * rewrite list_lookup_insert_ne by lia.
        rewrite lookup_app_l by (by eapply lookup_lt_Some). done.
      * eapply (msg_rels_frame _ _ _ _ la la); [done| |].
        -- apply heap_frame_store, heap_frame_alloc, heap_frame_refl.
        -- eapply msg_rels_bound; [|exact Hall]. lia.
    + exists li, d. split_and!; try done. rewrite Hconv.
      by eapply len_iter.
    + done.
  - apply bind_ok_inv in H as (id & w1 & Hget & H).
    pose proof (get_method_reads _ _ _ _ _ _ Hget) as [-> _].
    apply get_method_ok in Hget as (li & d & -> & Hd & ->).
    rewrite (contains_dict _ _ _ _ Hd) in Hhas. injection Hhas as Hhas.
    rewrite dict_has_get in Hhas.
    destruct (dict_get d key_conversations) eqn:Hconv; [done|].
    simpl in Hitem. destruct Hext as [L F]. rewrite F in Hd by done.
    apply bind_ok_inv in H as ([] & w1 & [= <-] & H).
    apply append_inv in H
      as [(? & outs' & [= <-] & Hla' & _ & ->)|(? & [=] & _)].
    simpl in Hla'. assert (outs' = outs) as -> by congruence.
    exists (VRef li), 0. simpl. split_and!.
    + apply list_lookup_insert_eq. by eapply lookup_lt_Some.
    + exists li, d. split_and!; try done. rewrite Hconv. split; [done|].
      apply elem_of_app. right. by left.
    + exists li, d. split_and!; try done. by rewrite Hconv.
    + rewrite Nat.add_0_r. by destruct (pbar w).
Qed.

(** ** [process_file] *)

Lemma len_base (w wb : world) v k w' :
  heap_extends (heap wb) (heap w) → val_in (heap wb) v →
  len v w = (Ok k, w') → len v wb = (Ok k, wb).
Proof.
  intros Hext Hin. destruct v as [| | | |s|l]; try done.
  - by intros [= <- <-].
  - simpl in Hin. unfold len. intros H.
    apply bind_ok_inv in H as (o & w1 & Hd & H).
    erewrite bind_ok by (by eapply deref_base).
    by destruct o; injection H as <- <-.
Qed.

Lemma dict_get_valid h d k v :
  Forall (λ kv, val_in h kv.2) d → dict_get d k = Some v → val_in h v.
Proof.
  induction 1 as [|[k' v'] d Hv Hd IH]; [done|]. simpl.
  destruct (decide (k' = k)); [|done]. by intros [= <-].
Qed.

Lemma total_messages_of_any lx items w r w' :
  total_messages_of items w = (r, w') → step_rel lx w r w'.
Proof.
  revert w r w'. induction items as [|item items IH]; intros w r w'.
  - intros [= <- <-]. by apply step_rel_refl.
  - simpl.
    apply step_rel_bind; [intros ??; apply alloc_step_rel|]. intros d w1 _.
    apply step_rel_bind; [intros ??; apply step_rel_reads, get_method_reads|].
    intros c w2 _.
    apply step_rel_bind; [intros ??; apply step_rel_reads, len_reads|].
    intros k w3 _.
    apply step_rel_bind; [intros ??; apply IH|].
    intros s w4 _ [= <- <-]. by apply step_rel_refl.
Qed.

Lemma total_messages_of_ok wb items w t w' :
  closed (heap wb) → heap_extends (heap wb) (heap w) →
  Forall (val_in (heap wb)) items →
  total_messages_of items w = (Ok t, w') →
  ∃ ks, Forall2 (item_count wb) items ks ∧ t = sum_list ks.
Proof.
  intros Hc. revert w t w'.
  induction items as [|item items IH]; intros w t w' Hext Hitems H.
  - injection H as <- <-. exists []. by split; [constructor|].
  - inversion Hitems as [|?? Hitem Hitems']; subst. simpl in H.
    apply bind_ok_inv in H as (dflt & w1 & [= <- <-] & H).
    apply bind_ok_inv in H as (c & w1 & Hget & H).
    pose proof (get_method_reads _ _ _ _ _ _ Hget) as [-> _].
    apply get_method_ok in Hget as (li & d & -> & Hd & ->).
    simpl in Hitem, Hd. destruct Hext as [L F].
    rewrite lookup_app_l, F in Hd by lia.
    apply bind_ok_inv in H as (k & w1 & Hlen & H).
    pose proof (len_reads _ _ _ _ Hlen) as [-> _].
    apply bind_ok_inv in H as (s & w1 & Hrest & [= <- <-]).
    assert (Hext1 : heap_extends (heap wb) (heap w ++ [OList []])).
    { eapply heap_extends_trans; [by split|]. apply heap_extends_alloc. }
    apply IH in Hrest as (ks & Hks & ->); [|done..].
    exists (k :: ks). split; [|done]. constructor; [|done].
    exists li, d. split_and!; try done.
    destruct (dict_get d key_conversations) as [conv|] eqn:Hconv; simpl in Hlen.
    + eapply (len_base (set_heap (heap w ++ [OList []]) w)); [exact Hext1| |exact Hlen].
      eapply dict_get_valid; [|done]. by eapply (closed_lookup _ _ (ODict d)).
    + unfold len, deref, mbind, M_bind in Hlen. simpl in Hlen.
      rewrite list_lookup_middle in Hlen by done. by injection Hlen as <-.
Qed.

Lemma item_count_fun wb item k k' :
  item_count wb item k → item_count wb item k' → k = k'.
Proof.
  intros (li & d & -> & Hd & H) (? & d' & [= <-] & Hd' & H').
  assert (d' = d) as -> by congruence.
  destruct (dict_get d key_conversations); congruence.
Qed.

Lemma item_counts_fun wb items ks ks' :
  Forall2 (item_count wb) items ks → Forall2 (item_count wb) items ks' →
  ks = ks'.
Proof.
  intros H. revert ks'. induction H as [|x k xs ks Hk Hks IH]; intros ks' H'.
  - by inversion H'.
  - inversion H' as [|?? ?? Hk' Hks']; subst. f_equal; [|by apply IH].
    by eapply item_count_fun.
Qed.

Lemma item_rel_mono model src tgt wb b lx h h' lines lines' item out :
  lx ≤ b → heap_frame lx h h' → lines `prefix_of` lines' →
  item_rel model src tgt wb b h lines item out →
  item_rel model src tgt wb b h' lines' item out.
Proof.
  intros Hb HF [t ->] (li & d & -> & Hd & H). exists li, d.
  split_and!; try done.
  destruct (dict_get d key_conversations) as [conv|].
  - destruct H as (msgs & lo & lt & outs & Hit & -> & Hlo & Hlt & Ho & Ht & Hall).
    exists msgs, lo, lt, outs. destruct HF as [L F]. split_and!; try done.
    + rewrite F; [done|by eapply lookup_lt_Some|lia].
    + rewrite F; [done|by eapply lookup_lt_Some|lia].
    + by eapply msg_rels_frame.
  - destruct H as [-> Hw]. split; [done|]. apply elem_of_app. by left.
Qed.

Lemma heap_extends_frame_trans hb lx h h' :
  length hb ≤ lx → heap_extends hb h → heap_frame lx h h' →
  heap_extends hb h'.
Proof.
  intros Hl [L1 F1] [L2 F2]. split; [lia|]. intros l Hlt.
  rewrite F2 by lia. by apply F1.
Qed.

Lemma step_rel_run {A} lx w (r : result A) w' :
  step_rel lx w r w' → run_rel lx w r w'.
Proof. intros (F & S & Fi & B). split_and!; try done. by rewrite Fi. Qed.

Lemma run_rel_bind {A B} lx (m : M A) (k : A → M B) w r w' :
  (∀ r1 w1, m w = (r1, w1) → step_rel lx w r1 w1) →
  (∀ a w1, m w = (Ok a, w1) → k a w1 = (r, w') → run_rel lx w1 r w') →
  (m ≫= k) w = (r, w') → run_rel lx w r w'.
Proof.
  intros Hm Hk H. mbind_inv_as H a w1 E.
  - destruct (Hm _ _ E) as (F1 & S1 & Fi1 & B1).
    destruct (Hk _ _ E H) as (F2 & S2 & Fi2 & Fb & B2).
    split_and!.
    + by eapply heap_frame_trans.
    + by etrans.
    + by rewrite <- Fi1.
    + intros Hr. rewrite (Fb Hr). done.
    + by eapply backend_trace_bind.
  - apply step_rel_run. eapply step_rel_result; [|by apply Hm]. done.
Qed.

Lemma tqdm_new_step_rel lx t w r w' :
  tqdm_new t w = (r, w') → step_rel lx w r w'.
Proof.
  intros [= <- <-]. split_and!; try done; try apply heap_frame_refl.
  by apply backend_trace_no_call.
Qed.

Lemma save_inv v path w r w' :
  save v path w = (r, w') →
  heap w' = heap w ∧ pbar w' = pbar w ∧ calls w' = calls w
  ∧ stdout w `prefix_of` stdout w' ∧ files w `prefix_of` files w'
  ∧ exn_of r ≠ Some BackendError
  ∧ (r = Ok tt →
     match path with
     | Some p =>
         if str_truthy p
         then ∃ j, read (length (heap w)) (heap w) v = Some j
                   ∧ files w' = files w ++ [(p, Some j)]
         else files w' = files w
     | None => files w' = files w
     end).
Proof.
  unfold save. destruct path as [p|]; [|by intros [= <- <-]].
  destruct (str_truthy p); [|by intros [= <- <-]].
  unfold json_dump, print, modify, mbind, M_bind.
  destruct (read _ _ _) as [j|]; intros [= <- <-]; simpl;
    split_and!; try done; try (by apply prefix_app_r); eauto.
Qed.

Lemma save_run_rel lx v path w r w' :
  save v path w = (r, w') → run_rel lx w r w'.
Proof.
  intros (Hh & Hp & Hc & Hs & Hf & Hr & _)%save_inv. split_and!; try done.
  - rewrite Hh. apply heap_frame_refl.
  - by apply backend_trace_no_call.
Qed.

(** [new ← v.copy(); new[k] = x], and then the rest. *)
Lemma copy_setitem_inv {A} v k x (rest : val → M A) w r w' :
  (new ← copy_method v; setitem new k x;; rest new) w = (r, w') →
  (∃ l d, v = VRef l ∧ heap w !! l = Some (ODict d)
          ∧ rest (VRef (length (heap w)))
              (set_heap (heap w ++ [ODict (dict_set d k x)]) w) = (r, w'))
  ∨ (∃ e, r = Raise e ∧ e ≠ BackendError
          ∧ (w' = w ∨ ∃ o, w' = set_heap (heap w ++ [o]) w)).
Proof.
  intros H. mbind_inv_as H new w1 E1.
  2:{ apply copy_method_inv in E1 as [(?&?&_&_&[=]&_)|(? & [= <-] & ? & ->)].
      right. eauto 10. }
  apply copy_method_inv in E1 as [(li & o & -> & Hli & [= ->] & ->)|(?&[=]&_)].
  mbind_inv_as H u w2 E2.
  2:{ apply setitem_inv in E2
        as [(?&?&_&_&[=]&_)|(? & [= <-] & ? & ->)].
      right. eauto 10. }
  apply setitem_inv in E2 as [(? & d & [= <-] & Hd & _ & ->)|(?&[=]&_)].
  simpl in Hd. rewrite list_lookup_middle in Hd by done. injection Hd as ->.
  simpl in H. rewrite insert_snoc in H. left. eauto 10.
Qed.

(** Whatever its outcome, [process_file] writes to nothing that was in
    the store, and opens no file when the backend fails. *)
Lemma process_file_any data model path src tgt w r w' :
  process_file data model path src tgt w = (r, w') →
  run_rel (length (heap w)) w r w'.
Proof.
  unfold process_file. set (la := length (heap w)).
  apply run_rel_bind; [intros ??; apply step_rel_reads, isinstance_list_reads|].
  intros [] w1 ->%(reads_world _ _ _ _ (isinstance_list_reads _)).
  - unfold process_list.
    apply run_rel_bind; [intros ??; apply step_rel_reads, len_reads|].
    intros k w1 ->%(reads_world _ _ _ _ (len_reads _)).
    apply run_rel_bind; [intros ??; apply print_step_rel|].
    intros [] w1 [= <-].
    apply run_rel_bind; [intros ??; apply alloc_step_rel|].
    intros tc w1 [= <- <-]. simpl. fold la.
    apply run_rel_bind; [intros ??; apply step_rel_reads, iter_reads|].
    intros items w1 _.
    apply run_rel_bind; [intros ??; apply total_messages_of_any|].
    intros t w2 _.
    apply run_rel_bind; [intros ??; apply tqdm_new_step_rel|].
    intros [] w3 _.
    apply run_rel_bind; [intros ??; apply step_rel_reads, iter_reads|].
    intros items' w4 _.
    apply run_rel_bind.
    { intros ??. apply for_each_step_rel. intros ??????.
      by eapply process_item_any. }
    intros [] w5 _ H. mbind_inv_as H u w6 E.
    + injection H as <- <-. eapply save_run_rel in E.
      destruct E as (?&?&?&?&?). by split_and!.
    + by eapply save_run_rel in E.
  - apply run_rel_bind; [intros ??; apply step_rel_reads, isinstance_dict_reads|].
    intros isd w1 ->%(reads_world _ _ _ _ (isinstance_dict_reads _)).
    apply run_rel_bind.
    { intros ??. apply step_rel_reads.
      destruct isd; [apply contains_reads|apply reads_ret]. }
    intros [] w1 Hhas.
    + assert (w1 = w) as ->.
      { destruct isd; [by apply contains_reads in Hhas as [-> _]|].
        by injection Hhas. }
      clear Hhas. unfold process_single.
      apply run_rel_bind; [intros ??; apply step_rel_reads, get_method_reads|].
      intros id w1 ->%(reads_world _ _ _ _ (get_method_reads _ _ _)).
      apply run_rel_bind; [intros ??; apply print_step_rel|].
      intros [] w1 [= <-].
      apply run_rel_bind; [intros ??; apply step_rel_reads, getitem_reads|].
      intros conv w1 ->%(reads_world _ _ _ _ (getitem_reads _ _)).
      apply run_rel_bind; [intros ??; apply step_rel_reads, len_reads|].
      intros t w1 ->%(reads_world _ _ _ _ (len_reads _)).
      apply run_rel_bind; [intros ??; apply tqdm_new_step_rel|].
      intros [] w1 [= <-].
      apply run_rel_bind; [intros ??; apply step_rel_reads, getitem_reads|].
      intros conv' w1 ->%(reads_world _ _ _ _ (getitem_reads _ _)).
      apply run_rel_bind.
      { intros ?? H%translate_conversation_any. exact H. }
      intros tc w1 _ H.
      apply copy_setitem_inv in H
        as [(l & d & -> & Hl & H)|(e & -> & He & Hw)].
      * mbind_inv_as H u w6 E.
        -- injection H as <- <-. eapply (save_run_rel la) in E.
           destruct E as (F&?&?&?&?). split_and!; try done.
           eapply heap_frame_trans; [|exact F].
           apply heap_frame_alloc, heap_frame_refl.
        -- eapply (save_run_rel la) in E.
           destruct E as (F&?&?&?&?). split_and!; try done.
           eapply heap_frame_trans; [|exact F].
           apply heap_frame_alloc, heap_frame_refl.
      * apply step_rel_run. destruct Hw as [->|[o ->]].
        -- apply step_rel_refl. simpl. congruence.
        -- split_and!; try done.
           ++ apply heap_frame_alloc, heap_frame_refl.
           ++ apply backend_trace_no_call; [done|]. simpl. congruence.
    + apply run_rel_bind; [intros ??; apply print_step_rel|].
      intros [] w2 _ [= <- <-]. apply step_rel_run. by apply step_rel_refl.
Qed.

Local Arguments truthy : simpl never.
Local Arguments isinstance_list : simpl never.
Local Arguments isinstance_dict : simpl never.
Local Arguments copy_method : simpl never.
Local Arguments get_method : simpl never.
Local Arguments getitem : simpl never.
Local Arguments setitem : simpl never.
Local Arguments append : simpl never.
Local Arguments len : simpl never.
Local Arguments iter : simpl never.
Local Arguments contains : simpl never.
Local Arguments print : simpl never.
Local Arguments tqdm_new : simpl never.
Local Arguments save : simpl never.
Local Arguments total_messages_of : simpl never.
Local Arguments for_each : simpl never.

Lemma isinstance_list_true data w w1 :
  isinstance_list data w = (Ok true, w1) →
  ∃ ld items, data = VRef ld ∧ heap w !! ld = Some (OList items).
Proof.
  destruct data as [| | | | |l]; try done.
  unfold isinstance_list, deref, mbind, M_bind. simpl.
  destruct (heap w !! l) as [[d|xs]|] eqn:E; try done. intros _. eauto 10.
Qed.

Lemma iter_list l xs w :
  heap w !! l = Some (OList xs) → iter (VRef l) w = (Ok xs, w).
Proof. intros H. unfold iter, deref, mbind, M_bind. simpl. by rewrite H. Qed.

(** A successful [process_list] in a closed store. *)
Lemma process_list_ok ld items model path src tgt w v w' :
  closed (heap w) → heap w !! ld = Some (OList items) →
  process_list (VRef ld) model path src tgt w = (Ok v, w') →
  list_post model src tgt w (VRef ld) v w'.
Proof.
  intros Hc Hld H. unfold process_list in H.
  pose proof (closed_lookup _ _ _ Hc Hld) as Hitems. simpl in Hitems.
  apply bind_ok_inv in H as (k & w1 & Hlen & H).
  pose proof (len_reads _ _ _ _ Hlen) as [-> _]. clear Hlen.
  apply bind_ok_inv in H as ([] & w1 & [= <-] & H).
  apply bind_ok_inv in H as (tc & w1 & [= <- <-] & H). simpl in H.
  set (la := length (heap w)) in *.
  set (w1 := set_heap _ _) in H.
  assert (E1 : heap_extends (heap w) (heap w1)) by apply heap_extends_alloc.
  apply bind_ok_inv in H as (items' & w2 & Hiter & H).
  pose proof (iter_reads _ _ _ _ Hiter) as [-> _].
  rewrite (iter_list ld items) in Hiter
    by (unfold w1; simpl; by rewrite lookup_app_l by (by eapply lookup_lt_Some)).
  injection Hiter as <-.
  apply bind_ok_inv in H as (t & w2 & Htotal & H).
  pose proof (total_messages_of_any (length (heap w1)) _ _ _ _ Htotal)
    as (F2 & S2 & Fi2 & B2).
  apply heap_frame_extends in F2; [|done].
  apply (total_messages_of_ok w) in Htotal as (ks & Hks & ->); [|done..].
  apply bind_ok_inv in H as ([] & w3 & [= <-] & H).
  set (w3 := set_pbar _ w2) in H.
  assert (Hla3 : heap w3 !! la = Some (OList [])).
  { unfold w3. simpl. destruct F2 as [L2 F2]. rewrite F2.
    - unfold w1. simpl. by rewrite list_lookup_middle.
    - unfold w1. simpl. rewrite length_app. simpl. lia. }
  assert (E3 : heap_extends (heap w) (heap w3))
    by (by eapply heap_extends_trans).
  apply bind_ok_inv in H as (items' & w4 & Hiter & H).
  pose proof (iter_reads _ _ _ _ Hiter) as [-> _].
  rewrite (iter_list ld items) in Hiter.
  2:{ destruct E3 as [_ F3]. rewrite F3; [done|by eapply lookup_lt_Some]. }
  injection Hiter as <-.
  apply bind_ok_inv in H as ([] & w4 & Hloop & H).
  apply bind_ok_inv in H as ([] & w5 & Hsave & [= <- <-]).
  pose (I := λ (seen : list val) (wi : world),
    heap_frame la (heap w3) (heap wi)
    ∧ (∃ outs, heap wi !! la = Some (OList outs)
         ∧ Forall2 (item_rel model src tgt w la (heap wi) (stdout wi))
             seen outs)
    ∧ (∃ ks', Forall2 (item_count w) seen ks'
         ∧ pbar wi = Tqdm (sum_list ks) (sum_list ks'))).
  assert (HI : I (@nil val ++ items) w4).
  { eapply (for_each_inv _ I (λ _ _, True) items) with (r := Ok tt);
      [|..|exact Hloop].
    - intros seen x wi r wi' Hx (HF & (outs & Hout & Hall) & (ks' & Hks' & Hp))
        Hbody.
      destruct r as [[]|]; [|done].
      pose proof (process_item_any _ _ _ _ _ _ _ _ Hbody) as (F & S & _).
      rewrite list.Forall_forall in Hitems.
      eapply (process_item_ok _ _ _ w) in Hbody; [|done| |by apply Hitems|done].
      2:{ by eapply (heap_extends_frame_trans _ la). }
      destruct Hbody as (out & k' & Hout' & Hrel & Hcount & Hp').
      split_and!.
      + by eapply heap_frame_trans.
      + eexists. split; [exact Hout'|]. apply Forall2_app.
        * eapply list.Forall2_impl; [exact Hall|]. intros m o.
          by apply (item_rel_mono _ _ _ _ la la).
        * by repeat constructor.
      + exists (ks' ++ [k']). split.
        * apply Forall2_app; [done|by repeat constructor].
        * rewrite Hp', Hp. simpl. rewrite sum_list_with_app. simpl.
          by rewrite Nat.add_0_r.
    - split_and!; [apply heap_frame_refl| |].
      + exists []. split; [done|constructor].
      + exists []. split; [constructor|done]. }
  destruct HI as (HF & (outs & Hout & Hall) & (ks' & Hks' & Hp)).
  simpl in Hall, Hks'.
  pose proof (item_counts_fun _ _ _ _ Hks Hks') as <-.
  apply save_inv in Hsave as (Hh & Hpb & _ & Hs & _).
  exists ld, items, outs, ks. rewrite Hh, Hpb. split_and!; try done.
  eapply list.Forall2_impl; [exact Hall|]. intros m o.
  apply (item_rel_mono _ _ _ _ la la); [done|apply heap_frame_refl|done].
Qed.

(** A successful [process_single] in a closed store. *)
Lemma process_single_ok ld d model path src tgt w v w' :
  closed (heap w) → heap w !! ld = Some (ODict d) →
  process_single (VRef ld) model path src tgt w = (Ok v, w') →
  single_post model src tgt w (VRef ld) v w'.
Proof.
  intros Hc Hld H. unfold process_single in H.
  pose proof (closed_lookup _ _ _ Hc Hld) as Hd. simpl in Hd.
  apply bind_ok_inv in H as (id & w1 & Hid & H).
  pose proof (get_method_reads _ _ _ _ _ _ Hid) as [-> _]. clear Hid.
  apply bind_ok_inv in H as ([] & w1 & [= <-] & H).
  apply bind_ok_inv in H as (conv & w1 & Hget & H).
  pose proof (getitem_reads _ _ _ _ _ Hget) as [-> _].
  apply getitem_ok in Hget as (? & d' & [= <-] & Hd' & Hconv). simpl in Hd'.
  assert (d' = d) as -> by congruence. clear Hd'.
  pose proof (dict_get_valid _ _ _ _ Hd Hconv) as Hcv.
  apply bind_ok_inv in H as (t & w1 & Hlen & H).
  pose proof (len_reads _ _ _ _ Hlen) as [-> _].
  apply (len_base _ w) in Hlen; [|apply heap_extends_refl|done].
  apply bind_ok_inv in H as ([] & w1 & [= <-] & H).
  apply bind_ok_inv in H as (conv' & w1 & Hget & H).
  pose proof (getitem_reads _ _ _ _ _ Hget) as [-> _].
  apply getitem_ok in Hget as (? & d' & [= <-] & Hd' & Hconv'). simpl in Hd'.
  assert (d' = d) as -> by congruence. clear Hd'.
  assert (conv' = conv) as -> by congruence. clear Hconv'.
  apply bind_ok_inv in H as (tc & w1 & Htc & H).
  pose proof (translate_conversation_any _ _ _ _ _ _ _ _ Htc)
    as (F1 & S1 & Fi1 & B1).
  apply heap_frame_extends in F1 as [L1 F1]; [|done]. simpl in L1, F1.
  apply (translate_conversation_ok _ _ _ _ _ w) in Htc;
    [|done|apply heap_extends_refl|done].
  destruct Htc as (msgs & outs & Hiter & -> & Hlt & Hall & Hp).
  simpl in Hlt, Hall, Hp.
  pose proof (len_iter _ _ _ _ Hiter) as Hlen'.
  assert (t = length msgs) as -> by congruence.
  apply copy_setitem_inv in H as [(? & d' & [= <-] & Hd' & H)|(? & [=] & _)].
  rewrite F1 in Hd' by (by eapply lookup_lt_Some).
  assert (d' = d) as -> by congruence.
  apply bind_ok_inv in H as ([] & w2 & Hsave & [= <- <-]).
  apply save_inv in Hsave as (Hh & Hpb & _). simpl in Hh, Hpb.
  exists ld, d, conv, msgs, (length (heap w1)), (length (heap w)), outs.
  rewrite Hh, Hpb, Hp. split_and!; try done.
  - by rewrite list_lookup_middle.
  - rewrite lookup_app_l by (by eapply lookup_lt_Some). done.
  - eapply (msg_rels_frame _ _ _ _ _ (length (heap w))); [| |exact Hall].
    + done.
    + apply heap_frame_alloc, heap_frame_refl.
Qed.

(** A value that is neither a list nor a dictionary with conversations. *)
Lemma process_file_unsupported data model path src tgt w :
  isinstance_list data w = (Ok false, w) →
  (isinstance_dict data w = (Ok false, w)
   ∨ contains key_conversations data w = (Ok false, w)) →
  process_file data model path src tgt w
  = (Ok VNone, add_line UnsupportedFormat w).
Proof.
  intros Hl Hd. unfold process_file. rewrite (bind_ok _ _ _ _ _ Hl).
  destruct (isinstance_dict data w) as [[[]|e] w1] eqn:E.
  - pose proof (isinstance_dict_reads _ _ _ _ E) as [-> _].
    rewrite (bind_ok _ _ _ _ _ E).
    destruct Hd as [Hd|Hd]; [done|]. by rewrite (bind_ok _ _ _ _ _ Hd).
  - pose proof (isinstance_dict_reads _ _ _ _ E) as [-> _].
    by rewrite (bind_ok _ _ _ _ _ E).
  - destruct data as [| | | | |l]; try done.
    destruct Hd as [Hd|Hd]; [done|].
    unfold isinstance_dict, contains, deref, mbind, M_bind in *. simpl in *.
    by destruct (heap w !! l) as [[]|].
Qed.

(** ** Running the loop body forward *)

Lemma deref_lookup l o w : heap w !! l = Some o → deref l w = (Ok o, w).
Proof. intros H. unfold deref. by rewrite H. Qed.

Lemma body_tail (pb : bool) lout outs w1 n :
  heap w1 !! lout = Some (OList outs) →
  (append (VRef lout) (VRef n);;
   if pb then pbar_update 1 else mret tt) w1
  = (Ok tt,
     World (<[lout := OList (outs ++ [VRef n])]> (heap w1))
       (if pb then Tqdm (tq_total (pbar w1)) (tq_n (pbar w1) + 1)
        else pbar w1)
       (calls w1) (stdout w1) (files w1)).
Proof.
  intros H. unfold append, store, modify, mbind, M_bind.
  rewrite (deref_lookup _ _ _ H). by destruct pb.
Qed.

(** The loop body on a message whose text is a string, absent or
    [None]: what it returns is determined. *)
Lemma body_exec model src tgt pb lout outs li d w :
  heap w !! li = Some (ODict d) → heap w !! lout = Some (OList outs) →
  let run :=
    translate_conversation_body model src tgt pb (VRef lout) (VRef li) w in
  match dict_get d key_value with
  | None | Some VNone | Some (VStr []) =>
      run = (Ok tt, body_world pb lout outs d [] w)
  | Some (VStr s) =>
      let ss := sentences_of (split LF s) in
      match ss with
      | [] =>
          run = (Ok tt,
                 body_world pb lout outs
                   (dict_set d key_translated_value (VStr [])) [] w)
      | _ =>
          match batch_translate model (calls w) ss src tgt with
          | Some out =>
              run = (Ok tt,
                     body_world pb lout outs
                       (dict_set d key_translated_value
                          (VStr (join [LF] out)))
                       [Call ss src tgt (Some out)] w)
          | None =>
              run = (Raise BackendError,
                     add_call (Call ss src tgt None)
                       (set_heap (heap w ++ [ODict d]) w))
          end
      end
  | _ => True
  end.
Proof.
  intros Hli Hlout run.
  assert (Hlt : lout < length (heap w)) by (by eapply lookup_lt_Some).
  assert (Hlt' : li < length (heap w)) by (by eapply lookup_lt_Some).
  assert (Hcopy : copy_method (VRef li) w
                  = (Ok (VRef (length (heap w))),
                     set_heap (heap w ++ [ODict d]) w)).
  { unfold copy_method, alloc, mbind, M_bind.
    by rewrite (deref_lookup _ _ _ Hli). }
  set (w0 := set_heap (heap w ++ [ODict d]) w) in *.
  assert (Hli0 : heap w0 !! li = Some (ODict d))
    by (unfold w0; simpl; by rewrite lookup_app_l).
  assert (Hn0 : heap w0 !! length (heap w) = Some (ODict d))
    by (unfold w0; simpl; by rewrite list_lookup_middle).
  assert (Hget : get_method (VRef li) key_value VNone w0
                 = (Ok (default VNone (dict_get d key_value)), w0)).
  { unfold get_method, mbind, M_bind. by rewrite (deref_lookup _ _ _ Hli0). }
  assert (Hskip : ∀ v, truthy v w0 = (Ok false, w0) →
            default VNone (dict_get d key_value) = v →
            run = (Ok tt, body_world pb lout outs d [] w)).
  { intros v Hv Hd. unfold run, translate_conversation_body.
    rewrite (bind_ok _ _ _ _ _ Hcopy), (bind_ok _ _ _ _ _ Hget), Hd.
    rewrite (bind_ok _ _ _ _ _ Hv).
    rewrite (bind_ok _ _ w0 tt w0) by done.
    rewrite (body_tail _ _ outs) by (unfold w0; simpl; by rewrite lookup_app_l).
    unfold body_world, w0. simpl. by rewrite app_nil_r. }
  destruct (dict_get d key_value) as [[| | | |s|]|] eqn:Hv; try done.
  - by apply (Hskip VNone).
  - destruct s as [|c s]; [by apply (Hskip (VStr []))|].
    assert (Hitem : getitem (VRef li) key_value w0 = (Ok (VStr (c :: s)), w0)).
    { unfold getitem, mbind, M_bind.
      by rewrite (deref_lookup _ _ _ Hli0), Hv. }
    assert (Hset : ∀ w1 x, heap w1 = heap w0 →
      setitem (VRef (length (heap w))) key_translated_value x w1
      = (Ok tt, set_heap (heap w ++ [ODict (dict_set d key_translated_value x)])
                  w1)).
    { intros w1 x Hw1. unfold setitem, store, modify, mbind, M_bind.
      rewrite (deref_lookup _ (ODict d)) by (by rewrite Hw1).
      rewrite Hw1. unfold w0. simpl. by rewrite insert_snoc. }
    cbv zeta. unfold run, translate_conversation_body.
    rewrite (bind_ok _ _ _ _ _ Hcopy), (bind_ok _ _ _ _ _ Hget).
    rewrite (bind_ok _ _ w0 true w0) by done.
    destruct (sentences_of (split LF (c :: s))) as [|x ss] eqn:Hss.
    + erewrite (bind_ok _ _ w0 tt).
      2:{ rewrite (bind_ok _ _ _ _ _ Hitem).
          rewrite (bind_ok _ _ w0 (split LF (c :: s)) w0) by done.
          cbv zeta. rewrite Hss. simpl. by apply Hset. }
      rewrite (body_tail _ _ outs) by (simpl; by rewrite lookup_app_l).
      unfold body_world. simpl. by rewrite app_nil_r.
    + destruct (batch_translate model (calls w) (x :: ss) src tgt)
        as [out|] eqn:Hbt.
      * erewrite (bind_ok _ _ w0 tt).
        2:{ rewrite (bind_ok _ _ _ _ _ Hitem).
            rewrite (bind_ok _ _ w0 (split LF (c :: s)) w0) by done.
            cbv zeta. rewrite Hss. simpl.
            erewrite bind_ok.
            2:{ unfold call_batch_translate. simpl. by rewrite Hbt. }
            by apply Hset. }
        rewrite (body_tail _ _ outs) by (simpl; by rewrite lookup_app_l).
        done.
      * erewrite bind_raise; [done|].
        rewrite (bind_ok _ _ _ _ _ Hitem).
        rewrite (bind_ok _ _ w0 (split LF (c :: s)) w0) by done.
        cbv zeta. rewrite Hss. simpl.
        erewrite bind_raise; [done|].
        unfold call_batch_translate. simpl. by rewrite Hbt.
  - by apply (Hskip VNone).
Qed.

(** ** Dictionaries *)

Lemma dict_get_set_eq d k v : dict_get (dict_set d k v) k = Some v.
Proof.
  induction d as [|[k' v'] d IH]; simpl.
  - by rewrite decide_True.
  - destruct (decide (k' = k)) as [->|Hne]; simpl.
    + by rewrite decide_True.
    + by rewrite decide_False.
Qed.

Lemma dict_get_set_ne d k v k' :
  k' ≠ k → dict_get (dict_set d k v) k' = dict_get d k'.
Proof.
  intros Hne. induction d as [|[k0 v0] d IH]; simpl.
  - by rewrite decide_False.
  - destruct (decide (k0 = k)) as [->|Hk]; simpl.
    + by rewrite !decide_False.
    + destruct (decide (k0 = k')); done.
Qed.

(** Assignment keeps the order of the keys; a new key goes last. *)
Lemma dict_set_keys d k v :
  (dict_set d k v).*1 = if dict_has d k then d.*1 else d.*1 ++ [k].
Proof.
  unfold dict_has. induction d as [|[k' v'] d IH]; [done|].
  cbn [dict_set dict_get]. destruct (decide (k' = k)) as [->|Hne]; [done|].
  rewrite !fmap_cons, IH. by destruct (dict_get d k).
Qed.

Lemma body_world_out pb lout outs d' cs w :
  lout < length (heap w) →
  heap (body_world pb lout outs d' cs w) !! lout
  = Some (OList (outs ++ [VRef (length (heap w))])).
Proof.
  intros H. simpl. apply list_lookup_insert_eq. rewrite length_app. lia.
Qed.

Lemma body_world_new pb lout outs d' cs w :
  lout < length (heap w) →
  heap (body_world pb lout outs d' cs w) !! length (heap w) = Some (ODict d').
Proof.
  intros H. simpl. rewrite list_lookup_insert_ne by lia.
  by rewrite list_lookup_middle.
Qed.

Lemma sentences_of_blank lines :
  Forall (λ line, strip line = []) lines → sentences_of lines = [].
Proof.
  unfold sentences_of. induction 1 as [|line lines Hl _ IH]; [done|].
  simpl. by rewrite Hl.
Qed.

(** ** The claims about one message *)

(** C1, as amended. The loop body of [translate_conversation], run on a
    message (a dictionary in the store) with the output list at [lout]:
    - when the text is a non-empty string and the body returns, the
      output message, the new last element of the output list, has
      [translated_value] set to a string;
    - when the text is a non-empty string with blank lines only, the body
      returns, [translated_value] is the empty string and the backend was
      not called;
    - when the text is the empty string or is missing, the body returns,
      the backend was not called and the output message has the entries
      of the input message: no [translated_value] is added. *)
Theorem message_translated_value model src tgt pb lout outs li d w :
  heap w !! li = Some (ODict d) → heap w !! lout = Some (OList outs) →
  let run :=
    translate_conversation_body model src tgt pb (VRef lout) (VRef li) w in
  let lo := length (heap w) in
  (∀ s w', dict_get d key_value = Some (VStr s) → s ≠ [] →
     run = (Ok tt, w') →
     heap w' !! lout = Some (OList (outs ++ [VRef lo]))
     ∧ ∃ d' t, heap w' !! lo = Some (ODict d')
               ∧ dict_get d' key_translated_value = Some (VStr t))
  ∧ (∀ s, dict_get d key_value = Some (VStr s) → s ≠ [] →
       Forall (λ line, strip line = []) (split LF s) →
       ∃ w' d', run = (Ok tt, w')
                ∧ heap w' !! lout = Some (OList (outs ++ [VRef lo]))
                ∧ heap w' !! lo = Some (ODict d')
                ∧ dict_get d' key_translated_value = Some (VStr [])
                ∧ calls w' = calls w)
  ∧ (dict_get d key_value = Some (VStr []) ∨ dict_get d key_value = None →
       ∃ w', run = (Ok tt, w')
             ∧ heap w' !! lout = Some (OList (outs ++ [VRef lo]))
             ∧ heap w' !! lo = Some (ODict d)
             ∧ calls w' = calls w).
Proof.
  intros Hli Hlout run lo.
  assert (Hlt : lout < length (heap w)) by (by eapply lookup_lt_Some).
  pose proof (body_exec model src tgt pb lout outs li d w Hli Hlout) as Hex.
  cbv zeta in Hex. fold run in Hex. split_and!.
  - intros s w' Hv Hs Hrun. rewrite Hv in Hex.
    destruct s as [|c s]; [done|].
    destruct (sentences_of (split LF (c :: s))) as [|x ss].
    + rewrite Hex in Hrun. injection Hrun as <-.
      split; [by apply body_world_out|]. eexists _, _.
      split; [by apply body_world_new|]. apply dict_get_set_eq.
    + destruct (batch_translate _ _ _ _ _) as [out|];
        rewrite Hex in Hrun; [|done]. injection Hrun as <-.
      split; [by apply body_world_out|]. eexists _, _.
      split; [by apply body_world_new|]. apply dict_get_set_eq.
  - intros s Hv Hs Hblank. rewrite Hv in Hex.
    destruct s as [|c s]; [done|].
    rewrite (sentences_of_blank _ Hblank) in Hex.
    eexists _, _. split; [exact Hex|]. split_and!.
    + by apply body_world_out.
    + by apply body_world_new.
    + apply dict_get_set_eq.
    + simpl. by rewrite app_nil_r.
  - intros Hv. eexists. split.
    + destruct Hv as [Hv|Hv]; rewrite Hv in Hex; exact Hex.
    + split_and!.
      * by apply body_world_out.
      * by apply body_world_new.
      * simpl. by rewrite app_nil_r.
Qed.

Lemma message_translated_value_witness :
  ∃ w' d',
    translate_conversation_body dictionary_model eng hin true (VRef 1)
      (VRef 0) (message_world (VStr blank_text)) = (Ok tt, w')
    ∧ heap w' !! 1 = Some (OList [VRef 2])
    ∧ heap w' !! 2 = Some (ODict d')
    ∧ dict_get d' key_translated_value = Some (VStr [])
    ∧ calls w' = [].
Proof.
  destruct (message_translated_value dictionary_model eng hin true 1 [] 0
              [(py "from", VStr (py "human")); (py "value", VStr blank_text)]
              (message_world (VStr blank_text)) eq_refl eq_refl)
    as (_ & H & _).
  apply (H blank_text); [reflexivity|discriminate|].
  vm_compute. repeat constructor.
Defined.

(** C1 as stated fails: a message whose text is the empty string goes out
    without a [translated_value]. *)
Lemma translated_value_missing_for_empty_text :
  ∃ w' d',
    translate_conversation_body dictionary_model eng hin true (VRef 1)
      (VRef 0) (message_world (VStr [])) = (Ok tt, w')
    ∧ heap w' !! 1 = Some (OList [VRef 2])
    ∧ heap w' !! 2 = Some (ODict d')
    ∧ dict_get d' key_translated_value = None.
Proof. eexists _, _. split_and!; reflexivity. Qed.

Lemma sentences_of_length lines :
  length (sentences_of lines)
  = length (List.filter (λ line, str_truthy (strip line)) lines).
Proof. unfold sentences_of. by rewrite length_map. Qed.

Lemma sentences_of_nonblank lines :
  Exists (λ line, strip line ≠ []) lines → sentences_of lines ≠ [].
Proof.
  unfold sentences_of. induction 1 as [line lines Hl|line lines _ IH]; simpl.
  - by destruct (strip line).
  - by destruct (str_truthy (strip line)).
Qed.

(** The sentences depend on the lines through their stripped forms only. *)
Lemma sentences_of_strip lines lines' :
  Forall2 (λ a b, strip a = strip b) lines lines' →
  sentences_of lines = sentences_of lines'.
Proof.
  unfold sentences_of. induction 1 as [|a b l l' Hab _ IH]; [done|].
  simpl. rewrite Hab. destruct (str_truthy (strip b)); simpl; by rewrite ?IH, ?Hab.
Qed.



(** C10. A message whose text has a non-blank line: whatever the outcome
    of the loop body, it has called the backend once, with the stripped
    forms of the non-blank lines of the text. Each of them is non-empty
    and neither begins nor ends with white space; the list is the same
    for every text whose lines have the same stripped forms; and when
    the backend answers, [translated_value] is its answers joined by line
    breaks and nothing else. *)
Theorem backend_receives_trimmed_lines model src tgt pb lout outs li d w s
    r w' :
  heap w !! li = Some (ODict d) → heap w !! lout = Some (OList outs) →
  dict_get d key_value = Some (VStr s) →
  Exists (λ line, strip line ≠ []) (split LF s) →
  translate_conversation_body model src tgt pb (VRef lout) (VRef li) w
  = (r, w') →
  ∃ res,
    calls w' = calls w ++ [Call (sentences_of (split LF s)) src tgt res]
    ∧ sentences_of (split LF s)
      = map strip
          (List.filter (λ line, str_truthy (strip line)) (split LF s))
    ∧ Forall (λ x, x ≠ [] ∧ strip x = x
                   ∧ (∀ c t, x = c :: t → isspace c = false)
                   ∧ (∀ c t, x = t ++ [c] → isspace c = false))
        (sentences_of (split LF s))
    ∧ (∀ s2, Forall2 (λ a b, strip a = strip b) (split LF s) (split LF s2) →
         sentences_of (split LF s2) = sentences_of (split LF s))
    ∧ (∀ out, res = Some out →
         r = Ok tt
         ∧ ∃ d', heap w' !! length (heap w) = Some (ODict d')
                 ∧ dict_get d' key_translated_value
                   = Some (VStr (join [LF] out))).
Proof.
  intros Hli Hlout Hv Hne Hrun.
  assert (Hlt : lout < length (heap w)) by (by eapply lookup_lt_Some).
  pose proof (body_exec model src tgt pb lout outs li d w Hli Hlout) as Hex.
  cbv zeta in Hex. rewrite Hv in Hex.
  apply sentences_of_nonblank in Hne.
  destruct s as [|c s]; [done|].
  destruct (sentences_of (split LF (c :: s))) as [|x ss] eqn:Hss; [done|].
  exists (batch_translate model (calls w) (x :: ss) src tgt).
  rewrite <- Hss. split_and!.
  - rewrite Hss. destruct (batch_translate _ _ _ _ _);
      rewrite Hex in Hrun; by injection Hrun as <- <-.
  - done.
  - eapply list.Forall_impl; [apply sentences_of_trimmed|].
    intros y (? & ? & _ & ? & ?). done.
  - intros s2 H. symmetry. by apply sentences_of_strip.
  - intros out Hout. rewrite Hss in Hout. rewrite Hout in Hex.
    rewrite Hex in Hrun.
    injection Hrun as <- <-. split; [done|]. eexists.
    split; [by apply body_world_new|]. apply dict_get_set_eq.
Qed.

Lemma backend_receives_trimmed_lines_witness :
  ∃ res,
    calls (translate_conversation_body dictionary_model eng hin true (VRef 1)
             (VRef 0) (message_world (VStr padded_text))).2
    = [Call [py "Hello"; py "World"] eng hin res].
Proof.
  set (run := translate_conversation_body dictionary_model eng hin true
                (VRef 1) (VRef 0) (message_world (VStr padded_text))).
  destruct (backend_receives_trimmed_lines dictionary_model eng hin true 1 []
              0 [(py "from", VStr (py "human")); (py "value", VStr padded_text)]
              (message_world (VStr padded_text)) padded_text
              run.1 run.2 eq_refl eq_refl eq_refl)
    as (res & Hcalls & _).
  - vm_compute. apply Exists_cons_hd. discriminate.
  - apply surjective_pairing.
  - exists res. exact Hcalls.
Defined.

(** ** The claims about a whole run *)

(** [process_file] takes the way the classification of the specification
    names. *)
Lemma process_file_dispatch data model path src tgt w :
  val_in (heap w) data →
  process_file data model path src tgt w
  = match spec_classify (heap w) data with
    | ListShape => process_list data model path src tgt w
    | SingleShape => process_single data model path src tgt w
    | Unsupported => (Ok VNone, add_line UnsupportedFormat w)
    end.
Proof.
  intros Hin.
  destruct data as [| | | | |l];
      try (by apply process_file_unsupported; [|left]).
    simpl in *. apply lookup_lt_is_Some_2 in Hin as [o Ho]. rewrite Ho.
    destruct o as [d|xs].
    - assert (Hl : isinstance_list (VRef l) w = (Ok false, w)).
      { unfold isinstance_list. by rewrite (bind_ok _ _ _ _ _ (deref_lookup _ _ _ Ho)). }
      assert (Hd : isinstance_dict (VRef l) w = (Ok true, w)).
      { unfold isinstance_dict. by rewrite (bind_ok _ _ _ _ _ (deref_lookup _ _ _ Ho)). }
      destruct (dict_has d key_conversations) eqn:Hhas.
      + unfold process_file.
        rewrite (bind_ok _ _ _ _ _ Hl), (bind_ok _ _ _ _ _ Hd).
        rewrite (bind_ok _ _ _ _ _ (contains_dict _ _ _ _ Ho)). by rewrite Hhas.
      + apply process_file_unsupported; [done|]. right.
        by rewrite (contains_dict _ _ _ _ Ho), Hhas.
    - unfold process_file.
      assert (Hl : isinstance_list (VRef l) w = (Ok true, w)).
      { unfold isinstance_list. by rewrite (bind_ok _ _ _ _ _ (deref_lookup _ _ _ Ho)). }
      by rewrite (bind_ok _ _ _ _ _ Hl).
Qed.

(** What a run of [process_file] that returns has made, by shape. *)
Lemma process_file_ok_post data model path src tgt w v w' :
  closed (heap w) → val_in (heap w) data →
  process_file data model path src tgt w = (Ok v, w') →
  match spec_classify (heap w) data with
  | ListShape => list_post model src tgt w data v w'
  | SingleShape => single_post model src tgt w data v w'
  | Unsupported => v = VNone ∧ w' = add_line UnsupportedFormat w
  end.
Proof.
  intros Hc Hin H. rewrite process_file_dispatch in H by done.
  destruct data as [| | | | |l]; try (by injection H as <- <-).
  simpl in *. destruct (heap w !! l) as [[d|xs]|] eqn:Ho.
  - destruct (dict_has d key_conversations).
    + by eapply process_single_ok.
    + by injection H as <- <-.
  - by eapply process_list_ok.
  - by injection H as <- <-.
Qed.

(** C7. [process_file] tests the loaded value once and takes one of
    three ways, which are those of the specification's classification: a
    list is processed by the list branch; a dictionary with the
    conversations field by the single branch, whose result is one record
    (a dictionary); for any other value an error is printed, nothing else
    happens, and the function returns [None] without raising. *)
Theorem corpus_shape_dispatch data model path src tgt w :
  val_in (heap w) data →
  process_file data model path src tgt w
  = match spec_classify (heap w) data with
    | ListShape => process_list data model path src tgt w
    | SingleShape => process_single data model path src tgt w
    | Unsupported => (Ok VNone, add_line UnsupportedFormat w)
    end
  ∧ (spec_classify (heap w) data = SingleShape → closed (heap w) →
     ∀ v w', process_file data model path src tgt w = (Ok v, w') →
       ∃ lo d', v = VRef lo ∧ heap w' !! lo = Some (ODict d')).
Proof.
  intros Hin.
  pose proof (process_file_dispatch data model path src tgt w Hin) as Heq.
  split; [exact Heq|]. intros Hs Hc v w' H. rewrite Heq, Hs in H.
  destruct data as [| | | | |l]; try done. simpl in Hs.
  destruct (heap w !! l) as [[d|xs]|] eqn:Ho; try done.
  eapply process_single_ok in H; [|done..].
  destruct H as (? & ? & ? & ? & lo & lt & ? & _ & _ & _ & _ & -> & _ & _
                 & Hlo & _).
  eauto.
Qed.

Lemma corpus_shape_dispatch_witness :
  process_file (VInt 3) dictionary_model None eng hin empty_world
  = (Ok VNone, add_line UnsupportedFormat empty_world).
Proof.
  apply (corpus_shape_dispatch (VInt 3) dictionary_model None eng hin
           empty_world). exact I.
Defined.

(** C8. In a run of [process_file] in which a backend call fails, the
    failure is the result of the run ([process_file] raises the backend's
    exception, and the interpreter exits with status 1); it is the last
    thing the run did (every earlier call had succeeded and no call
    follows it); and no file was opened for writing. *)
Theorem backend_failure_aborts data model path src tgt w r w' c :
  process_file data model path src tgt w = (r, w') →
  c ∈ drop (length (calls w)) (calls w') → c_result c = None →
  r = Raise BackendError
  ∧ exit_status r = 1%Z
  ∧ files w' = files w
  ∧ ∃ cs0, calls w' = calls w ++ cs0 ++ [c] ∧ Forall succeeded cs0.
Proof.
  intros H Hc Hfail.
  apply process_file_any in H as (_ & _ & _ & Hfiles & (cs & Hcalls & Htr)).
  rewrite Hcalls, drop_app_length in Hc.
  destruct (exn_of r) as [e|] eqn:He.
  - assert (Hok : e ≠ BackendError → Forall succeeded cs)
      by (intros ?; by destruct e).
    destruct e;
      try (specialize (Hok ltac:(done)); rewrite list.Forall_forall in Hok;
           by destruct (Hok _ Hc)).
    destruct r as [|e']; [done|]. injection He as ->.
    destruct Htr as (cs0 & c0 & -> & Hcs0 & Hc0).
    split_and!; try done; [by apply Hfiles|].
    apply elem_of_app in Hc as [Hc|Hc%list_elem_of_singleton].
    + rewrite list.Forall_forall in Hcs0. by destruct (Hcs0 _ Hc).
    + subst c0. exists cs0. by rewrite Hcalls.
  - rewrite list.Forall_forall in Htr. by destruct (Htr _ Hc).
Qed.

Lemma backend_failure_aborts_witness :
  let w := (loaded example1).2 in
  let run :=
    process_file (VRef 3) failing_model (Some (py "out.json")) eng hin w in
  run.1 = Raise BackendError ∧ files run.2 = [].
Proof.
  intros w run.
  destruct (backend_failure_aborts (VRef 3) failing_model
              (Some (py "out.json")) eng hin w run.1 run.2
              (Call [py "Hello"; py "World"] eng hin None))
    as (Hr & _ & Hf & _).
  - apply surjective_pairing.
  - vm_compute. left.
  - reflexivity.
  - split; [exact Hr|exact Hf].
Defined.

Lemma translated_as_fields model src tgt wi d d' cs :
  translated_as model src tgt wi d d' cs →
  same_fields_except key_translated_value d d'.
Proof.
  intros [| |]; intros k Hk; by rewrite ?dict_get_set_ne.
Qed.

Lemma msg_rel_fields model src tgt hb b h m o :
  msg_rel model src tgt hb b h m o → msg_fields_kept hb h m o.
Proof.
  intros (li & lo & d & d' & wi & cs & -> & -> & Hd & _ & Hd' & _ & Htr).
  exists li, lo, d, d'. split_and!; try done.
  by eapply translated_as_fields.
Qed.

Lemma item_rel_fields model src tgt wb b h lines item out :
  heap_extends (heap wb) h →
  item_rel model src tgt wb b h lines item out →
  item_fields_kept wb h item out.
Proof.
  intros [_ F] (li & d & -> & Hd & H).
  destruct (dict_get d key_conversations) as [conv|] eqn:Hconv.
  - destruct H as (msgs & lo & lt & outs & Hit & -> & _ & _ & Ho & Ht & Hall).
    exists li, lo, d, (dict_set d key_conversations (VRef lt)).
    split_and!; try done.
    + intros k Hk. by apply dict_get_set_ne.
    + rewrite Hconv. exists msgs, lt, outs. split_and!; try done.
      * apply dict_get_set_eq.
      * eapply list.Forall2_impl; [exact Hall|]. intros m o.
        apply msg_rel_fields.
  - destruct H as [-> _]. exists li, li, d, d. split_and!; try done.
    + rewrite F; [done|by eapply lookup_lt_Some].
    + by rewrite Hconv.
Qed.

(** C4. In a run of [process_file] that returns, the progress bar ends
    at the number line 94 (or 125) computes before the first message is
    translated: for a list corpus the sum, over its items, of the length
    of the conversations field, an item without the field counting zero;
    for a single conversation the length of its conversations field.
    The counter goes up by one in every run of the loop body that
    returns, whatever the message and whether or not the backend was
    called; the statement holds for every backend. *)
Theorem progress_counts_messages model path src tgt w data v w' :
  closed (heap w) →
  process_file data model path src tgt w = (Ok v, w') →
  (∀ ld items, data = VRef ld → heap w !! ld = Some (OList items) →
     ∃ ks, Forall2 (item_count w) items ks
           ∧ tq_n (pbar w') = sum_list ks
           ∧ tq_total (pbar w') = sum_list ks)
  ∧ (∀ ld d conv, data = VRef ld → heap w !! ld = Some (ODict d) →
       dict_get d key_conversations = Some conv →
       ∃ k, len conv w = (Ok k, w)
            ∧ tq_n (pbar w') = k ∧ tq_total (pbar w') = k)
  ∧ (∀ tc msg w1 w2,
       translate_conversation_body model src tgt true tc msg w1 = (Ok tt, w2) →
       tq_n (pbar w2) = tq_n (pbar w1) + 1).
Proof.
  intros Hc H.
  assert (Hin : ∀ ld o, data = VRef ld → heap w !! ld = Some o →
                        val_in (heap w) data).
  { intros ld o -> Ho. simpl. by eapply lookup_lt_Some. }
  split_and!.
  - intros ld items -> Hld.
    rewrite process_file_dispatch in H by (by eapply Hin).
    simpl in H. rewrite Hld in H.
    eapply process_list_ok in H; [|done..].
    destruct H as (? & items' & outs & ks & [= <-] & Hld' & _ & _ & _ & Hks & Hp).
    assert (items' = items) as -> by congruence.
    exists ks. by rewrite Hp.
  - intros ld d conv -> Hld Hconv.
    rewrite process_file_dispatch in H by (by eapply Hin).
    simpl in H. rewrite Hld in H.
    unfold dict_has in H. rewrite Hconv in H.
    eapply process_single_ok in H; [|done..].
    destruct H as (? & d' & conv' & msgs & lo & lt & outs & [= <-] & Hld'
                   & Hconv' & Hiter & _ & _ & _ & _ & _ & _ & Hp).
    assert (d' = d) as -> by congruence.
    assert (conv' = conv) as -> by congruence.
    exists (length msgs). rewrite Hp. split_and!; try done.
    by eapply len_iter.
  - intros tc msg w1 w2 Hb.
    apply body_ok in Hb as (?&?&?&?&?&?&_&_&_&_&_&->). done.
Qed.


Lemma progress_counts_messages_witness :
  let w := (loaded example1).2 in
  let w' := (process_file (VRef 3) dictionary_model None eng hin w).2 in
  tq_n (pbar w') = 1.
Proof.
  intros w w'.
  destruct (progress_counts_messages dictionary_model None eng hin w (VRef 3)
              (VRef 4) w') as (H & _).
  - unfold closed. vm_compute. repeat constructor.
  - vm_compute. reflexivity.
  - destruct (H 3 [VRef 2]) as (ks & Hks & Hn & _);
      [reflexivity|vm_compute; reflexivity|].
    rewrite Hn. clear Hn H.
    inversion Hks as [|?? k ks' Hk Hks' E1 E2]; subst.
    inversion Hks'; subst. simpl.
    destruct Hk as (li & d & [= <-] & Hd & Hk). vm_compute in Hd.
    injection Hd as <-. vm_compute in Hk. injection Hk as <-. reflexivity.
Defined.

(** C5. In a run of [process_file] that returns:
    - for a list corpus the result is a list with as many elements as
      the corpus, and the element at each position is the output for the
      item at that position ([item_rel]: the item itself when it has no
      conversations field, otherwise a new record whose conversations
      field is a list holding, position by position, the output messages
      of the item's messages);
    - for a single conversation the result is one record, whose
      conversations field is a list holding, position by position, the
      output messages of its messages. *)
Theorem output_keeps_structure model path src tgt w data v w' :
  closed (heap w) →
  process_file data model path src tgt w = (Ok v, w') →
  (∀ ld items, data = VRef ld → heap w !! ld = Some (OList items) →
     ∃ lout outs,
       v = VRef lout ∧ heap w' !! lout = Some (OList outs)
       ∧ length outs = length items
       ∧ ∀ i item, items !! i = Some item →
           ∃ out, outs !! i = Some out
                  ∧ item_rel model src tgt w (length (heap w)) (heap w')
                      (stdout w') item out)
  ∧ (∀ ld d conv, data = VRef ld → heap w !! ld = Some (ODict d) →
       dict_get d key_conversations = Some conv →
       ∃ msgs lo lt outs,
         iter conv w = (Ok msgs, w)
         ∧ v = VRef lo
         ∧ heap w' !! lo
           = Some (ODict (dict_set d key_conversations (VRef lt)))
         ∧ heap w' !! lt = Some (OList outs)
         ∧ length outs = length msgs
         ∧ ∀ i msg, msgs !! i = Some msg →
             ∃ out, outs !! i = Some out
                    ∧ msg_rel model src tgt (heap w) (length (heap w))
                        (heap w') msg out).
Proof.
  intros Hc H. split.
  - intros ld items -> Hld.
    eapply process_file_ok_post in H;
      [|done|by simpl; eapply lookup_lt_Some].
    simpl in H. rewrite Hld in H.
    destruct H as (? & items' & outs & ks & [= <-] & Hld' & -> & Hout & Hall & _).
    assert (items' = items) as -> by congruence.
    exists (length (heap w)), outs. split_and!; try done.
    + symmetry. by eapply Forall2_length.
    + intros i item Hi.
      destruct (Forall2_lookup_l _ _ _ _ _ Hall Hi) as (out & Ho & Hrel).
      eauto.
  - intros ld d conv -> Hld Hconv.
    eapply process_file_ok_post in H;
      [|done|by simpl; eapply lookup_lt_Some].
    simpl in H. rewrite Hld in H. unfold dict_has in H. rewrite Hconv in H.
    destruct H as (? & d' & conv' & msgs & lo & lt & outs & [= <-] & Hld'
                   & Hconv' & Hiter & -> & _ & _ & Hlo & Hlt & Hall & _).
    assert (d' = d) as -> by congruence.
    assert (conv' = conv) as -> by congruence.
    exists msgs, lo, lt, outs. split_and!; try done.
    + symmetry. by eapply Forall2_length.
    + intros i msg Hi.
      destruct (Forall2_lookup_l _ _ _ _ _ Hall Hi) as (out & Ho & Hrel).
      eauto.
Qed.

Lemma output_keeps_structure_witness :
  let w := (loaded example1).2 in
  let w' := (process_file (VRef 3) dictionary_model None eng hin w).2 in
  ∃ lout outs,
    heap w' !! lout = Some (OList outs) ∧ length outs = 1.
Proof.
  intros w w'.
  destruct (output_keeps_structure dictionary_model None eng hin w (VRef 3)
              (VRef 4) w') as (H & _).
  - unfold closed. vm_compute. repeat constructor.
  - vm_compute. reflexivity.
  - destruct (H 3 [VRef 2]) as (lout & outs & _ & Hout & Hlen & _);
      [reflexivity|vm_compute; reflexivity|].
    exists lout, outs. split; [exact Hout|exact Hlen].
Defined.

Lemma single_post_fields model src tgt wb data v w' :
  single_post model src tgt wb data v w' →
  item_fields_kept wb (heap w') data v.
Proof.
  intros (ld & d & conv & msgs & lo & lt & outs & -> & Hld & Hconv & Hiter
          & -> & _ & _ & Hlo & Hlt & Hall & _).
  exists ld, lo, d, (dict_set d key_conversations (VRef lt)).
  split_and!; try done.
  - intros k Hk. by apply dict_get_set_ne.
  - rewrite Hconv. exists msgs, lt, outs. split_and!; try done.
    + apply dict_get_set_eq.
    + eapply list.Forall2_impl; [exact Hall|]. intros m o.
      apply msg_rel_fields.
Qed.

(** C9. In a run of [process_file] that returns, nothing that was in the
    store has changed, and:
    - every output record of a list corpus has, for every field name but
      the conversations field, what the input record at its position has
      ([item_fields_kept]; a record without the field is unchanged
      altogether);
    - so has the output record of a single conversation;
    - every output message has, for every field name but
      [translated_value], what the input message at its position has. *)
Theorem unknown_fields_survive model path src tgt w data v w' :
  closed (heap w) →
  process_file data model path src tgt w = (Ok v, w') →
  heap_extends (heap w) (heap w')
  ∧ (∀ ld items, data = VRef ld → heap w !! ld = Some (OList items) →
       ∃ lout outs,
         v = VRef lout ∧ heap w' !! lout = Some (OList outs)
         ∧ Forall2 (item_fields_kept w (heap w')) items outs)
  ∧ (∀ ld d, data = VRef ld → heap w !! ld = Some (ODict d) →
       dict_has d key_conversations = true →
       item_fields_kept w (heap w') data v).
Proof.
  intros Hc H.
  assert (Hext : heap_extends (heap w) (heap w')).
  { apply process_file_any in H as (F & _).
    by eapply heap_frame_extends. }
  split_and!; [done| |].
  - intros ld items -> Hld.
    eapply process_file_ok_post in H;
      [|done|by simpl; eapply lookup_lt_Some].
    simpl in H. rewrite Hld in H.
    destruct H as (? & items' & outs & ks & [= <-] & Hld' & -> & Hout & Hall & _).
    assert (items' = items) as -> by congruence.
    exists (length (heap w)), outs. split_and!; try done.
    eapply list.Forall2_impl; [exact Hall|]. intros item out.
    by apply item_rel_fields.
  - intros ld d -> Hld Hhas.
    eapply process_file_ok_post in H;
      [|done|by simpl; eapply lookup_lt_Some].
    simpl in H. rewrite Hld, Hhas in H. by apply single_post_fields in H.
Qed.

Lemma unknown_fields_survive_witness :
  let w := (loaded example1).2 in
  let w' := (process_file (VRef 3) dictionary_model None eng hin w).2 in
  ∃ outs,
    heap w' !! 4 = Some (OList outs)
    ∧ Forall2 (item_fields_kept w (heap w')) [VRef 2] outs.
Proof.
  intros w w'.
  destruct (unknown_fields_survive dictionary_model None eng hin w (VRef 3)
              (VRef 4) w') as (_ & H & _).
  - unfold closed. vm_compute. repeat constructor.
  - vm_compute. reflexivity.
  - destruct (H 3 [VRef 2]) as (lout & outs & Hv & Hout & Hall);
      [reflexivity|vm_compute; reflexivity|].
    injection Hv as <-. exists outs. split; [exact Hout|exact Hall].
Defined.

(** ** Reading documents out of the store *)

Lemma mapM_agree {A B} (f g : A → option B) (l : list A) :
  Forall (λ x, f x = g x) l → mapM f l = mapM g l.
Proof.
  induction 1 as [|x l Hx _ IH]; [done|]. simpl. by rewrite Hx, IH.
Qed.

(** A document read through a value of a closed store is the same in
    every store that agrees with it on its locations. *)
Lemma read_agree n h h' v :
  closed h → val_in h v → (∀ l, l < length h → h' !! l = h !! l) →
  read n h' v = read n h v.
Proof.
  intros Hc Hv Hagree. revert v Hv.
  induction n as [|n IH]; intros [| | | | |l] Hv; try done.
  simpl in *. rewrite Hagree by done.
  destruct (h !! l) as [[d|xs]|] eqn:Hl; [| |done].
  - pose proof (closed_lookup _ _ _ Hc Hl) as Ho. simpl in Ho. f_equal.
    apply mapM_agree. eapply list.Forall_impl; [exact Ho|].
    intros [k x] Hx. simpl in *. by rewrite IH.
  - pose proof (closed_lookup _ _ _ Hc Hl) as Ho. simpl in Ho. f_equal.
    apply mapM_agree. eapply list.Forall_impl; [exact Ho|].
    intros x Hx. by apply IH.
Qed.

Lemma msg_rel_fresh model src tgt hb b h m o :
  length hb ≤ b →
  msg_rel model src tgt hb b h m o → ∃ l, o = VRef l ∧ length hb ≤ l.
Proof.
  intros Hb (li & lo & d & d' & wi & cs & _ & -> & _ & Hlo & _).
  exists lo. split; [done|lia].
Qed.

Lemma item_rel_fresh model src tgt wb h lines item out :
  item_rel model src tgt wb (length (heap wb)) h lines item out →
  item_fresh wb h item out.
Proof.
  intros (li & d & -> & Hd & H). exists li, d. split_and!; try done.
  destruct (dict_get d key_conversations) as [conv|]; [|by destruct H].
  destruct H as (msgs & lo & lt & outs & _ & -> & Hlo & Hlt & Ho & Ht & Hall).
  exists lo, lt, outs. split_and!; try done; try lia.
  apply list.Forall_forall. intros o Ho'.
  apply list_elem_of_lookup in Ho' as [i Hi].
  destruct (Forall2_lookup_r _ _ _ _ _ Hall Hi) as (m & _ & Hrel).
  by eapply msg_rel_fresh.
Qed.

(** C3, as amended. In every run of [process_file] in a closed store,
    whatever its outcome, no object that was in the store is written to,
    so every document read through a value of the input reads the same
    afterwards. When the run returns, the result, the output record for
    every item that has the conversations field, its list of messages
    and every output message are objects allocated during the run
    ([item_fresh]), and replacing any such object by anything leaves
    every document of the input as it was. The output for an item of a
    list corpus that lacks the conversations field is the input item
    itself, the same object. *)
Theorem input_never_mutated model path src tgt w data r w' :
  closed (heap w) →
  process_file data model path src tgt w = (r, w') →
  heap_extends (heap w) (heap w')
  ∧ (∀ n x, val_in (heap w) x → read n (heap w') x = read n (heap w) x)
  ∧ (∀ l o n x, length (heap w) ≤ l → val_in (heap w) x →
       read n (<[l := o]> (heap w')) x = read n (heap w) x)
  ∧ (∀ ld items v, data = VRef ld → heap w !! ld = Some (OList items) →
       r = Ok v →
       ∃ outs, v = VRef (length (heap w))
               ∧ heap w' !! length (heap w) = Some (OList outs)
               ∧ Forall2 (item_fresh w (heap w')) items outs)
  ∧ (∀ ld d conv v, data = VRef ld → heap w !! ld = Some (ODict d) →
       dict_get d key_conversations = Some conv → r = Ok v →
       ∃ lo lt outs,
         v = VRef lo ∧ length (heap w) ≤ lo ∧ length (heap w) ≤ lt
         ∧ heap w' !! lo
           = Some (ODict (dict_set d key_conversations (VRef lt)))
         ∧ heap w' !! lt = Some (OList outs)
         ∧ Forall (λ o, ∃ l, o = VRef l ∧ length (heap w) ≤ l) outs).
Proof.
  intros Hc H.
  assert (Hext : heap_extends (heap w) (heap w')).
  { pose proof (process_file_any _ _ _ _ _ _ _ _ H) as (F & _).
    by eapply heap_frame_extends. }
  split_and!; [done| | | |].
  - intros n x Hx. apply read_agree; [done..|]. by destruct Hext.
  - intros l o n x Hl Hx. apply read_agree; [done..|]. intros l' Hl'.
    rewrite list_lookup_insert_ne by lia. by apply Hext.
  - intros ld items v -> Hld ->.
    eapply process_file_ok_post in H;
      [|done|by simpl; eapply lookup_lt_Some].
    simpl in H. rewrite Hld in H.
    destruct H as (? & items' & outs & ks & [= <-] & Hld' & -> & Hout & Hall & _).
    assert (items' = items) as -> by congruence.
    exists outs. split_and!; try done.
    eapply list.Forall2_impl; [exact Hall|]. intros item out.
    apply item_rel_fresh.
  - intros ld d conv v -> Hld Hconv ->.
    eapply process_file_ok_post in H;
      [|done|by simpl; eapply lookup_lt_Some].
    simpl in H. rewrite Hld in H. unfold dict_has in H. rewrite Hconv in H.
    destruct H as (? & d' & conv' & msgs & lo & lt & outs & [= <-] & Hld'
                   & _ & _ & -> & Hlt & Hlo & Ho & Ht & Hall & _).
    assert (d' = d) as -> by congruence.
    exists lo, lt, outs. split_and!; try done.
    apply list.Forall_forall. intros o Ho'.
    apply list_elem_of_lookup in Ho' as [i Hi].
    destruct (Forall2_lookup_r _ _ _ _ _ Hall Hi) as (m & _ & Hrel).
    eapply msg_rel_fresh; [|exact Hrel]. done.
Qed.

Lemma input_never_mutated_witness :
  let w := (loaded example1).2 in
  let w' := (process_file (VRef 3) dictionary_model None eng hin w).2 in
  read 4 (heap w') (VRef 3) = read 4 (heap w) (VRef 3).
Proof.
  intros w w'.
  destruct (input_never_mutated dictionary_model None eng hin w (VRef 3)
              (Ok (VRef 4)) w') as (_ & H & _).
  - unfold closed. vm_compute. repeat constructor.
  - vm_compute. reflexivity.
  - apply H. vm_compute. repeat constructor.
Defined.

(** C3 as stated fails: the output record for an item without
    conversations is the input record itself, and writing to it after
    the run changes the input. *)
Lemma passed_item_is_aliased :
  let w := (loaded example3).2 in
  let run := process_file (VRef 1) dictionary_model None eng hin w in
  let after := (setitem (VRef 0) (py "id") (VStr (py "changed")) run.2).2 in
  run.1 = Ok (VRef 2)
  ∧ heap w !! 1 = Some (OList [VRef 0])
  ∧ heap run.2 !! 2 = Some (OList [VRef 0])
  ∧ read 2 (heap w) (VRef 1)
    = Some (JArr [JObj [(py "id", JStr (py "x"))]])
  ∧ read 2 (heap after) (VRef 1)
    = Some (JArr [JObj [(py "id", JStr (py "changed"))]]).
Proof. vm_compute. repeat split. Qed.

(** ** Runs that complete *)

Lemma for_each_runs {A} (body : A → M unit) (P : world → Prop) xs :
  (∀ x w, x ∈ xs → P w → ∃ w', body x w = (Ok tt, w') ∧ P w') →
  ∀ w, P w → ∃ w', for_each xs body w = (Ok tt, w') ∧ P w'.
Proof.
  induction xs as [|x xs IH]; intros Hbody w HP.
  - by exists w.
  - destruct (Hbody x w) as (w1 & E & HP1); [by left|done|].
    destruct (IH (λ y w Hy, Hbody y w (list_elem_of_further _ _ _ Hy)) w1 HP1)
      as (w' & E' & HP').
    exists w'. split; [|done]. unfold for_each. fold (@for_each A).
    by rewrite (bind_ok _ _ _ _ _ E).
Qed.

Lemma heap_extends_lookup h h' l o :
  heap_extends h h' → h !! l = Some o → h' !! l = Some o.
Proof.
  intros [_ F] H. rewrite F; [done|by eapply lookup_lt_Some].
Qed.

(** On well-formed messages and with a backend that never raises,
    [translate_conversation] returns. *)
Lemma translate_conversation_runs model src tgt pb hb lc msgs w :
  heap_extends hb (heap w) → hb !! lc = Some (OList msgs) →
  Forall (msg_ok hb) msgs → backend_total model →
  ∃ v w', translate_conversation model (VRef lc) src tgt pb w = (Ok v, w').
Proof.
  intros Hext Hlc Hmsgs Htotal. unfold translate_conversation.
  set (lout := length (heap w)).
  set (w0 := set_heap (heap w ++ [OList []]) w).
  assert (Halloc : alloc (OList []) w = (Ok (VRef lout), w0)) by done.
  rewrite (bind_ok _ _ _ _ _ Halloc).
  assert (Hext0 : heap_extends hb (heap w0)).
  { eapply heap_extends_trans; [done|]. apply heap_extends_alloc. }
  rewrite (bind_ok _ _ _ _ _ (iter_list lc msgs w0
             (heap_extends_lookup _ _ _ _ Hext0 Hlc))).
  pose (P := λ wi : world,
    heap_extends hb (heap wi) ∧ ∃ outs, heap wi !! lout = Some (OList outs)).
  destruct (for_each_runs
    (translate_conversation_body model src tgt pb (VRef lout)) P msgs)
    with (w := w0) as (w' & E & _).
  - intros x wi Hx (Hexti & outs & Hout).
    rewrite list.Forall_forall in Hmsgs.
    destruct (Hmsgs x Hx) as (li & d & -> & Hd & Hv).
    pose proof (heap_extends_lookup _ _ _ _ Hexti Hd) as Hdi.
    pose proof (body_exec model src tgt pb lout outs li d wi Hdi Hout) as Hex.
    cbv zeta in Hex.
    assert (HP : ∀ d' cs, P (body_world pb lout outs d' cs wi)).
    { intros d' cs. split.
      - eapply (heap_extends_frame_trans _ lout); [|done|].
        + destruct Hext as [L _]. unfold lout. lia.
        + simpl. apply heap_frame_store, heap_frame_alloc, heap_frame_refl.
      - eexists. apply body_world_out. by eapply lookup_lt_Some. }
    destruct (dict_get d key_value) as [[| | | |s|]|]; try done;
      try (eexists; split; [exact Hex|apply HP]).
    destruct s as [|c s]; [eexists; split; [exact Hex|apply HP]|].
    destruct (sentences_of (split LF (c :: s))) as [|y ss];
      [eexists; split; [exact Hex|apply HP]|].
    destruct (batch_translate model (calls wi) (y :: ss) src tgt) eqn:Hbt;
      [eexists; split; [exact Hex|apply HP]|].
    by destruct (Htotal _ _ _ _ Hbt).
  - split; [done|]. exists []. unfold w0, lout. simpl.
    by rewrite list_lookup_middle.
  - rewrite (bind_ok _ _ _ _ _ E). eauto.
Qed.

Lemma get_method_dict l d k x w :
  heap w !! l = Some (ODict d) →
  get_method (VRef l) k x w = (Ok (default x (dict_get d k)), w).
Proof.
  intros H. unfold get_method. by rewrite (bind_ok _ _ _ _ _ (deref_lookup _ _ _ H)).
Qed.

Lemma getitem_dict l d k x w :
  heap w !! l = Some (ODict d) → dict_get d k = Some x →
  getitem (VRef l) k w = (Ok x, w).
Proof.
  intros H Hk. unfold getitem.
  by rewrite (bind_ok _ _ _ _ _ (deref_lookup _ _ _ H)), Hk.
Qed.

Lemma append_list l xs x w :
  heap w !! l = Some (OList xs) →
  append (VRef l) x w
  = (Ok tt, set_heap (<[l := OList (xs ++ [x])]> (heap w)) w).
Proof.
  intros H. unfold append.
  by rewrite (bind_ok _ _ _ _ _ (deref_lookup _ _ _ H)).
Qed.

Lemma copy_method_dict l o w :
  heap w !! l = Some o →
  copy_method (VRef l) w
  = (Ok (VRef (length (heap w))), set_heap (heap w ++ [o]) w).
Proof.
  intros H. unfold copy_method.
  by rewrite (bind_ok _ _ _ _ _ (deref_lookup _ _ _ H)).
Qed.

Lemma setitem_dict l d k x w :
  heap w !! l = Some (ODict d) →
  setitem (VRef l) k x w
  = (Ok tt, set_heap (<[l := ODict (dict_set d k x)]> (heap w)) w).
Proof.
  intros H. unfold setitem.
  by rewrite (bind_ok _ _ _ _ _ (deref_lookup _ _ _ H)).
Qed.

Lemma len_list l xs w :
  heap w !! l = Some (OList xs) → len (VRef l) w = (Ok (length xs), w).
Proof.
  intros H. unfold len. by rewrite (bind_ok _ _ _ _ _ (deref_lookup _ _ _ H)).
Qed.

(** On a well-formed item and with a backend that never raises, the loop
    body of [process_list] returns. *)
Lemma process_item_runs model src tgt hb la item w :
  length hb ≤ la → item_ok hb item → backend_total model →
  list_inv hb la w →
  ∃ w', process_item model src tgt (VRef la) item w = (Ok tt, w')
        ∧ list_inv hb la w'.
Proof.
  intros Hla (li & d & -> & Hd & Hconv) Htotal (Hext & outs & Hout).
  pose proof (heap_extends_lookup _ _ _ _ Hext Hd) as Hdw.
  assert (Hlt : la < length (heap w)) by (by eapply lookup_lt_Some).
  unfold process_item. rewrite (bind_ok _ _ _ _ _ (contains_dict _ _ _ _ Hdw)).
  rewrite dict_has_get.
  destruct (dict_get d key_conversations) as [[| | | | |lc]|] eqn:Hc; try done.
  - destruct Hconv as (msgs & Hlc & Hmsgs).
    rewrite (bind_ok _ _ _ _ _ (getitem_dict _ _ _ _ _ Hdw Hc)).
    destruct (translate_conversation_runs model src tgt true hb lc msgs w)
      as (v & w1 & Htc); [done..|].
    rewrite (bind_ok _ _ _ _ _ Htc).
    pose proof (translate_conversation_any _ _ _ _ _ _ _ _ Htc) as (F1 & _).
    apply heap_frame_extends in F1; [|done].
    pose proof (heap_extends_lookup _ _ _ _ F1 Hdw) as Hd1.
    pose proof (heap_extends_lookup _ _ _ _ F1 Hout) as Hout1.
    rewrite (bind_ok _ _ _ _ _ (copy_method_dict _ _ _ Hd1)).
    erewrite bind_ok.
    2:{ apply (setitem_dict _ d). simpl. by rewrite list_lookup_middle. }
    simpl. rewrite insert_snoc.
    erewrite append_list.
    2:{ simpl. rewrite lookup_app_l by (by eapply lookup_lt_Some). done. }
    eexists. split; [done|]. split.
    + simpl. eapply (heap_extends_frame_trans _ la); [done| |].
      * by eapply heap_extends_trans.
      * apply heap_frame_store, heap_frame_alloc, heap_frame_refl.
    + eexists. simpl. apply list_lookup_insert_eq. rewrite length_app.
      apply lookup_lt_Some in Hout1. lia.
  - rewrite (bind_ok _ _ _ _ _ (get_method_dict _ _ _ _ _ Hdw)).
    unfold print, modify. erewrite bind_ok by done.
    erewrite append_list by (simpl; done).
    eexists. split; [done|]. split.
    + simpl. eapply (heap_extends_frame_trans _ la); [done|done|].
      apply heap_frame_store, heap_frame_refl.
    + eexists. simpl. by apply list_lookup_insert_eq.
Qed.

(** On well-formed items, line 94 computes its sum. *)
Lemma total_messages_of_runs hb items w :
  heap_extends hb (heap w) → Forall (item_ok hb) items →
  ∃ t w', total_messages_of items w = (Ok t, w').
Proof.
  revert w. induction items as [|item items IH]; intros w Hext Hitems.
  - by exists 0, w.
  - inversion Hitems as [|?? (li & d & -> & Hd & Hconv) Hitems']; subst.
    unfold total_messages_of. fold total_messages_of.
    set (w0 := set_heap (heap w ++ [OList []]) w).
    assert (Halloc : alloc (OList []) w = (Ok (VRef (length (heap w))), w0))
      by done.
    rewrite (bind_ok _ _ _ _ _ Halloc).
    assert (Hext0 : heap_extends hb (heap w0)).
    { eapply heap_extends_trans; [done|]. apply heap_extends_alloc. }
    pose proof (heap_extends_lookup _ _ _ _ Hext0 Hd) as Hd0.
    rewrite (bind_ok _ _ _ _ _ (get_method_dict _ _ _ _ _ Hd0)).
    destruct (IH w0 Hext0 Hitems') as (t & w' & Hrest).
    destruct (dict_get d key_conversations) as [[| | | | |lc]|] eqn:Hc;
      try done; simpl.
    + destruct Hconv as (msgs & Hlc & _).
      rewrite (bind_ok _ _ _ _ _
                 (len_list _ _ _ (heap_extends_lookup _ _ _ _ Hext0 Hlc))).
      rewrite (bind_ok _ _ _ _ _ Hrest). eauto.
    + erewrite (bind_ok _ _ _ _ _ (len_list _ [] _ _)).
      rewrite (bind_ok _ _ _ _ _ Hrest). eauto.
      Unshelve. unfold w0. simpl. by rewrite list_lookup_middle.
Qed.

(** ** Values that can be written out *)

Lemma readable_list n h l xs :
  h !! l = Some (OList xs) →
  readable (S n) h (VRef l) ↔ Forall (readable n h) xs.
Proof.
  intros Hl. unfold readable. simpl. rewrite Hl, fmap_is_Some.
  by rewrite mapM_is_Some.
Qed.

Lemma readable_dict n h l d :
  h !! l = Some (ODict d) →
  readable (S n) h (VRef l) ↔ Forall (λ kv, readable n h kv.2) d.
Proof.
  intros Hl. unfold readable. simpl. rewrite Hl, fmap_is_Some.
  rewrite mapM_is_Some. apply Forall_proper; [|done].
  intros [k v]. simpl. by rewrite fmap_is_Some.
Qed.

Lemma readable_ref_fuel n h l : readable n h (VRef l) → ∃ n', n = S n'.
Proof. destruct n; [by intros [? [=]]|eauto]. Qed.

Lemma readable_mono n n' h v : n ≤ n' → readable n h v → readable n' h v.
Proof.
  revert n' v. induction n as [|n IH]; intros n' v Hn Hr.
  - destruct v as [| | | | |l]; try (by destruct n'; eexists).
    by apply readable_ref_fuel in Hr as [? ?].
  - destruct v as [| | | | |l]; try (by destruct n'; eexists).
    destruct n' as [|n']; [lia|].
    destruct (h !! l) as [[d|xs]|] eqn:Hl.
    + rewrite readable_dict in Hr |- * by done.
      eapply list.Forall_impl; [exact Hr|]. intros [k x] Hx. simpl in *.
      apply IH; [lia|done].
    + rewrite readable_list in Hr |- * by done.
      eapply list.Forall_impl; [exact Hr|]. intros x Hx.
      apply IH; [lia|done].
    + unfold readable in Hr. simpl in Hr. rewrite Hl in Hr. by destruct Hr.
Qed.

Lemma readable_agree n h h' v :
  closed h → val_in h v → heap_extends h h' →
  readable n h v → readable n h' v.
Proof.
  intros Hc Hv [_ F] Hr. unfold readable.
  by rewrite (read_agree n h h' v Hc Hv F).
Qed.

Lemma Forall_dict_set (P : val → Prop) d k v :
  Forall (λ kv, P kv.2) d → P v → Forall (λ kv, P kv.2) (dict_set d k v).
Proof.
  intros Hd Hv. induction Hd as [|[k' v'] d Hkv Hd IH]; simpl.
  - by repeat constructor.
  - destruct (decide (k' = k)); constructor; done.
Qed.

Lemma dict_get_Forall (P : val → Prop) d k v :
  Forall (λ kv, P kv.2) d → dict_get d k = Some v → P v.
Proof.
  induction 1 as [|[k' v'] d Hv Hd IH]; [done|]. simpl.
  destruct (decide (k' = k)); [|done]. by intros [= <-].
Qed.

Lemma readable_str n h s : readable n h (VStr s).
Proof. by destruct n; eexists. Qed.

(** An output message can be written where its input message can. *)
Lemma msg_rel_readable model src tgt hb b h n m o :
  closed hb → heap_extends hb h →
  msg_rel model src tgt hb b h m o →
  readable n hb m → readable n h o.
Proof.
  intros Hc Hext (li & lo & d & d' & wi & cs & -> & -> & Hd & _ & Hd' & _ & Htr)
    Hr.
  destruct (readable_ref_fuel _ _ _ Hr) as [n' ->].
  rewrite readable_dict in Hr by done. rewrite readable_dict by done.
  pose proof (closed_lookup _ _ _ Hc Hd) as Hin. simpl in Hin.
  assert (Hd_h : Forall (λ kv, readable n' h kv.2) d).
  { rewrite list.Forall_forall in Hr, Hin. apply list.Forall_forall.
    intros kv Hkv. apply (readable_agree _ hb); auto. }
  destruct Htr; [done|apply Forall_dict_set; [done|apply readable_str]..].
Qed.

(** The elements of a conversation that are references are elements of a
    list, one step further in. *)
Lemma iter_readable conv wb msgs n l :
  iter conv wb = (Ok msgs, wb) → readable n (heap wb) conv →
  VRef l ∈ msgs → ∃ n', n = S n' ∧ readable n' (heap wb) (VRef l).
Proof.
  intros Hiter Hr Hl. destruct conv as [| | | |s|lc]; try done.
  - injection Hiter as <-. by apply list_elem_of_fmap in Hl as (? & [=] & _).
  - unfold iter in Hiter. apply bind_ok_inv in Hiter as (o & w1 & Hd & H).
    unfold deref in Hd. destruct (heap wb !! lc) as [o'|] eqn:Hlc; [|done].
    injection Hd as <- <-. destruct o' as [d|xs]; injection H as <-.
    + by apply list_elem_of_fmap in Hl as (? & [=] & _).
    + destruct (readable_ref_fuel _ _ _ Hr) as [n' ->]. exists n'.
      split; [done|]. rewrite readable_list in Hr by done.
      rewrite list.Forall_forall in Hr. by apply Hr.
Qed.

(** The new record made for a record with conversations can be written
    with one step more than the record it was made from. *)
Lemma new_record_readable model src tgt wb b h n li d conv msgs lo lt outs :
  closed (heap wb) → heap_extends (heap wb) h →
  heap wb !! li = Some (ODict d) →
  dict_get d key_conversations = Some conv →
  iter conv wb = (Ok msgs, wb) →
  h !! lo = Some (ODict (dict_set d key_conversations (VRef lt))) →
  h !! lt = Some (OList outs) →
  Forall2 (msg_rel model src tgt (heap wb) b h) msgs outs →
  readable n (heap wb) (VRef li) → readable (S n) h (VRef lo).
Proof.
  intros Hc Hext Hd Hconv Hiter Hlo Hlt Hall Hr.
  destruct (readable_ref_fuel _ _ _ Hr) as [n1 ->].
  rewrite readable_dict in Hr by done. rewrite readable_dict by done.
  pose proof (closed_lookup _ _ _ Hc Hd) as Hin. simpl in Hin.
  apply Forall_dict_set.
  - rewrite list.Forall_forall in Hr, Hin. apply list.Forall_forall.
    intros kv Hkv. apply (readable_mono n1); [lia|].
    apply (readable_agree _ (heap wb)); auto.
  - pose proof (dict_get_Forall _ _ _ _ Hr Hconv) as Hrc. simpl in Hrc.
    rewrite readable_list by done. apply list.Forall_forall. intros o Ho.
    apply list_elem_of_lookup in Ho as [i Hi].
    destruct (Forall2_lookup_r _ _ _ _ _ Hall Hi) as (m & Hm & Hrel).
    pose proof Hrel as (lim & ? & ? & ? & ? & ? & -> & _).
    destruct (iter_readable _ _ _ _ lim Hiter Hrc) as (n2 & -> & Hrm);
      [by eapply list_elem_of_lookup_2|].
    apply (readable_mono n2); [lia|]. by eapply msg_rel_readable.
Qed.

Lemma item_rel_readable model src tgt wb b h lines n item out :
  closed (heap wb) → heap_extends (heap wb) h →
  item_rel model src tgt wb b h lines item out →
  readable n (heap wb) item → readable (S n) h out.
Proof.
  intros Hc Hext (li & d & -> & Hd & H) Hr.
  destruct (dict_get d key_conversations) as [conv|] eqn:Hconv.
  - destruct H as (msgs & lo & lt & outs & Hit & -> & _ & _ & Ho & Ht & Hall).
    by eapply new_record_readable.
  - destruct H as [-> _]. apply (readable_mono n); [lia|].
    apply (readable_agree _ (heap wb)); [done| |done..].
    simpl. by eapply lookup_lt_Some.
Qed.

(** The result of [process_list] can be written with one step more than
    the corpus. *)
Lemma list_post_readable model src tgt w data v w' n :
  closed (heap w) → heap_extends (heap w) (heap w') →
  list_post model src tgt w data v w' →
  readable n (heap w) data → readable (S n) (heap w') v.
Proof.
  intros Hc Hext (ld & items & outs & ks & -> & Hld & -> & Hout & Hall & _) Hr.
  destruct (readable_ref_fuel _ _ _ Hr) as [n1 ->].
  rewrite readable_list in Hr by done. rewrite readable_list by done.
  apply list.Forall_forall. intros o Ho.
  apply list_elem_of_lookup in Ho as [i Hi].
  destruct (Forall2_lookup_r _ _ _ _ _ Hall Hi) as (item & Hitem & Hrel).
  eapply item_rel_readable; [done..|].
  rewrite list.Forall_forall in Hr. apply Hr. by eapply list_elem_of_lookup_2.
Qed.

Lemma single_post_readable model src tgt w data v w' n :
  closed (heap w) → heap_extends (heap w) (heap w') →
  single_post model src tgt w data v w' →
  readable n (heap w) data → readable (S n) (heap w') v.
Proof.
  intros Hc Hext (ld & d & conv & msgs & lo & lt & outs & -> & Hld & Hconv
                  & Hiter & -> & _ & _ & Hlo & Hlt & Hall & _) Hr.
  by eapply new_record_readable.
Qed.

Lemma save_runs v path w :
  (∀ p, path = Some p → str_truthy p = true →
        readable (length (heap w)) (heap w) v) →
  ∃ w', save v path w = (Ok tt, w').
Proof.
  intros Hr. unfold save. destruct path as [p|]; [|by eexists].
  destruct (str_truthy p) eqn:Hp; [|by eexists].
  destruct (Hr p eq_refl Hp) as [j Hj].
  unfold json_dump, print, modify, mbind, M_bind. rewrite Hj. by eexists.
Qed.

(** On a well-formed list corpus and with a backend that never raises,
    [process_list] reaches its [save] step, in a world that does not
    depend on the output path. *)
Lemma process_list_reaches_save model src tgt w ld items :
  heap w !! ld = Some (OList items) →
  Forall (item_ok (heap w)) items → backend_total model →
  ∃ w5, ∀ path,
    process_list (VRef ld) model path src tgt w
    = (save (VRef (length (heap w))) path;; mret (VRef (length (heap w)))) w5.
Proof.
  intros Hld Hitems Htotal.
  set (la := length (heap w)).
  set (w1 := set_heap (heap w ++ [OList []])
               (add_line (ProcessingConversations (length items)) w)).
  assert (E1 : heap_extends (heap w) (heap w1)) by apply heap_extends_alloc.
  assert (Hla1 : heap w1 !! la = Some (OList []))
    by (unfold w1, la; simpl; by rewrite list_lookup_middle).
  destruct (total_messages_of_runs (heap w) items w1 E1 Hitems)
    as (t & w2 & Htotal_run).
  pose proof (total_messages_of_any (length (heap w1)) _ _ _ _ Htotal_run)
    as (F2 & _).
  apply heap_frame_extends in F2; [|done].
  set (w3 := set_pbar (Tqdm t 0) w2).
  assert (E3 : heap_extends (heap w) (heap w3))
    by (by eapply heap_extends_trans).
  assert (Hinv : list_inv (heap w) la w3).
  { split; [done|]. exists []. by apply (heap_extends_lookup _ _ _ _ F2). }
  destruct (for_each_runs (process_item model src tgt (VRef la))
              (list_inv (heap w) la) items) with (w := w3)
    as (w5 & Hloop & _); [|done|].
  { intros x wi Hx Hwi. rewrite list.Forall_forall in Hitems.
    apply process_item_runs; auto. }
  exists w5. intros path. unfold process_list.
  rewrite (bind_ok _ _ _ _ _ (len_list _ _ _ Hld)).
  unfold print, modify. erewrite bind_ok by done.
  erewrite (bind_ok (alloc _)) by done. fold la. fold w1.
  rewrite (bind_ok _ _ _ _ _
             (iter_list ld items w1 (heap_extends_lookup _ _ _ _ E1 Hld))).
  rewrite (bind_ok _ _ _ _ _ Htotal_run).
  unfold tqdm_new, modify. erewrite bind_ok by done. fold w3.
  rewrite (bind_ok _ _ _ _ _
             (iter_list ld items w3 (heap_extends_lookup _ _ _ _ E3 Hld))).
  by rewrite (bind_ok _ _ _ _ _ Hloop).
Qed.

(** On a well-formed list corpus that [json.dump] could write, and with
    a backend that never raises, [process_list] returns. *)
Lemma process_list_runs model path src tgt w ld items :
  closed (heap w) → heap w !! ld = Some (OList items) →
  Forall (item_ok (heap w)) items → backend_total model →
  (∀ p, path = Some p → str_truthy p = true →
        readable (length (heap w)) (heap w) (VRef ld)) →
  ∃ w', process_list (VRef ld) model path src tgt w
        = (Ok (VRef (length (heap w))), w').
Proof.
  intros Hc Hld Hitems Htotal Hr.
  destruct (process_list_reaches_save model src tgt w ld items)
    as (w5 & Hrun); [done..|].
  pose proof (Hrun None) as Hnone.
  assert (Hnone' : process_list (VRef ld) model None src tgt w
                   = (Ok (VRef (length (heap w))), w5)) by done.
  pose proof (process_list_ok _ _ _ _ _ _ _ _ _ Hc Hld Hnone') as Hpost.
  assert (Hext : heap_extends (heap w) (heap w5)).
  { assert (Hpf : process_file (VRef ld) model None src tgt w
                  = (Ok (VRef (length (heap w))), w5)).
    { rewrite process_file_dispatch by (simpl; by eapply lookup_lt_Some).
      simpl. by rewrite Hld. }
    apply process_file_any in Hpf as (F & _). by eapply heap_frame_extends. }
  destruct (save_runs (VRef (length (heap w))) path w5) as (w' & Hsave).
  { intros p Hp Htr. apply (readable_mono (S (length (heap w)))).
    - destruct Hpost as (? & ? & ? & ? & _ & _ & _ & Hout & _).
      apply lookup_lt_Some in Hout. lia.
    - eapply list_post_readable; [done..|]. by eapply Hr. }
  exists w'. rewrite Hrun. by rewrite (bind_ok _ _ _ _ _ Hsave).
Qed.



(** * Further properties of the pipeline *)

(** ** The two phases of [process_file] *)

Lemma process_list_split data model path src tgt w :
  process_list data model path src tgt w
  = (v ← translate_list data model src tgt; save v path;; mret v) w.
Proof.
  unfold process_list, translate_list, mbind, M_bind, mret, M_ret.
  repeat case_match; simplify_eq; done.
Qed.

Lemma process_single_split data model path src tgt w :
  process_single data model path src tgt w
  = (v ← translate_single data model src tgt; save v path;; mret v) w.
Proof.
  unfold process_single, translate_single, mbind, M_bind, mret, M_ret.
  repeat case_match; simplify_eq; done.
Qed.

Lemma nve_ret {A} (a : A) : no_value_error (mret a).
Proof. by intros w r w' [= <- <-]. Qed.
Lemma nve_raise {A} e : e ≠ ValueError → no_value_error (@raise A e).
Proof. intros He w r w' [= <- <-]. simpl. congruence. Qed.
Lemma nve_bind {A B} (m : M A) (k : A → M B) :
  no_value_error m → (∀ a, no_value_error (k a)) → no_value_error (m ≫= k).
Proof.
  intros Hm Hk w r w' H. mbind_inv_as H a w1 E.
  - by eapply Hk.
  - by apply Hm in E.
Qed.
Lemma nve_deref l : no_value_error (deref l).
Proof.
  intros w r w'. unfold deref. by destruct (heap w !! l); intros [= <- <-].
Qed.
Lemma nve_alloc o : no_value_error (alloc o).
Proof. by intros w r w' [= <- <-]. Qed.
Lemma nve_modify f : no_value_error (modify f).
Proof. by intros w r w' [= <- <-]. Qed.
Lemma nve_for_each {A} (body : A → M unit) xs :
  (∀ x, no_value_error (body x)) → no_value_error (for_each xs body).
Proof.
  intros Hb. induction xs as [|x xs IH]; [apply nve_ret|].
  unfold for_each. fold (@for_each A). apply nve_bind; [done|]. by intros _.
Qed.
Lemma nve_call model ss a b : no_value_error (call_batch_translate model ss a b).
Proof.
  intros w r w' [-> ->]%call_batch_translate_inv.
  by destruct (batch_translate model (calls w) ss a b).
Qed.

Ltac nve_tac :=
  repeat first
    [ apply nve_ret | apply nve_raise; done | apply nve_deref
    | apply nve_alloc | apply nve_modify | apply nve_call
    | apply nve_bind; [|intros ?]
    | match goal with
      | |- no_value_error (match ?x with _ => _ end) => destruct x
      | |- no_value_error (if ?x then _ else _) => destruct x
      end ].

Lemma nve_body model src tgt pb tc msg :
  no_value_error (translate_conversation_body model src tgt pb tc msg).
Proof.
  unfold translate_conversation_body, copy_method, get_method, truthy,
    getitem, split_method, setitem, append, store, pbar_update.
  destruct tc, msg; nve_tac.
Qed.

Lemma nve_translate_conversation model conv src tgt pb :
  no_value_error (translate_conversation model conv src tgt pb).
Proof.
  unfold translate_conversation. apply nve_bind; [apply nve_alloc|]. intros tc.
  apply nve_bind; [unfold iter; destruct conv; nve_tac|]. intros msgs.
  apply nve_bind; [|intros; apply nve_ret].
  apply nve_for_each. intros x. apply nve_body.
Qed.

Lemma nve_total_messages_of items : no_value_error (total_messages_of items).
Proof.
  induction items as [|item items IH]; [apply nve_ret|].
  unfold total_messages_of. fold total_messages_of.
  apply nve_bind; [apply nve_alloc|]. intros d.
  apply nve_bind; [unfold get_method; destruct item; nve_tac|]. intros c.
  apply nve_bind; [unfold len; destruct c; nve_tac|]. intros k.
  apply nve_bind; [done|]. intros s. apply nve_ret.
Qed.

Lemma nve_process_item model src tgt at_ item :
  no_value_error (process_item model src tgt at_ item).
Proof.
  unfold process_item.
  apply nve_bind; [unfold contains; destruct item; nve_tac|]. intros [].
  - apply nve_bind; [unfold getitem; destruct item; nve_tac|]. intros conv.
    apply nve_bind; [apply nve_translate_conversation|]. intros tc.
    unfold copy_method, setitem, append, store. destruct item, at_; nve_tac.
  - unfold get_method, print, append, store. destruct item, at_; nve_tac.
Qed.

Lemma nve_translate_list data model src tgt :
  no_value_error (translate_list data model src tgt).
Proof.
  unfold translate_list.
  apply nve_bind; [unfold len; destruct data; nve_tac|]. intros k.
  apply nve_bind; [apply nve_modify|]. intros _.
  apply nve_bind; [apply nve_alloc|]. intros at_.
  apply nve_bind; [unfold iter; destruct data; nve_tac|]. intros items.
  apply nve_bind; [apply nve_total_messages_of|]. intros t.
  apply nve_bind; [apply nve_modify|]. intros _.
  apply nve_bind; [unfold iter; destruct data; nve_tac|]. intros items'.
  apply nve_bind; [|intros; apply nve_ret].
  apply nve_for_each. intros x. apply nve_process_item.
Qed.

Lemma nve_translate_single data model src tgt :
  no_value_error (translate_single data model src tgt).
Proof.
  unfold translate_single.
  apply nve_bind; [unfold get_method; destruct data; nve_tac|]. intros id.
  apply nve_bind; [apply nve_modify|]. intros _.
  apply nve_bind; [unfold getitem; destruct data; nve_tac|]. intros conv.
  apply nve_bind; [unfold len; destruct conv; nve_tac|]. intros t.
  apply nve_bind; [apply nve_modify|]. intros _.
  apply nve_bind; [unfold getitem; destruct data; nve_tac|]. intros conv'.
  apply nve_bind; [apply nve_translate_conversation|]. intros tc.
  unfold copy_method, setitem, store. destruct data; nve_tac.
Qed.

Lemma translate_list_step_rel data model src tgt w r w' :
  translate_list data model src tgt w = (r, w') →
  step_rel (length (heap w)) w r w'.
Proof.
  unfold translate_list. set (la := length (heap w)).
  apply step_rel_bind; [intros ??; apply step_rel_reads, len_reads|].
  intros k w1 ->%(reads_world _ _ _ _ (len_reads _)).
  apply step_rel_bind; [intros ??; apply print_step_rel|].
  intros [] w1 [= <-].
  apply step_rel_bind; [intros ??; apply alloc_step_rel|].
  intros tc w1 [= <- <-]. simpl. fold la.
  apply step_rel_bind; [intros ??; apply step_rel_reads, iter_reads|].
  intros items w1 _.
  apply step_rel_bind; [intros ??; apply total_messages_of_any|].
  intros t w2 _.
  apply step_rel_bind; [intros ??; apply tqdm_new_step_rel|].
  intros [] w3 _.
  apply step_rel_bind; [intros ??; apply step_rel_reads, iter_reads|].
  intros items' w4 _.
  apply step_rel_bind.
  { intros ??. apply for_each_step_rel. intros ??????.
    by eapply process_item_any. }
  intros [] w5 _ [= <- <-]. by apply step_rel_refl.
Qed.

Lemma translate_single_step_rel data model src tgt w r w' :
  translate_single data model src tgt w = (r, w') →
  step_rel (length (heap w)) w r w'.
Proof.
  unfold translate_single. set (la := length (heap w)).
  apply step_rel_bind; [intros ??; apply step_rel_reads, get_method_reads|].
  intros id w1 ->%(reads_world _ _ _ _ (get_method_reads _ _ _)).
  apply step_rel_bind; [intros ??; apply print_step_rel|].
  intros [] w1 [= <-].
  apply step_rel_bind; [intros ??; apply step_rel_reads, getitem_reads|].
  intros conv w1 ->%(reads_world _ _ _ _ (getitem_reads _ _)).
  apply step_rel_bind; [intros ??; apply step_rel_reads, len_reads|].
  intros t w1 ->%(reads_world _ _ _ _ (len_reads _)).
  apply step_rel_bind; [intros ??; apply tqdm_new_step_rel|].
  intros [] w1 [= <-].
  apply step_rel_bind; [intros ??; apply step_rel_reads, getitem_reads|].
  intros conv' w1 ->%(reads_world _ _ _ _ (getitem_reads _ _)).
  apply step_rel_bind.
  { intros ?? H%translate_conversation_any. exact H. }
  intros tc w1 _ H.
  apply copy_setitem_inv in H as [(l & d & -> & Hl & H)|(e & -> & He & Hw)].
  - injection H as <- <-. split_and!; try done.
    + apply heap_frame_alloc, heap_frame_refl.
    + by apply backend_trace_no_call.
  - destruct Hw as [->|[o ->]].
    + apply step_rel_refl. simpl. congruence.
    + split_and!; try done.
      * apply heap_frame_alloc, heap_frame_refl.
      * apply backend_trace_no_call; [done|]. simpl. congruence.
Qed.

Lemma save_ok_inv v path w w' :
  save v path w = (Ok tt, w') →
  match path with
  | Some p =>
      if str_truthy p
      then ∃ j, read (length (heap w)) (heap w) v = Some j
                ∧ w' = add_line (SavedTo p) (add_file p (Some j) w)
      else w' = w
  | None => w' = w
  end.
Proof.
  unfold save. destruct path as [p|]; [|by intros [= <-]].
  destruct (str_truthy p); [|by intros [= <-]].
  unfold json_dump, print, modify, mbind, M_bind.
  destruct (read _ _ _) as [j|]; intros [= <-]. eauto.
Qed.

Lemma save_raises v path w e w' :
  save v path w = (Raise e, w') →
  e = ValueError
  ∧ ∃ p, path = Some p ∧ str_truthy p = true
         ∧ read (length (heap w)) (heap w) v = None.
Proof.
  unfold save. destruct path as [p|]; [|done].
  destruct (str_truthy p) eqn:Hp; [|done].
  unfold json_dump, print, modify, mbind, M_bind.
  destruct (read _ _ _) eqn:E; intros [= <- <-]. eauto.
Qed.

(** A run of [process_file] ends before anything is translated (with an
    exception, or with [None] for an unsupported value), or raises while
    translating, or reaches the [save] step with the value it returns. *)
Lemma process_file_phases data model path src tgt w r w' :
  process_file data model path src tgt w = (r, w') →
  (step_rel (length (heap w)) w r w'
   ∧ (r = Ok VNone ∨ (exn_of r ≠ None ∧ exn_of r ≠ Some ValueError)))
  ∨ (∃ v w5 rs,
       process_file data model None src tgt w = (Ok v, w5)
       ∧ step_rel (length (heap w)) w (Ok v) w5
       ∧ save v path w5 = (rs, w')
       ∧ r = match rs with Ok _ => Ok v | Raise e => Raise e end).
Proof.
  unfold process_file. intros H.
  assert (Hquiet : ∀ {A} (m : M A) (e : exn) w1,
            reads m → no_value_error m → m w = (Raise e, w1) →
            step_rel (length (heap w)) w (@Raise val e) w1
            ∧ (Raise e = Ok VNone
               ∨ (exn_of (@Raise val e) ≠ None
                  ∧ exn_of (@Raise val e) ≠ Some ValueError))).
  { intros A m e w1 Hm Hn E. pose proof (Hn _ _ _ E) as Hne.
    apply Hm in E as [-> Hb]. split; [by apply step_rel_refl|]. right. done. }
  assert (Hphase : ∀ (tr : M val) r w',
    (∀ r1 w1, tr w = (r1, w1) → step_rel (length (heap w)) w r1 w1) →
    no_value_error tr →
    (v ← tr; save v path;; mret v) w = (r, w') →
    (step_rel (length (heap w)) w r w'
     ∧ (r = Ok VNone ∨ (exn_of r ≠ None ∧ exn_of r ≠ Some ValueError)))
    ∨ (∃ v w5 rs, tr w = (Ok v, w5)
         ∧ step_rel (length (heap w)) w (Ok v) w5
         ∧ save v path w5 = (rs, w')
         ∧ r = match rs with Ok _ => Ok v | Raise e => Raise e end)).
  { clear. intros tr r w' Hstep Hnve H. mbind_inv_as H v w5 E.
    - right. exists v, w5. mbind_inv_as H u w6 E'.
      + injection H as <- <-. exists (Ok u). split_and!; auto.
      + exists (Raise e). split_and!; auto.
    - left. split; [by apply Hstep|]. right. split; [done|].
      by apply Hnve in E. }
  mbind_inv_as H is_list w1 E1.
  2:{ left. eapply Hquiet; [apply isinstance_list_reads| |exact E1].
      unfold isinstance_list. destruct data; nve_tac. }
  pose proof (isinstance_list_reads _ _ _ _ E1) as [-> _]. destruct is_list.
  - rewrite process_list_split in H.
    apply Hphase in H as [H|(v & w5 & rs & Htr & ? & ? & ?)];
      [by left|right; exists v, w5, rs; split_and!; auto| |].
    + rewrite (bind_ok _ _ _ _ _ E1), process_list_split.
      by rewrite (bind_ok _ _ _ _ _ Htr).
    + intros ??. apply translate_list_step_rel.
    + apply nve_translate_list.
  - mbind_inv_as H is_dict w1 E2.
    2:{ left. eapply Hquiet; [apply isinstance_dict_reads| |exact E2].
        unfold isinstance_dict. destruct data; nve_tac. }
    pose proof (isinstance_dict_reads _ _ _ _ E2) as [-> _].
    mbind_inv_as H has w1 E3.
    2:{ left. destruct is_dict; [|done].
        eapply Hquiet; [apply contains_reads| |exact E3].
        unfold contains. destruct data; nve_tac. }
    assert (w1 = w) as ->.
    { destruct is_dict; [by apply contains_reads in E3 as [-> _]|].
      by injection E3. }
    destruct has.
    + rewrite process_single_split in H.
      apply Hphase in H as [H|(v & w5 & rs & Htr & ? & ? & ?)];
        [by left|right; exists v, w5, rs; split_and!; auto| |].
      * rewrite (bind_ok _ _ _ _ _ E1), (bind_ok _ _ _ _ _ E2).
        rewrite (bind_ok _ _ _ _ _ E3), process_single_split.
        by rewrite (bind_ok _ _ _ _ _ Htr).
      * intros ??. apply translate_single_step_rel.
      * apply nve_translate_single.
    + left. unfold print, modify, mbind, M_bind in H. injection H as <- <-.
      split; [|by left]. split_and!; try done; try apply heap_frame_refl.
      * by apply prefix_app_r.
      * by apply backend_trace_no_call.
Qed.

(** X1. When [process_file] returns a value other than [None] and an
    output path was given (a non-empty string), it has written one file,
    at that path, holding the document of the returned value, and the
    last line it printed names the path. With no output path, or the
    empty string, it has written nothing. *)
Theorem saved_file_is_result data model path src tgt w v w' :
  process_file data model path src tgt w = (Ok v, w') → v ≠ VNone →
  match path with
  | Some p =>
      if str_truthy p
      then ∃ j, read (length (heap w')) (heap w') v = Some j
                ∧ files w' = files w ++ [(p, Some j)]
                ∧ ∃ ls, stdout w' = ls ++ [SavedTo p]
      else files w' = files w
  | None => files w' = files w
  end.
Proof.
  intros H Hv.
  apply process_file_phases in H
    as [(_ & [[= ->]|[? _]])|(v5 & w5 & rs & _ & Hstep & Hsave & Hr)];
    try done.
  destruct rs as [[]|]; [|done]. injection Hr as <-.
  destruct Hstep as (_ & _ & Hf & _).
  apply save_ok_inv in Hsave. destruct path as [p|]; [|by subst].
  destruct (str_truthy p); [|by subst].
  destruct Hsave as (j & Hj & ->). exists j. simpl. rewrite Hf. eauto.
Qed.

Lemma saved_file_is_result_witness :
  let w := (loaded example1).2 in
  let w' :=
    (process_file (VRef 3) dictionary_model (Some (py "out.json")) eng hin
       w).2 in
  ∃ j, files w' = [(py "out.json", Some j)].
Proof.
  intros w w'.
  destruct (saved_file_is_result (VRef 3) dictionary_model
              (Some (py "out.json")) eng hin w (VRef 4) w')
    as (j & _ & Hf & _).
  - vm_compute. reflexivity.
  - discriminate.
  - exists j. exact Hf.
Defined.

(** X2. With no output path (or the empty string) [process_file] writes
    no file, whatever its outcome. *)
Theorem no_destination_no_file data model path src tgt w r w' :
  path = None ∨ path = Some [] →
  process_file data model path src tgt w = (r, w') →
  files w' = files w.
Proof.
  intros Hpath H.
  apply process_file_phases in H
    as [((_ & _ & Hf & _) & _)|(v5 & w5 & rs & _ & Hstep & Hsave & Hr)];
    [done|].
  destruct Hstep as (_ & _ & Hf & _).
  destruct Hpath as [-> | ->]; injection Hsave as <- <-; done.
Qed.

Lemma no_destination_no_file_witness :
  files (process_file (VRef 3) failing_model (Some []) eng hin
           (loaded example1).2).2 = [].
Proof.
  apply (no_destination_no_file (VRef 3) failing_model (Some []) eng hin
           (loaded example1).2
           (process_file (VRef 3) failing_model (Some []) eng hin
              (loaded example1).2).1).
  - by right.
  - apply surjective_pairing.
Defined.

Lemma readable_val_in n h v : readable n h v → val_in h v.
Proof.
  destruct v as [| | | | |l]; try done. intros Hr. simpl.
  destruct (readable_ref_fuel _ _ _ Hr) as [n' ->].
  unfold readable in Hr. simpl in Hr.
  destruct (h !! l) eqn:E; [by eapply lookup_lt_Some|by destruct Hr].
Qed.

(** What [process_file] returns, in a closed store that [json.dump]
    could write, can be written by [json.dump]. *)
Lemma result_readable data model src tgt w v w5 :
  closed (heap w) → readable (length (heap w)) (heap w) data →
  process_file data model None src tgt w = (Ok v, w5) →
  readable (length (heap w5)) (heap w5) v.
Proof.
  intros Hc Hr H.
  pose proof (readable_val_in _ _ _ Hr) as Hin.
  pose proof (process_file_any _ _ _ _ _ _ _ _ H) as (F & _).
  apply heap_frame_extends in F; [|done].
  pose proof (process_file_ok_post _ _ _ _ _ _ _ _ Hc Hin H) as Hpost.
  destruct (spec_classify (heap w) data).
  - apply (readable_mono (S (length (heap w)))).
    + destruct Hpost as (? & ? & ? & ? & _ & _ & _ & Hout & _).
      apply lookup_lt_Some in Hout. lia.
    + by eapply list_post_readable.
  - apply (readable_mono (S (length (heap w)))).
    + destruct Hpost as (? & ? & ? & ? & lo & lt & ? & _ & _ & _ & _ & _
                         & Hlt & _ & _ & Ht & _).
      apply lookup_lt_Some in Ht. lia.
    + by eapply single_post_readable.
  - destruct Hpost as [-> _]. by destruct (length (heap w5)); eexists.
Qed.



(** ** A single conversation that completes *)

Lemma translate_single_runs model src tgt w ld d lc msgs :
  heap w !! ld = Some (ODict d) →
  dict_get d key_conversations = Some (VRef lc) →
  heap w !! lc = Some (OList msgs) →
  Forall (msg_ok (heap w)) msgs → backend_total model →
  ∃ v w5, translate_single (VRef ld) model src tgt w = (Ok v, w5).
Proof.
  intros Hld Hconv Hlc Hmsgs Htotal. unfold translate_single.
  rewrite (bind_ok _ _ _ _ _ (get_method_dict _ _ _ _ _ Hld)).
  unfold print, modify. erewrite bind_ok by done.
  set (w1 := add_line _ w).
  erewrite (bind_ok (getitem _ _)) by (by apply (getitem_dict _ d)).
  erewrite (bind_ok (len _)) by (by apply (len_list _ msgs)).
  unfold tqdm_new, modify. erewrite bind_ok by done.
  set (w2 := set_pbar _ w1).
  erewrite (bind_ok (getitem _ _)) by (by apply (getitem_dict _ d)).
  destruct (translate_conversation_runs model src tgt true (heap w) lc msgs w2)
    as (v & w3 & Htc); [apply heap_extends_refl|done..|].
  rewrite (bind_ok _ _ _ _ _ Htc).
  pose proof (translate_conversation_any _ _ _ _ _ _ _ _ Htc) as (F1 & _).
  apply heap_frame_extends in F1; [|done].
  pose proof (heap_extends_lookup _ _ _ _ F1 Hld) as Hd1.
  rewrite (bind_ok _ _ _ _ _ (copy_method_dict _ _ _ Hd1)).
  erewrite bind_ok.
  2:{ apply (setitem_dict _ d). simpl. by rewrite list_lookup_middle. }
  eauto.
Qed.



(** ** The backend calls of a conversation *)

Lemma translated_as_calls model src tgt wi d d' cs :
  translated_as model src tgt wi d d' cs →
  match msg_sentences d with
  | [] => cs = []
  | ss => ∃ out, cs = [Call ss src tgt (Some out)]
  end.
Proof.
  unfold msg_sentences, msg_value. intros [Hf|s Hv Hs Hb|s out Hv Hs Hb].
  - unfold msg_value in Hf.
    destruct (dict_get d key_value) as [[| | | |s|]|]; try done.
    destruct s; [done|]. unfold truthy, mret, M_ret in Hf. simpl in Hf.
    discriminate.
  - by rewrite Hv, Hb.
  - rewrite Hv. destruct (sentences_of (split LF s)); [done|]. eauto.
Qed.

(** X5. In a run of [translate_conversation] that returns, in a closed
    store, the backend calls made are, message by message and in the
    order of the messages, none for a message without sentences and one
    for a message with sentences: each call carries the sentences of one
    message only, and the language codes the function was given. *)
Theorem one_call_per_message model conv src tgt pb w v w' :
  closed (heap w) → val_in (heap w) conv →
  translate_conversation model conv src tgt pb w = (Ok v, w') →
  ∃ msgs css,
    iter conv w = (Ok msgs, w)
    ∧ Forall2 (msg_calls src tgt (heap w)) msgs css
    ∧ calls w' = calls w ++ concat css.
Proof.
  intros Hc Hconv H. unfold translate_conversation in H.
  apply bind_ok_inv in H as (tc & w0 & [= <- <-] & H).
  set (n0 := length (heap w)) in *.
  set (w0 := set_heap (heap w ++ [OList []]) w) in *.
  assert (Hext0 : heap_extends (heap w) (heap w0))
    by apply heap_extends_alloc.
  apply bind_ok_inv in H as (msgs & w1 & Hiter & H).
  pose proof (iter_reads _ _ _ _ Hiter) as [-> _].
  apply (iter_base _ w) in Hiter; [|done..].
  pose proof (iter_valid _ _ _ _ Hc Hiter) as Hvalid.
  apply bind_ok_inv in H as ([] & w2 & Hloop & [= <- <-]).
  pose (I := λ (seen : list val) (wi : world),
    heap_frame n0 (heap w0) (heap wi)
    ∧ (∃ outs, heap wi !! n0 = Some (OList outs))
    ∧ ∃ css, Forall2 (msg_calls src tgt (heap w)) seen css
             ∧ calls wi = calls w ++ concat css).
  assert (HI : I (@nil val ++ msgs) w2).
  { eapply (for_each_inv _ I (λ _ _, True) msgs) with (r := Ok tt);
      [|..|exact Hloop].
    - intros seen x wi r wi' Hx (HF & (outs & Hout) & (css & Hall & Hcalls))
        Hbody.
      destruct r as [[]|]; [|done].
      pose proof (body_any _ _ _ _ _ _ _ _ _ Hbody) as (HF' & _).
      apply body_ok in Hbody
        as (li & d & ? & outs' & d' & cs & -> & Hli & [= <-] & Hout'
            & Htr & ->).
      assert (Hexti : heap_extends (heap w) (heap wi)).
      { eapply (heap_frame_extends n0); [done|].
        eapply heap_frame_trans; [|exact HF].
        apply heap_frame_alloc, heap_frame_refl. }
      rewrite list.Forall_forall in Hvalid.
      pose proof (Hvalid _ Hx) as Hli'. simpl in Hli'.
      split_and!.
      + by eapply heap_frame_trans.
      + eexists. simpl. apply list_lookup_insert_eq. rewrite length_app.
        apply lookup_lt_Some in Hout. lia.
      + exists (css ++ [cs]). split.
        * apply Forall2_app; [done|]. constructor; [|constructor].
          exists li, d. split_and!; [done| |by eapply translated_as_calls].
          destruct Hexti as [_ F]. by rewrite <- F.
        * simpl. rewrite Hcalls, concat_app. simpl.
          by rewrite app_nil_r, app_assoc.
    - split_and!; [apply heap_frame_refl| |].
      + exists []. unfold w0, n0. simpl. by rewrite list_lookup_middle.
      + exists []. split; [constructor|]. simpl. by rewrite app_nil_r. }
  destruct HI as (_ & _ & (css & Hall & Hcalls)).
  exists msgs, css. split_and!; done.
Qed.

Lemma one_call_per_message_witness :
  let w := (loaded example1).2 in
  ∃ css,
    calls (translate_conversation dictionary_model (VRef 1) eng hin false
             w).2 = concat css
    ∧ length css = 1.
Proof.
  intros w.
  destruct (one_call_per_message dictionary_model (VRef 1) eng hin false w
              (VRef 4)
              (translate_conversation dictionary_model (VRef 1) eng hin false
                 w).2)
    as (msgs & css & Hiter & Hall & Hcalls).
  - unfold closed. vm_compute. repeat constructor.
  - vm_compute. repeat constructor.
  - vm_compute. reflexivity.
  - exists css. split; [exact Hcalls|].
    vm_compute in Hiter. injection Hiter as <-.
    by apply Forall2_length in Hall.
Defined.

(** ** Input of the wrong type *)

Lemma truthy_after_alloc v o w b :
  truthy v w = (Ok b, w) →
  truthy v (set_heap (heap w ++ [o]) w) = (Ok b, set_heap (heap w ++ [o]) w).
Proof.
  destruct v as [| | | | |l]; unfold truthy;
    try (by intros [= <-]).
  intros H. apply bind_ok_inv in H as (o' & w1 & Hd & H).
  unfold deref in Hd. destruct (heap w !! l) as [o''|] eqn:E; [|done].
  injection Hd as <- <-.
  erewrite bind_ok.
  2:{ apply deref_lookup. simpl. rewrite lookup_app_l; [done|].
      by eapply lookup_lt_Some. }
  destruct o''; by injection H as <-.
Qed.

(** X6. The loop body of [translate_conversation] on a message that is
    not a dictionary, or whose text is a true value that is not a string
    (a number, [True], a non-empty list or dictionary): it raises
    [AttributeError]; the backend is not called, nothing that was in the
    store changes (the output list is not appended to), and the progress
    bar does not move. *)
Theorem malformed_message_raises model src tgt pb lout msg w :
  val_in (heap w) msg →
  ¬ is_dict (heap w) msg
  ∨ (∃ li d v, msg = VRef li ∧ heap w !! li = Some (ODict d)
               ∧ dict_get d key_value = Some v
               ∧ (∀ s, v ≠ VStr s) ∧ truthy v w = (Ok true, w)) →
  ∃ w',
    translate_conversation_body model src tgt pb (VRef lout) msg w
    = (Raise AttributeError, w')
    ∧ calls w' = calls w ∧ pbar w' = pbar w
    ∧ heap_extends (heap w) (heap w').
Proof.
  intros Hin [Hnd|(li & d & v & -> & Hd & Hv & Hns & Ht)];
    unfold translate_conversation_body.
  - destruct msg as [| | | | |l];
      try (eexists; split; [reflexivity|]; split_and!; try done;
           apply heap_extends_refl).
    simpl in Hin. apply lookup_lt_is_Some_2 in Hin as [o Ho].
    destruct o as [d|xs]; [destruct Hnd; by exists l, d|].
    rewrite (bind_ok _ _ _ _ _ (copy_method_dict _ _ _ Ho)).
    erewrite bind_raise.
    2:{ unfold get_method. erewrite bind_ok.
        2:{ apply deref_lookup. simpl. rewrite lookup_app_l; [done|].
            by eapply lookup_lt_Some. }
        reflexivity. }
    eexists. split; [reflexivity|]. split_and!; try done.
    apply heap_extends_alloc.
  - rewrite (bind_ok _ _ _ _ _ (copy_method_dict _ _ _ Hd)).
    set (w0 := set_heap (heap w ++ [ODict d]) w).
    assert (Hd0 : heap w0 !! li = Some (ODict d)).
    { unfold w0. simpl. rewrite lookup_app_l; [done|].
      by eapply lookup_lt_Some. }
    rewrite (bind_ok _ _ _ _ _ (get_method_dict _ _ _ _ _ Hd0)), Hv. simpl.
    rewrite (bind_ok _ _ _ _ _ (truthy_after_alloc _ (ODict d) _ _ Ht)).
    fold w0. erewrite bind_raise.
    2:{ rewrite (bind_ok _ _ _ _ _ (getitem_dict _ _ _ _ _ Hd0 Hv)).
        erewrite bind_raise; [reflexivity|].
        destruct v; try reflexivity. by destruct (Hns s). }
    eexists. split; [reflexivity|]. split_and!; try done.
    apply heap_extends_alloc.
Qed.

Lemma malformed_message_raises_witness :
  ∃ w',
    translate_conversation_body dictionary_model eng hin true (VRef 1)
      (VRef 0) (message_world (VInt 5)) = (Raise AttributeError, w')
    ∧ calls w' = [].
Proof.
  destruct (malformed_message_raises dictionary_model eng hin true 1 (VRef 0)
              (message_world (VInt 5)))
    as (w' & Hrun & Hc & _).
  - vm_compute. repeat constructor.
  - right.
    exists 0, [(py "from", VStr (py "human")); (py "value", VInt 5)], (VInt 5).
    split_and!; [reflexivity|reflexivity|reflexivity|discriminate|reflexivity].
  - exists w'. split; [exact Hrun|exact Hc].
Defined.

Lemma total_messages_of_quiet items w r w' :
  total_messages_of items w = (r, w') →
  calls w' = calls w ∧ stdout w' = stdout w ∧ files w' = files w
  ∧ pbar w' = pbar w.
Proof.
  revert w r w'. induction items as [|item items IH]; intros w r w' H.
  - by injection H as <- <-.
  - unfold total_messages_of in H. fold total_messages_of in H.
    apply bind_inv in H as [(dflt & w0 & [= <- <-] & H)|(? & [=] & _)].
    mbind_inv_as H c w1 E1; [|by apply get_method_reads in E1 as [-> _]].
    apply get_method_reads in E1 as [-> _].
    mbind_inv_as H k w1 E2; [|by apply len_reads in E2 as [-> _]].
    apply len_reads in E2 as [-> _].
    mbind_inv_as H s w1 E3.
    + injection H as <- <-. by apply IH in E3.
    + by apply IH in E3.
Qed.

(** Line 94 raises when an item is not a dictionary. *)
Lemma total_messages_of_raises hb items w :
  closed hb → heap_extends hb (heap w) → Forall (val_in hb) items →
  Exists (λ item, ¬ is_dict hb item) items →
  ∃ e w', total_messages_of items w = (Raise e, w')
          ∧ (e = AttributeError ∨ e = TypeError).
Proof.
  intros Hc Hext Hitems Hbad. revert w Hext.
  induction items as [|item items IH]; intros w Hext; [by inversion Hbad|].
  inversion Hitems as [|?? Hitem Hitems']; subst.
  unfold total_messages_of. fold total_messages_of.
  set (w0 := set_heap (heap w ++ [OList []]) w).
  assert (Halloc : alloc (OList []) w = (Ok (VRef (length (heap w))), w0))
    by done.
  rewrite (bind_ok _ _ _ _ _ Halloc).
  assert (Hext0 : heap_extends hb (heap w0)).
  { eapply heap_extends_trans; [done|]. apply heap_extends_alloc. }
  destruct item as [| | | | |li];
    try (eexists _, _; split; [reflexivity|by left]).
  simpl in Hitem. apply lookup_lt_is_Some_2 in Hitem as [o Ho].
  pose proof (heap_extends_lookup _ _ _ _ Hext0 Ho) as Ho0.
  destruct o as [d|xs].
  2:{ eexists _, _. split; [|by left].
      erewrite bind_raise; [reflexivity|]. unfold get_method.
      by rewrite (bind_ok _ _ _ _ _ (deref_lookup _ _ _ Ho0)). }
  rewrite (bind_ok _ _ _ _ _ (get_method_dict _ _ _ _ _ Ho0)).
  apply Exists_cons in Hbad as [Hbad|Hbad];
    [destruct Hbad; by exists li, d|].
  destruct (IH Hitems' Hbad w0 Hext0) as (e & w' & Hrest & He).
  set (conv := default (VRef (length (heap w)))
                 (dict_get d key_conversations)).
  assert (Hconv : ∀ l, conv = VRef l → is_Some (heap w0 !! l)).
  { intros l Hl. unfold conv in Hl.
    destruct (dict_get d key_conversations) as [c|] eqn:Hc'; simpl in Hl; subst.
    - pose proof (closed_lookup _ _ _ Hc Ho) as Hd. simpl in Hd.
      pose proof (dict_get_valid _ _ _ _ Hd Hc') as Hv. simpl in Hv.
      apply lookup_lt_is_Some_2. destruct Hext0 as [L _]. lia.
    - injection Hl as <-. unfold w0. simpl.
      rewrite list_lookup_middle by done. by eexists. }
  assert (Hlen : (∃ k, len conv w0 = (Ok k, w0))
                 ∨ len conv w0 = (Raise TypeError, w0)).
  { destruct conv as [| | | |s|l]; try (by right).
    - left. by eexists.
    - destruct (Hconv l eq_refl) as [o Hlo]. left. unfold len.
      rewrite (bind_ok _ _ _ _ _ (deref_lookup _ _ _ Hlo)).
      destruct o; by eexists. }
  destruct Hlen as [[k Hk]|Hk].
  - rewrite (bind_ok _ _ _ _ _ Hk).
    rewrite (bind_raise _ _ _ _ _ Hrest). eauto.
  - rewrite (bind_raise _ _ _ _ _ Hk). eauto.
Qed.

(** X7. A list corpus with an item that is not a dictionary, in a closed
    store: [process_file] raises [AttributeError] or [TypeError] at the
    line that counts the messages, after printing the number of
    conversations and before translating anything: the backend is not
    called, no file is written and the progress bar does not exist
    yet. *)
Theorem non_record_item_aborts model path src tgt w ld items :
  closed (heap w) → heap w !! ld = Some (OList items) →
  Exists (λ item, ¬ is_dict (heap w) item) items →
  ∃ e w',
    process_file (VRef ld) model path src tgt w = (Raise e, w')
    ∧ (e = AttributeError ∨ e = TypeError)
    ∧ calls w' = calls w ∧ files w' = files w ∧ pbar w' = pbar w
    ∧ stdout w' = stdout w ++ [ProcessingConversations (length items)].
Proof.
  intros Hc Hld Hbad.
  set (w1 := set_heap (heap w ++ [OList []])
               (add_line (ProcessingConversations (length items)) w)).
  assert (E1 : heap_extends (heap w) (heap w1)) by apply heap_extends_alloc.
  destruct (total_messages_of_raises (heap w) items w1) as (e & w' & Hrun & He);
    [done|done| |done|].
  { by apply (closed_lookup _ _ _ Hc Hld). }
  pose proof (total_messages_of_quiet _ _ _ _ Hrun) as (Hcalls & Hs & Hf & Hp).
  exists e, w'. split_and!; try done.
  rewrite process_file_dispatch by (simpl; by eapply lookup_lt_Some).
  simpl. rewrite Hld. unfold process_list.
  rewrite (bind_ok _ _ _ _ _ (len_list _ _ _ Hld)).
  unfold print, modify. erewrite bind_ok by done.
  erewrite (bind_ok (alloc _)) by done. fold w1.
  rewrite (bind_ok _ _ _ _ _
             (iter_list ld items w1 (heap_extends_lookup _ _ _ _ E1 Hld))).
  by rewrite (bind_raise _ _ _ _ _ Hrun).
Qed.

Lemma non_record_item_aborts_witness :
  let w := (loaded (JArr [JStr (py "hello")])).2 in
  ∃ w',
    process_file (VRef 0) dictionary_model None eng hin w
    = (Raise AttributeError, w')
    ∧ calls w' = [].
Proof.
  intros w.
  destruct (non_record_item_aborts dictionary_model None eng hin w 0
              [VStr (py "hello")])
    as (e & w' & Hrun & _ & Hc & _).
  - unfold closed. vm_compute. repeat constructor.
  - reflexivity.
  - apply Exists_cons_hd. by intros (l & d & [=] & _).
  - exists w'. split; [|exact Hc].
    assert (e = AttributeError) as <-; [|exact Hrun].
    vm_compute in Hrun. by injection Hrun as <-.
Defined.

(** ** The order of the fields *)

Lemma translated_as_order model src tgt wi d d' cs :
  translated_as model src tgt wi d d' cs →
  d'.*1 = d.*1
  ∨ dict_has d key_translated_value = false
    ∧ d'.*1 = d.*1 ++ [key_translated_value].
Proof.
  intros [| |]; [by left| |]; rewrite dict_set_keys;
    destruct (dict_has d key_translated_value); auto.
Qed.

Lemma msg_rel_order model src tgt hb b h m o :
  msg_rel model src tgt hb b h m o → msg_order_kept hb h m o.
Proof.
  intros (li & lo & d & d' & wi & cs & -> & -> & Hd & _ & Hd' & _ & Htr).
  exists li, lo, d, d'. split_and!; try done.
  by eapply translated_as_order.
Qed.

Lemma dict_set_keys_present d k v x :
  dict_get d k = Some x → (dict_set d k v).*1 = d.*1.
Proof. intros H. rewrite dict_set_keys. unfold dict_has. by rewrite H. Qed.

Lemma item_rel_order model src tgt wb b h lines item out :
  heap_extends (heap wb) h →
  item_rel model src tgt wb b h lines item out →
  item_order_kept wb h item out.
Proof.
  intros [_ F] (li & d & -> & Hd & H).
  destruct (dict_get d key_conversations) as [conv|] eqn:Hconv.
  - destruct H as (msgs & lo & lt & outs & Hit & -> & _ & _ & Ho & Ht & Hall).
    exists li, lo, d, (dict_set d key_conversations (VRef lt)).
    split_and!; try done.
    + by eapply dict_set_keys_present.
    + rewrite Hconv. exists msgs, lt, outs. split_and!; try done.
      * apply dict_get_set_eq.
      * eapply list.Forall2_impl; [exact Hall|]. intros m o.
        apply msg_rel_order.
  - destruct H as [-> _]. exists li, li, d, d. split_and!; try done.
    + rewrite F; [done|by eapply lookup_lt_Some].
    + by rewrite Hconv.
Qed.

Lemma single_post_order model src tgt wb data v w' :
  single_post model src tgt wb data v w' →
  item_order_kept wb (heap w') data v.
Proof.
  intros (ld & d & conv & msgs & lo & lt & outs & -> & Hld & Hconv & Hiter
          & -> & _ & _ & Hlo & Hlt & Hall & _).
  exists ld, lo, d, (dict_set d key_conversations (VRef lt)).
  split_and!; try done.
  - by eapply dict_set_keys_present.
  - rewrite Hconv. exists msgs, lt, outs. split_and!; try done.
    + apply dict_get_set_eq.
    + eapply list.Forall2_impl; [exact Hall|]. intros m o.
      apply msg_rel_order.
Qed.

(** X8. In a run of [process_file] that returns, every output record
    (of a list corpus, or the one of a single conversation) has the
    field names of the input record at its position, in the same order:
    the new list of messages takes the place the conversations field
    had. Every output message has the field names of its input message
    in the same order, [translated_value] being added after them when
    the message did not have that field, and replaced where it stands
    when it had. *)
Theorem field_order_kept model path src tgt w data v w' :
  closed (heap w) →
  process_file data model path src tgt w = (Ok v, w') →
  (∀ ld items, data = VRef ld → heap w !! ld = Some (OList items) →
     ∃ lout outs,
       v = VRef lout ∧ heap w' !! lout = Some (OList outs)
       ∧ Forall2 (item_order_kept w (heap w')) items outs)
  ∧ (∀ ld d, data = VRef ld → heap w !! ld = Some (ODict d) →
       dict_has d key_conversations = true →
       item_order_kept w (heap w') data v).
Proof.
  intros Hc H.
  assert (Hext : heap_extends (heap w) (heap w')).
  { apply process_file_any in H as (F & _).
    by eapply heap_frame_extends. }
  split.
  - intros ld items -> Hld.
    eapply process_file_ok_post in H;
      [|done|by simpl; eapply lookup_lt_Some].
    simpl in H. rewrite Hld in H.
    destruct H as (? & items' & outs & ks & [= <-] & Hld' & -> & Hout & Hall & _).
    assert (items' = items) as -> by congruence.
    exists (length (heap w)), outs. split_and!; try done.
    eapply list.Forall2_impl; [exact Hall|]. intros item out.
    by apply item_rel_order.
  - intros ld d -> Hld Hhas.
    eapply process_file_ok_post in H;
      [|done|by simpl; eapply lookup_lt_Some].
    simpl in H. rewrite Hld, Hhas in H. by apply single_post_order in H.
Qed.

Lemma field_order_kept_witness :
  let w := (loaded example1).2 in
  let w' := (process_file (VRef 3) dictionary_model None eng hin w).2 in
  ∃ outs,
    heap w' !! 4 = Some (OList outs)
    ∧ Forall2 (item_order_kept w (heap w')) [VRef 2] outs.
Proof.
  intros w w'.
  destruct (field_order_kept dictionary_model None eng hin w (VRef 3)
              (VRef 4) w') as (H & _).
  - unfold closed. vm_compute. repeat constructor.
  - vm_compute. reflexivity.
  - destruct (H 3 [VRef 2]) as (lout & outs & Hv & Hout & Hall);
      [reflexivity|vm_compute; reflexivity|].
    injection Hv as <-. exists outs. split; [exact Hout|exact Hall].
Defined.

(** ** Documents under values *)

Lemma read_dict n h l d j :
  h !! l = Some (ODict d) →
  read n h (VRef l) = Some j
  ↔ ∃ n' jd, n = S n' ∧ j = JObj jd ∧ fields_read n' h d jd.
Proof.
  intros Hl. destruct n as [|n]; simpl.
  { split; [done|]. by intros (? & ? & [=] & _). }
  rewrite Hl, fmap_Some. split.
  - intros (jd & Hm & ->). exists n, jd. split_and!; try done.
    apply mapM_Some in Hm. eapply list.Forall2_impl; [exact Hm|].
    intros [k v] [k' jv]. simpl. rewrite fmap_Some.
    by intros (? & ? & [= -> ->]).
  - intros (n' & jd & [= <-] & -> & Hf). exists jd. split; [|done].
    apply mapM_Some. eapply list.Forall2_impl; [exact Hf|].
    intros [k v] [k' jv]. simpl. intros [-> ->]. done.
Qed.

Lemma read_list n h l xs j :
  h !! l = Some (OList xs) →
  read n h (VRef l) = Some j
  ↔ ∃ n' js, n = S n' ∧ j = JArr js
             ∧ Forall2 (λ x jx, read n' h x = Some jx) xs js.
Proof.
  intros Hl. destruct n as [|n]; simpl.
  { split; [done|]. by intros (? & ? & [=] & _). }
  rewrite Hl, fmap_Some. split.
  - intros (js & Hm & ->). exists n, js. split_and!; try done.
    by apply mapM_Some in Hm.
  - intros (n' & js & [= <-] & -> & Hf). exists js. split; [|done].
    by apply mapM_Some.
Qed.

(** More steps read the same document. *)
Lemma read_mono n n' h v j :
  n ≤ n' → read n h v = Some j → read n' h v = Some j.
Proof.
  revert n' v j. induction n as [|n IH]; intros n' v j Hn Hr.
  - by destruct v, n'.
  - destruct v as [| | | | |l]; try (by destruct n').
    destruct n' as [|n']; [lia|].
    destruct (h !! l) as [[d|xs]|] eqn:Hl.
    + destruct (proj1 (read_dict _ _ _ _ _ Hl) Hr) as (m & jd & Hm & -> & Hf).
      assert (m = n) as -> by lia.
      apply (proj2 (read_dict _ _ _ _ _ Hl)). exists n', jd. split_and!; try done.
      eapply list.Forall2_impl; [exact Hf|]. intros [k x] [k' jx] [? Hx].
      split; [done|]. apply IH; [lia|done].
    + destruct (proj1 (read_list _ _ _ _ _ Hl) Hr) as (m & js & Hm & -> & Hf).
      assert (m = n) as -> by lia.
      apply (proj2 (read_list _ _ _ _ _ Hl)). exists n', js. split_and!; try done.
      eapply list.Forall2_impl; [exact Hf|]. intros x jx Hx.
      apply IH; [lia|done].
    + simpl in Hr. by rewrite Hl in Hr.
Qed.

Lemma read_val_in n h v j : read n h v = Some j → val_in h v.
Proof. intros H. apply (readable_val_in n). by exists j. Qed.

(** Reading in a store that extends a closed one. *)
Lemma read_extends n hb h v j :
  closed hb → heap_extends hb h →
  read n hb v = Some j → read n h v = Some j.
Proof.
  intros Hc [_ F] Hr. rewrite (read_agree n hb h v Hc); [done| |done].
  by eapply read_val_in.
Qed.

Lemma fields_read_mono n n' hb h d jd :
  closed hb → heap_extends hb h → n ≤ n' →
  fields_read n hb d jd → fields_read n' h d jd.
Proof.
  intros Hc He Hn Hf. eapply list.Forall2_impl; [exact Hf|].
  intros [k x] [k' jx] [? Hx]. split; [done|].
  eapply read_mono; [done|]. by eapply read_extends.
Qed.

Lemma fields_read_get n h d jd k :
  fields_read n h d jd →
  match dict_get d k with
  | Some x => ∃ jx, jobj_get jd k = Some jx ∧ read n h x = Some jx
  | None => jobj_get jd k = None
  end.
Proof.
  induction 1 as [|[k1 x] [k2 jx] d jd [Hk Hx] _ IH]; [done|].
  simpl in *. subst k2. destruct (decide (k1 = k)); [eauto|done].
Qed.

Lemma fields_read_set n h d jd k x jx :
  fields_read n h d jd → read n h x = Some jx →
  fields_read n h (dict_set d k x) (jobj_set jd k jx).
Proof.
  intros Hf Hx. induction Hf as [|[k1 y] [k2 jy] d jd [Hk Hy] Hf IH].
  - by repeat constructor.
  - simpl in *. subst k2. destruct (decide (k1 = k)); by constructor.
Qed.

(** [bool] of a value is [json_truthy] of its document. *)

(** ** Loading a document *)

Lemma json_all_ind (P : json → Prop) :
  P JNull → (∀ b, P (JBool b)) → (∀ z, P (JInt z)) → (∀ f, P (JFloat f)) →
  (∀ s, P (JStr s)) →
  (∀ xs, Forall P xs → P (JArr xs)) →
  (∀ d, Forall (λ kv, P kv.2) d → P (JObj d)) →
  ∀ j, P j.
Proof.
  intros Hn Hb Hi Hf Hs Ha Ho.
  refine (fix IH j : P j :=
            match j with
            | JNull => Hn
            | JBool b => Hb b
            | JInt z => Hi z
            | JFloat f => Hf f
            | JStr s => Hs s
            | JArr xs =>
                Ha xs ((fix go xs : Forall P xs :=
                          match xs with
                          | [] => Forall_nil_2 _
                          | x :: xs' => Forall_cons_2 _ _ _ (IH x) (go xs')
                          end) xs)
            | JObj d =>
                Ho d ((fix go d : Forall (λ kv, P kv.2) d :=
                         match d with
                         | [] => Forall_nil_2 _
                         | kv :: d' =>
                             Forall_cons_2 (λ kv, P kv.2) _ _ (IH kv.2) (go d')
                         end) d)
            end).
Qed.

Lemma val_in_mono h h' v : length h ≤ length h' → val_in h v → val_in h' v.
Proof. destruct v; simpl; try done. lia. Qed.

Lemma obj_in_mono h h' o : length h ≤ length h' → obj_in h o → obj_in h' o.
Proof.
  intros L. destruct o; simpl; intros H;
    (eapply list.Forall_impl; [exact H|]).
  - intros [k v]. by apply val_in_mono.
  - intros v. by apply val_in_mono.
Qed.

Lemma closed_alloc h o : closed h → obj_in (h ++ [o]) o → closed (h ++ [o]).
Proof.
  intros Hc Ho. apply Forall_app. split; [|by constructor].
  eapply list.Forall_impl; [exact Hc|]. intros o'. apply obj_in_mono.
  rewrite length_app. lia.
Qed.


Lemma fields_read_foldl n h kvs jkvs :
  Forall2 (λ kv kj, kj.1 = kv.1 ∧ read n h kv.2 = Some kj.2) kvs jkvs →
  ∀ acc jacc, fields_read n h acc jacc →
  fields_read n h (foldl (λ acc kv, dict_set acc kv.1 kv.2) acc kvs)
    (foldl (λ acc kv, jobj_set acc kv.1 kv.2) jacc jkvs).
Proof.
  induction 1 as [|[k v] [k' jv] kvs jkvs [Hk Hv] _ IH]; intros acc jacc Hacc;
    [done|].
  simpl in *. subst k'. apply IH. by apply fields_read_set.
Qed.

Lemma closed_read_alloc h o jo :
  closed h →
  match o with
  | ODict d => ∃ jd, jo = JObj jd ∧ fields_read (length h) h d jd
  | OList xs =>
      ∃ js, jo = JArr js ∧ Forall2 (λ x jx, read (length h) h x = Some jx) xs js
  end →
  closed (h ++ [o])
  ∧ read (length (h ++ [o])) (h ++ [o]) (VRef (length h)) = Some jo.
Proof.
  intros Hc Ho.
  assert (Hext : heap_extends h (h ++ [o])) by apply heap_extends_alloc.
  assert (Hl : (h ++ [o]) !! length h = Some o)
    by (by rewrite list_lookup_middle).
  assert (Hlen : length (h ++ [o]) = S (length h))
    by (rewrite length_app; simpl; lia).
  rewrite Hlen. destruct o as [d|xs].
  - destruct Ho as (jd & -> & Hf). split.
    + apply closed_alloc; [done|].
      apply (obj_in_mono h); [apply Hext|]. simpl. clear -Hf.
      induction Hf as [|[k v] [k' jv] d jd [_ Hv] _ IH]; constructor;
        [|done].
      by eapply read_val_in.
    + apply (proj2 (read_dict _ _ _ _ _ Hl)). exists (length h), jd.
      split_and!; try done. by eapply fields_read_mono.
  - destruct Ho as (js & -> & Hf). split.
    + apply closed_alloc; [done|].
      apply (obj_in_mono h); [apply Hext|]. simpl. clear -Hf.
      induction Hf as [|v jv xs js Hv _ IH]; constructor; [|done].
      by eapply read_val_in.
    + apply (proj2 (read_list _ _ _ _ _ Hl)). exists (length h), js.
      split_and!; try done.
      eapply list.Forall2_impl; [exact Hf|]. intros x jx.
      by apply read_extends.
Qed.

(** [json.load] returns on every document; the loaded value stands for
    the document as Python holds it. *)
Lemma json_load_doc j :
  ∀ w, closed (heap w) →
  ∃ v w', json_load j w = (Ok v, w')
          ∧ heap_extends (heap w) (heap w') ∧ closed (heap w')
          ∧ w' = set_heap (heap w') w
          ∧ read (length (heap w')) (heap w') v = Some (json_norm j).
Proof.
  induction j as [| | | | |xs IH|d IH] using json_all_ind; intros w Hc;
    try (eexists _, w; split; [reflexivity|];
         split_and!; [apply heap_extends_refl|done|by destruct w
                     |by destruct (length (heap w))]).
  - assert (Hitems : ∃ vs w1,
      (fix load_items (xs : list json) : M (list val) :=
         match xs with
         | [] => mret []
         | x :: xs' => v ← json_load x; vs ← load_items xs'; mret (v :: vs)
         end) xs w = (Ok vs, w1)
      ∧ heap_extends (heap w) (heap w1) ∧ closed (heap w1)
      ∧ w1 = set_heap (heap w1) w
      ∧ Forall2 (λ v jx, read (length (heap w1)) (heap w1) v = Some jx)
          vs (map json_norm xs)).
    { clear -IH Hc. revert w Hc.
      induction IH as [|x xs Hx _ IHxs]; intros w Hc.
      - exists [], w. split_and!;
          first [done|apply heap_extends_refl|by destruct w|constructor].
      - destruct (Hx w Hc) as (v & w1 & Ev & E1 & C1 & W1 & R1).
        destruct (IHxs w1 C1) as (vs & w2 & Evs & E2 & C2 & W2 & R2).
        exists (v :: vs), w2. split_and!.
        + rewrite (bind_ok _ _ _ _ _ Ev), (bind_ok _ _ _ _ _ Evs). done.
        + by eapply heap_extends_trans.
        + done.
        + rewrite W2, W1. done.
        + constructor; [|done].
          eapply read_mono; [apply E2|].
          exact (read_extends _ _ _ _ _ C1 E2 R1). }
    destruct Hitems as (vs & w1 & Evs & E1 & C1 & W1 & R1).
    exists (VRef (length (heap w1))), (set_heap (heap w1 ++ [OList vs]) w1).
    destruct (closed_read_alloc (heap w1) (OList vs)
                (JArr (map json_norm xs)) C1) as [C R]; [by eexists|].
    split_and!; try done.
    + change (json_load (JArr xs)) with
        (vs ← (fix load_items (xs : list json) : M (list val) :=
                 match xs with
                 | [] => mret []
                 | x :: xs' =>
                     v ← json_load x; vs ← load_items xs'; mret (v :: vs)
                 end) xs;
         alloc (OList vs)).
      by rewrite (bind_ok _ _ _ _ _ Evs).
    + eapply heap_extends_trans; [done|]. apply heap_extends_alloc.
    + simpl. by rewrite W1.
  - assert (Hfields : ∃ kvs w1,
      (fix load_fields (d : list (list N * json)) : M (list (list N * val)) :=
         match d with
         | [] => mret []
         | (k, x) :: d' =>
             v ← json_load x; kvs ← load_fields d'; mret ((k, v) :: kvs)
         end) d w = (Ok kvs, w1)
      ∧ heap_extends (heap w) (heap w1) ∧ closed (heap w1)
      ∧ w1 = set_heap (heap w1) w
      ∧ Forall2 (λ kv kj, kj.1 = kv.1
                          ∧ read (length (heap w1)) (heap w1) kv.2 = Some kj.2)
          kvs (map (λ kv, (kv.1, json_norm kv.2)) d)).
    { clear -IH Hc. revert w Hc.
      induction IH as [|[k x] d Hx _ IHd]; intros w Hc.
      - exists [], w. split_and!;
          first [done|apply heap_extends_refl|by destruct w|constructor].
      - destruct (Hx w Hc) as (v & w1 & Ev & E1 & C1 & W1 & R1).
        destruct (IHd w1 C1) as (kvs & w2 & Evs & E2 & C2 & W2 & R2).
        exists ((k, v) :: kvs), w2. split_and!.
        + simpl in Ev.
          rewrite (bind_ok _ _ _ _ _ Ev), (bind_ok _ _ _ _ _ Evs). done.
        + by eapply heap_extends_trans.
        + done.
        + rewrite W2, W1. done.
        + constructor; [|done]. simpl. split; [done|].
          eapply read_mono; [apply E2|].
          exact (read_extends _ _ _ _ _ C1 E2 R1). }
    destruct Hfields as (kvs & w1 & Evs & E1 & C1 & W1 & R1).
    set (o := ODict (foldl (λ acc kv, dict_set acc kv.1 kv.2) [] kvs)).
    exists (VRef (length (heap w1))), (set_heap (heap w1 ++ [o]) w1).
    destruct (closed_read_alloc (heap w1) o (json_norm (JObj d)) C1) as [C R].
    { eexists. split; [reflexivity|].
      apply fields_read_foldl; [done|constructor]. }
    split_and!; try done.
    + change (json_load (JObj d)) with
        (kvs ← (fix load_fields (d : list (list N * json))
                  : M (list (list N * val)) :=
                  match d with
                  | [] => mret []
                  | (k, x) :: d' =>
                      v ← json_load x; kvs ← load_fields d';
                      mret ((k, v) :: kvs)
                  end) d;
         alloc (ODict (foldl (λ acc kv, dict_set acc kv.1 kv.2) [] kvs))).
      by rewrite (bind_ok _ _ _ _ _ Evs).
    + eapply heap_extends_trans; [done|]. apply heap_extends_alloc.
    + simpl. by rewrite W1.
Qed.

Lemma json_load_runs j w :
  closed (heap w) → ∃ v w', json_load j w = (Ok v, w') ∧ load_post w v w'.
Proof.
  intros Hc. destruct (json_load_doc j w Hc) as (v & w' & H & E & C & W & R).
  exists v, w'. split; [done|]. split_and!; try done. by eexists.
Qed.




(** ** The document that comes out *)

Lemma truthy_json n hb w x jx :
  heap_extends hb (heap w) → read n hb x = Some jx →
  truthy x w = (Ok (json_truthy jx), w).
Proof.
  intros He Hr. pose proof (read_val_in _ _ _ _ Hr) as Hin.
  destruct x as [| | | | |l];
    try (by destruct n; simpl in Hr; injection Hr as <-).
  simpl in Hin. apply lookup_lt_is_Some_2 in Hin as [o Ho].
  unfold truthy.
  rewrite (bind_ok _ _ _ _ _
             (deref_lookup _ _ _ (heap_extends_lookup _ _ _ _ He Ho))).
  destruct o as [d|xs].
  - destruct (proj1 (read_dict _ _ _ _ _ Ho) Hr) as (? & jd & _ & -> & Hf).
    by destruct Hf.
  - destruct (proj1 (read_list _ _ _ _ _ Ho) Hr) as (? & js & _ & -> & Hf).
    by destruct Hf.
Qed.

(** The document of an output message is [doc_message] of the document
    of its input message. *)
Lemma msg_rel_doc model src tgt hb b h n m o jm :
  stateless model → closed hb → heap_extends hb h →
  msg_rel model src tgt hb b h m o → read n hb m = Some jm →
  ∃ jm', doc_message model src tgt jm = Some jm' ∧ read n h o = Some jm'.
Proof.
  intros Hst Hc He (li & lo & d & d' & wi & cs & -> & -> & Hd & _ & Hd'
                    & Hwi & Htr) Hr.
  destruct (proj1 (read_dict _ _ _ _ _ Hd) Hr) as (n' & jd & -> & -> & Hf).
  pose proof (fields_read_mono n' n' hb h d jd Hc He (le_n _) Hf) as Hf'.
  pose proof (fields_read_get _ _ _ _ key_value Hf) as Hg.
  destruct Htr as [Ht|s Hs Hne Hss|s out Hs Hss Hb].
  - exists (JObj jd). split.
    + unfold doc_message. unfold msg_value in Ht.
      destruct (dict_get d key_value) as [x|]; simpl in Ht.
      * destruct Hg as (jx & -> & Hx).
        rewrite (truthy_json _ _ _ _ _ Hwi Hx) in Ht.
        injection Ht as ->. done.
      * by rewrite Hg.
    + apply (proj2 (read_dict _ _ _ _ _ Hd')). eauto.
  - rewrite Hs in Hg. destruct Hg as (jx & Hg & Hx).
    assert (jx = JStr s) as -> by (destruct n'; simpl in Hx; congruence).
    exists (JObj (jobj_set jd key_translated_value (JStr []))). split.
    + unfold doc_message. rewrite Hg. cbn [json_truthy].
      assert (str_truthy s = true) as -> by (by destruct s).
      rewrite Hss. reflexivity.
    + apply (proj2 (read_dict _ _ _ _ _ Hd')). eexists _, _. split_and!; try done.
      apply fields_read_set; [done|]. by destruct n'.
  - rewrite Hs in Hg. destruct Hg as (jx & Hg & Hx).
    assert (jx = JStr s) as -> by (destruct n'; simpl in Hx; congruence).
    exists (JObj (jobj_set jd key_translated_value (JStr (join [LF] out)))).
    split.
    + unfold doc_message. rewrite Hg. cbn [json_truthy].
      assert (str_truthy s = true) as ->.
      { destruct s; [|done]. by destruct Hss. }
      remember (sentences_of (split LF s)) as ss eqn:Ess.
      destruct ss as [|s1 ss]; [done|].
      rewrite (Hst [] (calls wi)), Hb. reflexivity.
    + apply (proj2 (read_dict _ _ _ _ _ Hd')). eexists _, _. split_and!; try done.
      apply fields_read_set; [done|]. by destruct n'.
Qed.

Lemma msgs_rel_doc model src tgt hb b h n msgs outs jms :
  stateless model → closed hb → heap_extends hb h →
  Forall2 (msg_rel model src tgt hb b h) msgs outs →
  Forall2 (λ x jx, read n hb x = Some jx) msgs jms →
  ∃ jms', mapM (doc_message model src tgt) jms = Some jms'
          ∧ Forall2 (λ x jx, read n h x = Some jx) outs jms'.
Proof.
  intros Hst Hc He Hall. revert jms.
  induction Hall as [|m o msgs outs Hm _ IH]; intros jms Hr.
  - inversion Hr; subst. exists []. by split.
  - inversion Hr as [|? jm ? jms0 Hjm Hjms]; subst.
    destruct (msg_rel_doc _ _ _ _ _ _ _ _ _ _ Hst Hc He Hm Hjm)
      as (jm' & Hdm & Ho).
    destruct (IH _ Hjms) as (jms' & Hdms & Hos).
    exists (jm' :: jms'). split; [|by constructor].
    simpl. by rewrite Hdm, Hdms.
Qed.

Lemma msg_rel_ref model src tgt hb b h m o :
  msg_rel model src tgt hb b h m o → ∃ l, m = VRef l.
Proof. intros (li & ? & ? & ? & ? & ? & -> & _). eauto. Qed.

(** The document of the new list of messages is [doc_conversation] of
    the document of the conversations field. *)
Lemma conversation_doc model src tgt wb b h n conv msgs outs lt jc :
  stateless model → closed (heap wb) → heap_extends (heap wb) h →
  iter conv wb = (Ok msgs, wb) →
  Forall2 (msg_rel model src tgt (heap wb) b h) msgs outs →
  h !! lt = Some (OList outs) →
  read n (heap wb) conv = Some jc →
  ∃ jc', doc_conversation model src tgt jc = Some jc'
         ∧ read (S n) h (VRef lt) = Some jc'.
Proof.
  intros Hst Hc He Hit Hall Hlt Hr.
  assert (Hnil : msgs = [] → outs = []).
  { intros ->. by inversion Hall. }
  assert (Hempty : outs = [] → read (S n) h (VRef lt) = Some (JArr [])).
  { intros ->. apply (proj2 (read_list _ _ _ _ _ Hlt)). exists n, []. by split_and!. }
  destruct conv as [| | | |s|lc]; try done.
  - injection Hit as <-.
    destruct s as [|c s].
    + exists (JArr []). split; [|by auto].
      by destruct n; simpl in Hr; injection Hr as <-.
    + inversion Hall as [|???? Hm]; subst.
      by apply msg_rel_ref in Hm as [? [=]].
  - pose proof (read_val_in _ _ _ _ Hr) as Hin. simpl in Hin.
    apply lookup_lt_is_Some_2 in Hin as [o Ho].
    unfold iter in Hit. rewrite (bind_ok _ _ _ _ _ (deref_lookup _ _ _ Ho)) in Hit.
    destruct o as [d|xs]; injection Hit as <-.
    + destruct d as [|[k x] d].
      * destruct (proj1 (read_dict _ _ _ _ _ Ho) Hr) as (? & jd & _ & -> & Hf).
        inversion Hf; subst. exists (JArr []). split; [done|by auto].
      * inversion Hall as [|???? Hm]; subst.
        by apply msg_rel_ref in Hm as [? [=]].
    + destruct (proj1 (read_list _ _ _ _ _ Ho) Hr) as (n' & jms & -> & -> & Hf).
      destruct (msgs_rel_doc _ _ _ _ _ _ _ _ _ _ Hst Hc He Hall Hf)
        as (jms' & Hd & Hos).
      exists (JArr jms'). split; [by simpl; rewrite Hd|].
      apply (proj2 (read_list _ _ _ _ _ Hlt)). exists (S n'), jms'.
      split_and!; try done.
      eapply list.Forall2_impl; [exact Hos|]. intros x jx.
      apply read_mono. lia.
Qed.

(** The document of a new record is [doc_item] of the document of the
    input record. *)
Lemma record_doc model src tgt wb b h n li d conv msgs lo lt outs jit :
  stateless model → closed (heap wb) → heap_extends (heap wb) h →
  heap wb !! li = Some (ODict d) →
  dict_get d key_conversations = Some conv →
  iter conv wb = (Ok msgs, wb) →
  h !! lo = Some (ODict (dict_set d key_conversations (VRef lt))) →
  h !! lt = Some (OList outs) →
  Forall2 (msg_rel model src tgt (heap wb) b h) msgs outs →
  read n (heap wb) (VRef li) = Some jit →
  ∃ jit', doc_item model src tgt jit = Some jit'
          ∧ read (S n) h (VRef lo) = Some jit'.
Proof.
  intros Hst Hc He Hd Hconv Hit Hlo Hlt Hall Hr.
  destruct (proj1 (read_dict _ _ _ _ _ Hd) Hr) as (n' & jd & -> & -> & Hf).
  pose proof (fields_read_get _ _ _ _ key_conversations Hf) as Hg.
  rewrite Hconv in Hg. destruct Hg as (jc & Hg & Hjc).
  destruct (conversation_doc _ _ _ _ _ _ _ _ _ _ _ _ Hst Hc He Hit Hall Hlt Hjc)
    as (jc' & Hdc & Hrc).
  exists (JObj (jobj_set jd key_conversations jc')). split.
  - simpl. rewrite Hg. simpl. by rewrite Hdc.
  - apply (proj2 (read_dict _ _ _ _ _ Hlo)). eexists _, _. split_and!; try done.
    apply fields_read_set; [|done].
    eapply fields_read_mono; [done|done| |exact Hf]. lia.
Qed.

Lemma item_rel_doc model src tgt wb b h lines n item out jit :
  stateless model → closed (heap wb) → heap_extends (heap wb) h →
  item_rel model src tgt wb b h lines item out →
  read n (heap wb) item = Some jit →
  ∃ jit', doc_item model src tgt jit = Some jit'
          ∧ read (S n) h out = Some jit'.
Proof.
  intros Hst Hc He (li & d & -> & Hd & H) Hr.
  destruct (dict_get d key_conversations) as [conv|] eqn:Hconv.
  - destruct H as (msgs & lo & lt & outs & Hit & -> & _ & _ & Ho & Ht & Hall).
    by eapply record_doc.
  - destruct H as [-> _]. exists jit. split.
    + destruct (proj1 (read_dict _ _ _ _ _ Hd) Hr) as (n' & jd & -> & -> & Hf).
      pose proof (fields_read_get _ _ _ _ key_conversations Hf) as Hg.
      rewrite Hconv in Hg. simpl. by rewrite Hg.
    + eapply read_mono; [|by eapply read_extends]. lia.
Qed.

Lemma items_rel_doc model src tgt wb b h lines n items outs jitems :
  stateless model → closed (heap wb) → heap_extends (heap wb) h →
  Forall2 (item_rel model src tgt wb b h lines) items outs →
  Forall2 (λ x jx, read n (heap wb) x = Some jx) items jitems →
  ∃ jouts, mapM (doc_item model src tgt) jitems = Some jouts
           ∧ Forall2 (λ x jx, read (S n) h x = Some jx) outs jouts.
Proof.
  intros Hst Hc He Hall. revert jitems.
  induction Hall as [|item out items outs Hi _ IH]; intros jitems Hr.
  - inversion Hr; subst. exists []. by split.
  - inversion Hr as [|? jit ? jits Hjit Hjits]; subst.
    destruct (item_rel_doc _ _ _ _ _ _ _ _ _ _ _ Hst Hc He Hi Hjit)
      as (jit' & Hdi & Ho).
    destruct (IH _ Hjits) as (jouts & Hdis & Hos).
    exists (jit' :: jouts). split; [|by constructor].
    simpl. by rewrite Hdi, Hdis.
Qed.

(** The document under the value [process_file] returns. *)
Lemma returned_document model path src tgt w data j v w' :
  stateless model → closed (heap w) →
  read (length (heap w)) (heap w) data = Some j →
  process_file data model path src tgt w = (Ok v, w') → v ≠ VNone →
  ∃ j', doc_translate model src tgt j = Some j'
        ∧ read (length (heap w')) (heap w') v = Some j'.
Proof.
  intros Hst Hc Hr H Hv.
  pose proof (read_val_in _ _ _ _ Hr) as Hin.
  assert (Hext : heap_extends (heap w) (heap w')).
  { apply process_file_any in H as (F & _). by eapply heap_frame_extends. }
  pose proof (process_file_ok_post _ _ _ _ _ _ _ _ Hc Hin H) as Hpost.
  destruct data as [| | | | |ld]; try (by destruct Hpost as [-> _]).
  simpl in Hpost. destruct (heap w !! ld) as [[d|items]|] eqn:Hld;
    [|clear H|by destruct Hpost as [-> _]].
  - destruct (dict_has d key_conversations) eqn:Hhas;
      [|by destruct Hpost as [-> _]].
    destruct Hpost as (? & d0 & conv & msgs & lo & lt & outs & [= <-] & Hld'
                       & Hconv & Hit & -> & Llt & Llo & Hlo & Hlt & Hall & _).
    assert (d0 = d) as -> by congruence.
    destruct (record_doc _ _ _ _ _ _ _ _ _ _ _ _ _ _ _ Hst Hc Hext Hld Hconv
                Hit Hlo Hlt Hall Hr) as (j' & Hd & Hout).
    exists j'. split.
    + destruct (proj1 (read_dict _ _ _ _ _ Hld) Hr) as (n' & jd & _ & -> & Hf).
      pose proof (fields_read_get _ _ _ _ key_conversations Hf) as Hg.
      rewrite Hconv in Hg. destruct Hg as (jc & Hg & _).
      unfold doc_translate. by rewrite Hg.
    + eapply read_mono; [|exact Hout].
      assert (lo ≠ lt) by (intros ->; congruence).
      apply lookup_lt_Some in Hlo, Hlt. lia.
  - destruct Hpost as (? & items' & outs & ks & [= <-] & Hld' & -> & Hout
                       & Hall & _).
    assert (items' = items) as -> by congruence.
    destruct (proj1 (read_list _ _ _ _ _ Hld) Hr) as (n' & jitems & Hn & -> & Hf).
    destruct (items_rel_doc _ _ _ _ _ _ _ _ _ _ _ Hst Hc Hext Hall Hf)
      as (jouts & Hd & Houts).
    exists (JArr jouts). split; [by simpl; rewrite Hd|].
    apply lookup_lt_Some in Hout as Hlen.
    destruct (length (heap w')) as [|n1] eqn:E; [lia|].
    apply (proj2 (read_list _ _ _ _ _ Hout)). exists n1, jouts. split_and!; try done.
    eapply list.Forall2_impl; [exact Houts|]. intros x jx.
    apply read_mono. lia.
Qed.

(** X10. With a backend whose answers do not depend on earlier calls,
    in a closed store: when [process_file] returns a translated corpus,
    the document under the returned value, which is what [json.dump]
    writes, is [doc_translate] of the document under the loaded value.
    So the output document is the input document in which every
    message with a text that is not empty has got the field
    [translated_value], holding the translations of its trimmed
    non-blank lines joined by line breaks, and nothing else has
    changed. *)
Theorem output_document model path src tgt w data j v w' :
  stateless model → closed (heap w) →
  read (length (heap w)) (heap w) data = Some j →
  process_file data model path src tgt w = (Ok v, w') → v ≠ VNone →
  ∃ j', doc_translate model src tgt j = Some j'
        ∧ read (length (heap w')) (heap w') v = Some j'.
Proof. apply returned_document. Qed.

Lemma output_document_witness :
  let w := (loaded example1).2 in
  let w' := (process_file (VRef 3) dictionary_model None eng hin w).2 in
  read (length (heap w')) (heap w') (VRef 4)
  = Some (JArr [JObj [(py "id", JStr (py "1"));
                      (py "conversations",
                       JArr [JObj [(py "from", JStr (py "human"));
                                   (py "value",
                                    JStr (py "Hello" ++ [LF] ++ py "World"));
                                   (py "translated_value",
                                    JStr (py "Namaste" ++ [LF]
                                          ++ py "Duniya"))]])]]).
Proof.
  intros w w'.
  destruct (output_document dictionary_model None eng hin w (VRef 3) example1
              (VRef 4) w') as (j' & Hd & Hread).
  - by intros ?????.
  - unfold closed. vm_compute. repeat constructor.
  - vm_compute. reflexivity.
  - vm_compute. reflexivity.
  - discriminate.
  - rewrite Hread. rewrite <- Hd. vm_compute. reflexivity.
Defined.


(** A value that [process_file] does not support stands for a document
    that [doc_translate] does not translate. *)
Lemma unsupported_document model src tgt n h data j :
  read n h data = Some j → spec_classify h data = Unsupported →
  doc_translate model src tgt j = None.
Proof.
  intros Hr Hs.
  destruct data as [| | | | |l];
    try (by destruct n; simpl in Hr; injection Hr as <-).
  simpl in Hs. destruct (h !! l) as [[d|xs]|] eqn:Hl; [|done|].
  - destruct (proj1 (read_dict _ _ _ _ _ Hl) Hr) as (n' & jd & _ & -> & Hf).
    pose proof (fields_read_get _ _ _ _ key_conversations Hf) as Hg.
    unfold dict_has in Hs.
    destruct (dict_get d key_conversations); [done|].
    unfold doc_translate. by rewrite Hg.
  - destruct n; simpl in Hr; [done|]. by rewrite Hl in Hr.
Qed.

(** X11. [main] from the document to the file, with a backend whose
    answers do not depend on earlier calls and an output path that is
    not empty: when [main] returns, it has written exactly one file, at
    the output path, holding [doc_translate] of the input document as
    [json.load] holds it; unless the document has neither of the two
    supported shapes, in which case it has written none. *)
Theorem main_writes_translation model input p src tgt w w' :
  stateless model → closed (heap w) → str_truthy p = true →
  main input model (Some p) src tgt w = (Ok tt, w') →
  files w'
  = files w ++ match doc_translate model src tgt (json_norm input) with
               | Some j' => [(p, Some j')]
               | None => []
               end.
Proof.
  intros Hst Hc Hp H. unfold main in H.
  destruct (json_load_doc input w Hc) as (data & w1 & Hload & E1 & C1 & W1 & R1).
  rewrite (bind_ok _ _ _ _ _ Hload) in H.
  assert (Hf1 : files w1 = files w) by (by rewrite W1).
  destruct (process_file data model (Some p) src tgt w1) as [r1 w2] eqn:Hrun.
  assert (∃ v, r1 = Ok v ∧ w2 = w') as (v & -> & ->).
  { unfold mbind, M_bind in H. rewrite Hrun in H.
    destruct r1; [|done]. injection H as <-. eauto. }
  rewrite <- Hf1.
  assert (v = VNone ∨ v ≠ VNone) as [->|Hv] by (destruct v; auto).
  - pose proof (process_file_ok_post _ _ _ _ _ _ _ _ C1
                  (read_val_in _ _ _ _ R1) Hrun) as Hpost.
    destruct (spec_classify (heap w1) data) eqn:Hs.
    + by destruct Hpost as (? & ? & ? & ? & _ & _ & [=] & _).
    + by destruct Hpost as (? & ? & ? & ? & ? & ? & ? & _ & _ & _ & _ & [=] & _).
    + destruct Hpost as [_ ->].
      rewrite (unsupported_document _ _ _ _ _ _ _ R1 Hs). simpl.
      by rewrite app_nil_r.
  - destruct (returned_document _ _ _ _ _ _ _ _ _ Hst C1 R1 Hrun Hv)
      as (j' & -> & Hread).
    apply process_file_phases in Hrun
      as [(_ & [[= ->]|[? _]])|(v5 & w5 & rs & _ & Hstep & Hsave & Hr)];
      try done.
    destruct rs as [[]|]; [|done]. injection Hr as <-.
    destruct Hstep as (_ & _ & Hf & _).
    apply save_ok_inv in Hsave. rewrite Hp in Hsave.
    destruct Hsave as (j & Hj & ->). simpl in *. rewrite Hf. congruence.
Qed.

Lemma main_writes_translation_witness :
  files (run_main example1 dictionary_model (Some (py "out.json"))).2
  = [(py "out.json",
      Some (JArr [JObj [(py "id", JStr (py "1"));
                        (py "conversations",
                         JArr [JObj [(py "from", JStr (py "human"));
                                     (py "value",
                                      JStr (py "Hello" ++ [LF] ++ py "World"));
                                     (py "translated_value",
                                      JStr (py "Namaste" ++ [LF]
                                            ++ py "Duniya"))]])]]))].
Proof.
  rewrite (main_writes_translation dictionary_model example1 (py "out.json")
             eng hin empty_world
             (run_main example1 dictionary_model (Some (py "out.json"))).2).
  - vm_compute. reflexivity.
  - by intros ?????.
  - constructor.
  - reflexivity.
  - vm_compute. reflexivity.
Defined.

(** ** Well-formed documents *)

(** The value that stands for a document. *)
Lemma read_inv n h v j :
  read n h v = Some j →
  match j with
  | JNull => v = VNone
  | JBool b => v = VBool b
  | JInt z => v = VInt z
  | JFloat f => v = VFloat f
  | JStr s => v = VStr s
  | JArr js =>
      ∃ l xs n', v = VRef l ∧ h !! l = Some (OList xs) ∧ n = S n'
                 ∧ Forall2 (λ x jx, read n' h x = Some jx) xs js
  | JObj jd =>
      ∃ l d n', v = VRef l ∧ h !! l = Some (ODict d) ∧ n = S n'
                ∧ fields_read n' h d jd
  end.
Proof.
  intros Hr. destruct v as [| | | | |l];
    try (by destruct n; simpl in Hr; injection Hr as <-).
  pose proof (read_val_in _ _ _ _ Hr) as Hin. simpl in Hin.
  apply lookup_lt_is_Some_2 in Hin as [o Ho]. destruct o as [d|xs].
  - destruct (proj1 (read_dict _ _ _ _ _ Ho) Hr) as (n' & jd & -> & -> & Hf).
    by exists l, d, n'.
  - destruct (proj1 (read_list _ _ _ _ _ Ho) Hr) as (n' & js & -> & -> & Hf).
    by exists l, xs, n'.
Qed.

Lemma read_msg_ok n h v j : read n h v = Some j → doc_msg_ok j → msg_ok h v.
Proof.
  intros Hr Hok. destruct j as [| | | | | |jd]; try done.
  apply read_inv in Hr as (l & d & n' & -> & Hl & -> & Hf).
  exists l, d. split_and!; try done.
  pose proof (fields_read_get _ _ _ _ key_value Hf) as Hg. simpl in Hok.
  destruct (dict_get d key_value) as [x|]; [|done].
  destruct Hg as (jx & Hg & Hx). rewrite Hg in Hok.
  apply read_inv in Hx. destruct jx; try done; by subst.
Qed.

Lemma read_msgs_ok n h xs js :
  Forall2 (λ x jx, read n h x = Some jx) xs js →
  Forall doc_msg_ok js → Forall (msg_ok h) xs.
Proof.
  induction 1 as [|x jx xs js Hx _ IH]; [done|].
  intros Hok. inversion Hok as [|?? Hj Hjs]; subst.
  constructor; [by eapply read_msg_ok|auto].
Qed.

Lemma read_item_ok n h v j : read n h v = Some j → doc_item_ok j → item_ok h v.
Proof.
  intros Hr Hok. destruct j as [| | | | | |jd]; try done.
  apply read_inv in Hr as (l & d & n' & -> & Hl & -> & Hf).
  exists l, d. split_and!; try done.
  pose proof (fields_read_get _ _ _ _ key_conversations Hf) as Hg.
  simpl in Hok. destruct (dict_get d key_conversations) as [x|]; [|done].
  destruct Hg as (jx & Hg & Hx). rewrite Hg in Hok.
  destruct jx as [| | | | |ms|]; try done.
  apply read_inv in Hx as (lc & msgs & n'' & -> & Hlc & -> & Hms).
  exists msgs. split; [done|]. by eapply read_msgs_ok.
Qed.

(** On a well-formed single conversation and with a backend that never
    raises, [process_file] returns. *)
Lemma process_single_runs model path src tgt w ld d lc msgs :
  closed (heap w) →
  heap w !! ld = Some (ODict d) →
  dict_get d key_conversations = Some (VRef lc) →
  heap w !! lc = Some (OList msgs) →
  Forall (msg_ok (heap w)) msgs → backend_total model →
  readable (length (heap w)) (heap w) (VRef ld) →
  ∃ v w', process_file (VRef ld) model path src tgt w = (Ok v, w').
Proof.
  intros Hc Hld Hconv Hlc Hmsgs Htotal Hr.
  destruct (translate_single_runs model src tgt w ld d lc msgs)
    as (v & w5 & Htr); [done..|].
  assert (Hrun : ∀ path' rs w',
            save v path' w5 = (Ok rs, w') →
            process_file (VRef ld) model path' src tgt w = (Ok v, w')).
  { intros path' rs w' Hsave.
    rewrite process_file_dispatch by (simpl; by eapply lookup_lt_Some).
    simpl. rewrite Hld. unfold dict_has. rewrite Hconv.
    rewrite process_single_split, (bind_ok _ _ _ _ _ Htr).
    by rewrite (bind_ok _ _ _ _ _ Hsave). }
  pose proof (result_readable _ _ _ _ _ _ _ Hc Hr
                (Hrun None tt w5 eq_refl)) as Hv.
  destruct (save_runs v path w5) as (w' & Hsave); [done|].
  exists v, w'. by eapply Hrun.
Qed.



(** ** The lines of a translated text *)

Lemma sentences_of_fixed xs :
  Forall (λ x, x ≠ [] ∧ strip x = x) xs → sentences_of xs = xs.
Proof.
  unfold sentences_of. induction 1 as [|x xs [Hne Hx] _ IH]; [done|].
  simpl. rewrite Hx. destruct x; [done|]. simpl. by rewrite Hx, IH.
Qed.

(** X13. The sentences line 57 makes of a text, joined by line breaks as
    line 64 joins the translations, are a text of which line 57 makes
    the same sentences: the text is normalised once and for all. So
    with a backend that gives every sentence back, the
    [translated_value] of a message is a text that the pipeline would
    send to the backend line by line as it stands. *)
Theorem sentences_join_round_trip s :
  sentences_of (split LF (join [LF] (sentences_of (split LF s))))
  = sentences_of (split LF s).
Proof.
  pose proof (sentences_of_trimmed s) as Ht.
  destruct (sentences_of (split LF s)) as [|x xs] eqn:E; [done|].
  rewrite split_join.
  - apply sentences_of_fixed. eapply list.Forall_impl; [exact Ht|].
    by intros y (? & ? & _).
  - done.
  - eapply list.Forall_impl; [exact Ht|]. by intros y (_ & _ & ? & _).
Qed.
